(** * The experience store of SugaR (src/experience.cpp)

    A shallow embedding of the collision-chained index, the file loader,
    the incremental/full writer with its backup logic, the compact-PGN
    ingestion loop and the diagnostic estimator, of the commands built
    on them ([defrag], [merge], [convert_compact_pgn]) and of the
    functions of the namespace that manage the current store, followed
    by the properties established about them. *)

From Stdlib Require Import ZArith Lia String Ascii.
From stdpp Require Import base gmap list strings sorting.

Local Open Scope Z_scope.

(** ** Records *)

(** [Key] is a 64-bit position fingerprint; [Move], [Value] and [Depth]
    are the engine's [int]-based types. *)
Abbreviation Key := Z.
Abbreviation Move := Z.
Abbreviation Value := Z.
Abbreviation Depth := Z.

(** [struct ExpEntry]: the unit of storage. *)
Record ExpEntry := mkExpEntry {
  key : Key;
  move : Move;
  value : Value;
  depth : Depth
}.

#[global] Instance ExpEntry_eq_dec : EqDecision ExpEntry.
Proof. solve_decision. Defined.

(** [struct ExpEntryEx] adds the [next] link; a chain of linked nodes is
    the list of its nodes in link order, the head first. *)
Abbreviation Chain := (list ExpEntry).

(** What the translation unit takes from headers outside it. *)
Class Params := {
  (** [MIN_EXP_DEPTH]: the depth below which a record is not persisted. *)
  MIN_EXP_DEPTH : Depth;
  (** [WriteBufferSize]: 1024 in debug builds, 16 MiB otherwise. *)
  WriteBufferSize : nat;
  VALUE_NONE : Value;
  VALUE_MATE : Value;
  VALUE_KNOWN_WIN : Value;
  PawnValueEg : Value;
  DEPTH_NONE : Depth;
  MAX_PLY : Z;
  MOVE_NONE : Move;
  (** [Utility::map_path]: resolves a file name to the path that is opened. *)
  map_path : string → string;
  (** [ExpEntry::compare], declared in experience.h: positive when the
      first record is the better one, used as [a->compare(b)]. *)
  ExpEntry_compare : ExpEntry → ExpEntry → Z
}.

(** Modelled from the spec: the rule of [ExpEntry::compare], declared in
    experience.h which is not part of the sources at hand.  "Primary key
    is depth (deeper search wins); secondary key is value (higher
    evaluation wins)".  The result is positive when [a] is the better
    record. *)
Definition compare_depth_then_value (a b : ExpEntry) : Z :=
  if decide (depth a = depth b) then value a - value b
  else depth a - depth b.

(** Modelled from the spec: [ExpEntry::merge], declared in experience.h.
    "The new data augments/overwrites the existing node -- exact merge
    policy: prefer higher depth; defined as an operation on the existing
    node, idempotent"; equal-depth duplicates are "keep-first". *)
Definition ExpEntry_merge (e exp : ExpEntry) : ExpEntry :=
  if depth e <? depth exp
  then {| key := key e; move := move e; value := value exp; depth := depth exp |}
  else e.

(** Modelled from the spec: [ExpEntryEx::find], declared in experience.h.
    "Scan its chain for a node with the same move"; the node found is
    returned as its position in the chain. *)
Fixpoint ExpEntryEx_find (m : Move) (chain : Chain) : option nat :=
  match chain with
  | [] => None
  | e :: rest =>
      if decide (move e = m) then Some 0%nat
      else S <$> ExpEntryEx_find m rest
  end.

(** ** The chain index *)

Section Index.
Context `{Params}.

(** The [do ... while (true)] loop of [link_entry], walking [expEx2] down
    the chain.  [at_head] is the test [expEx2 == itr->second].  A better
    record is put in front of the head, but *behind* any later node it
    beats ([expEx->next = expEx2->next; expEx2->next = expEx]). *)
Fixpoint insert_sorted (expEx : ExpEntry) (at_head : bool) (chain : Chain) : Chain :=
  match chain with
  | [] => [expEx]
  | expEx2 :: rest =>
      if 0 <? ExpEntry_compare expEx expEx2 then
        if at_head then expEx :: expEx2 :: rest
        else expEx2 :: expEx :: rest
      else
        match rest with
        | [] => [expEx2; expEx]
        | _ => expEx2 :: insert_sorted expEx false rest
        end
  end.

(** [ExperienceData::link_entry].  The result is [true] for a new node and
    [false] for a duplicate that was merged into an existing node. *)
Definition link_entry (expEx : ExpEntry) (_mainExp : gmap Z Chain)
  : bool * gmap Z Chain :=
  match _mainExp !! key expEx with
  | None => (true, <[key expEx := [expEx]]> _mainExp)
  | Some chain =>
      match ExpEntryEx_find (move expEx) chain with
      | Some i =>
          (false,
           <[key expEx := alter (λ expEx2, ExpEntry_merge expEx2 expEx) i chain]> _mainExp)
      | None =>
          (true, <[key expEx := insert_sorted expEx true chain]> _mainExp)
      end
  end.

(** [ExperienceData::probe] with the chain read as a list: an absent
    fingerprint has the empty chain. *)
Definition probe (k : Key) (_mainExp : gmap Z Chain) : Chain :=
  default [] (_mainExp !! k).

End Index.

(** ** The record codec *)

(** A byte is an integer in [0, 256). *)
Abbreviation byte := Z.

(** [ExperienceSignature = "SugaR"] and its length. *)
Definition ExperienceSignature : list byte := [83; 117; 103; 97; 82].
Definition ExperienceSignatureLength : nat := 5.

(** [n] bytes of [x], least significant first (two's complement for a
    negative [x]). *)
Fixpoint le_bytes (n : nat) (x : Z) : list byte :=
  match n with
  | O => []
  | S n' => x `mod` 256 :: le_bytes n' (x `div` 256)
  end.

Fixpoint le_value (bs : list byte) : Z :=
  match bs with
  | [] => 0
  | b :: bs' => b + 256 * le_value bs'
  end.

(** The value of a 32-bit pattern read as a signed [int]. *)
Definition to_int32 (u : Z) : Z := if u <? 2 ^ 31 then u else u - 2 ^ 32.

(** Modelled from the spec: the layout of [struct ExpEntry], declared in
    experience.h.  "Each record is a fixed-width tuple (fingerprint: 8
    bytes, move: encoded token, value: signed integer, depth: unsigned
    integer)"; the three [int]-based fields take 4 bytes each and the
    struct is padded to the 8-byte alignment of its fingerprint. *)
Definition sizeof_ExpEntry : nat := 24.

(** The bytes that the [reinterpret_cast] of a record pointer exposes. *)
Definition encode (e : ExpEntry) : list byte :=
  le_bytes 8 (key e) ++ le_bytes 4 (move e) ++ le_bytes 4 (value e)
    ++ le_bytes 4 (depth e) ++ [0; 0; 0; 0].

(** The record that [in.read] of [sizeof(ExpEntry)] bytes leaves in the
    node [expEx] points to. *)
Definition decode (bs : list byte) : ExpEntry :=
  {| key := le_value (take 8 bs);
     move := to_int32 (le_value (take 4 (drop 8 bs)));
     value := to_int32 (le_value (take 4 (drop 12 bs)));
     depth := to_int32 (le_value (take 4 (drop 16 bs))) |}.

(** The records that survive the codec unchanged. *)
Definition entry_in_range (e : ExpEntry) : Prop :=
  (0 ≤ key e < 2 ^ 64) ∧ (- 2 ^ 31 ≤ move e < 2 ^ 31)
  ∧ (- 2 ^ 31 ≤ value e < 2 ^ 31) ∧ (- 2 ^ 31 ≤ depth e < 2 ^ 31).

(** [size_t] subtraction of two sizes: wraps around below zero. *)
Definition size_t_sub (a b : Z) : Z := if a <? b then a - b + 2 ^ 64 else a - b.

(** ** Files and their failures *)

(** What the operating system may refuse.  Each field is an oracle: the
    calls of the program consult it, nothing else is assumed. *)
Record Faults := mkFaults {
  remove_fails : string → bool;
  rename_fails : string → string → bool;
  open_fails : string → bool;
  (** whether the [k]-th [write] call that moves data fails *)
  write_fails : nat → bool;
  (** how many bytes a stream on this file delivers before reads fail *)
  read_limit : string → option nat;
  (** whether the [k]-th [malloc] of a load fails *)
  malloc_fails : nat → bool
}.

Inductive FsCall :=
| CallRemove (p : string)
| CallRename (p q : string)
| CallOpenIn (p : string)
| CallOpenApp (p : string)
| CallWrite (p : string) (bs : list byte).

Record World := mkWorld {
  files : gmap string (list byte);
  faults : Faults;
  calls : list FsCall;
  nwrites : nat
}.

Definition log (c : FsCall) (w : World) : World :=
  {| files := files w; faults := faults w; calls := calls w ++ [c]; nwrites := nwrites w |}.

Definition set_files (fs : gmap string (list byte)) (w : World) : World :=
  {| files := fs; faults := faults w; calls := calls w; nwrites := nwrites w |}.

(** [Utility::file_exists]. *)
Definition file_exists (p : string) (w : World) : bool :=
  bool_decide (is_Some (files w !! p)).

(** [remove(p) == 0]. *)
Definition c_remove (p : string) (w : World) : bool * World :=
  let w1 := log (CallRemove p) w in
  if remove_fails (faults w) p then (false, w1)
  else match files w !! p with
       | Some _ => (true, set_files (delete p (files w)) w1)
       | None => (false, w1)
       end.

(** [rename(p, q) == 0], as POSIX has it: an existing [q] is replaced. *)
Definition c_rename (p q : string) (w : World) : bool * World :=
  let w1 := log (CallRename p q) w in
  if rename_fails (faults w) p q then (false, w1)
  else match files w !! p with
       | Some bs => (true, set_files (<[q := bs]> (delete p (files w))) w1)
       | None => (false, w1)
       end.

(** [out.write(bs)] on a stream opened for appending on [p]; [good] is the
    state of the stream before the call, the result its state after.  A
    stream that has failed stays failed; an empty write cannot fail. *)
Definition out_write (p : string) (bs : list byte) (good : bool) (w : World)
  : bool * World :=
  let w1 := log (CallWrite p bs) w in
  match bs with
  | [] => (good, w1)
  | _ =>
      if good && negb (write_fails (faults w) (nwrites w)) then
        (true,
         {| files := <[p := default [] (files w !! p) ++ bs]> (files w);
            faults := faults w; calls := calls w1; nwrites := S (nwrites w) |})
      else
        (false,
         {| files := files w; faults := faults w; calls := calls w1;
            nwrites := S (nwrites w) |})
  end.

(** [in.read(buf, n)]: [n] bytes or failure. *)
Definition in_read (n : nat) (rest : list byte) : option (list byte * list byte) :=
  if decide (n ≤ length rest)%nat then Some (take n rest, drop n rest) else None.

(** ** The store *)

Record ExperienceData := mkExperienceData {
  _filename : string;
  (** the raw blocks kept for release, each by its number of records *)
  _expExData : list nat;
  _mainExp : gmap Z Chain;
  (** the pending records; every element comes from [new ExpEntry] and
      is not null *)
  _newPvExp : list ExpEntry;
  _newMultiPvExp : list ExpEntry;
  _abortLoading : bool;
  _loadingResult : bool
}.

(** The constructor. *)
Definition new_ExperienceData : ExperienceData :=
  {| _filename := ""; _expExData := []; _mainExp := ∅;
     _newPvExp := []; _newMultiPvExp := [];
     _abortLoading := false; _loadingResult := false |}.

Definition set_mainExp (m : gmap Z Chain) (st : ExperienceData) : ExperienceData :=
  {| _filename := _filename st; _expExData := _expExData st; _mainExp := m;
     _newPvExp := _newPvExp st; _newMultiPvExp := _newMultiPvExp st;
     _abortLoading := _abortLoading st; _loadingResult := _loadingResult st |}.

Definition push_expExData (n : nat) (st : ExperienceData) : ExperienceData :=
  {| _filename := _filename st; _expExData := _expExData st ++ [n];
     _mainExp := _mainExp st;
     _newPvExp := _newPvExp st; _newMultiPvExp := _newMultiPvExp st;
     _abortLoading := _abortLoading st; _loadingResult := _loadingResult st |}.

(** [clear_new_exp]. *)
Definition clear_new_exp (st : ExperienceData) : ExperienceData :=
  {| _filename := _filename st; _expExData := _expExData st; _mainExp := _mainExp st;
     _newPvExp := []; _newMultiPvExp := [];
     _abortLoading := _abortLoading st; _loadingResult := _loadingResult st |}.

(** [has_new_exp]. *)
Definition has_new_exp (st : ExperienceData) : bool :=
  negb (Nat.eqb (length (_newPvExp st)) 0) || negb (Nat.eqb (length (_newMultiPvExp st)) 0).

(** [add_pv_experience] and [add_multipv_experience]. *)
Definition add_pv_experience (k : Key) (m : Move) (v : Value) (d : Depth)
  (st : ExperienceData) : ExperienceData :=
  {| _filename := _filename st; _expExData := _expExData st; _mainExp := _mainExp st;
     _newPvExp := _newPvExp st ++ [mkExpEntry k m v d];
     _newMultiPvExp := _newMultiPvExp st;
     _abortLoading := _abortLoading st; _loadingResult := _loadingResult st |}.

Definition add_multipv_experience (k : Key) (m : Move) (v : Value) (d : Depth)
  (st : ExperienceData) : ExperienceData :=
  {| _filename := _filename st; _expExData := _expExData st; _mainExp := _mainExp st;
     _newPvExp := _newPvExp st;
     _newMultiPvExp := _newMultiPvExp st ++ [mkExpEntry k m v d];
     _abortLoading := _abortLoading st; _loadingResult := _loadingResult st |}.

(** The order in which [for (const auto& x : _mainExp)] visits the
    unordered map.  The language leaves it open, so it is a parameter. *)
Class Iteration := { iteration_order : gmap Z Chain → list (Key * Chain) }.

(** How a load ends; each failure is one of the messages of [_load]. *)
Inductive LoadResult :=
| Loaded (duplicateMoves : nat)
| CouldNotOpen
| EmptyFile
| Corrupted
| SigAllocFailed
| SigReadFailed
| SigMismatch
| DataAllocFailed
| EntryReadFailed (i : nat)
| Aborted.

Definition load_ok (r : LoadResult) : bool :=
  match r with Loaded _ => true | _ => false end.

(** How the record loop of [_load] ends: at its end (or at the abort
    flag), or at a record that could not be read. *)
Inductive LoopOutcome :=
| LoopDone (m : gmap Z Chain) (duplicateMoves : nat)
| LoopFailed (i : nat) (m : gmap Z Chain).

(** The output stream of [_save] together with its [writeBuffer]. *)
Record OutStream := mkOutStream {
  out_path : string;
  out_good : bool;
  writeBuffer : list byte;
  out_world : World
}.

Section Store.
Context `{Params} `{Iteration}.

(** The test [depth >= MIN_EXP_DEPTH] of the writer. *)
Definition qualifies (e : ExpEntry) : Prop := MIN_EXP_DEPTH ≤ depth e.

#[global] Instance qualifies_dec e : Decision (qualifies e).
Proof. unfold qualifies. apply _. Defined.

(** *** Loading *)

(** The loop [for (size_t i = 0; i < expCount; i++)] of [_load]; [count]
    is the number of records still to read.  [abort] is [_abortLoading],
    which only the destructor sets: it is read as it stands when the load
    begins. *)
Fixpoint load_entries (count i : nat) (abort : bool) (rest : list byte)
    (m : gmap Z Chain) (duplicateMoves : nat) : LoopOutcome :=
  match count with
  | O => LoopDone m duplicateMoves
  | S count' =>
      if abort then LoopDone m duplicateMoves
      else
        match in_read sizeof_ExpEntry rest with
        | None => LoopFailed i m
        | Some (bs, rest') =>
            let '(fresh, m') := link_entry (decode bs) m in
            load_entries count' (S i) abort rest' m'
              (if fresh then duplicateMoves else S duplicateMoves)
        end
  end.

(** [ExperienceData::_load].  The product [expCount * sizeof(ExpEntry)]
    does not exceed [expDataSize] and so does not wrap. *)
Definition _load (fn : string) (st : ExperienceData) (w : World)
  : LoadResult * ExperienceData * World :=
  let p := map_path fn in
  let w1 := log (CallOpenIn p) w in
  match (if open_fails (faults w) p then None else files w !! p) with
  | None => (CouldNotOpen, st, w1)
  | Some content =>
      let inSize := Z.of_nat (length content) in
      if inSize =? 0 then (EmptyFile, st, w1)
      else
        let expDataSize := size_t_sub inSize (Z.of_nat ExperienceSignatureLength) in
        let expCount := expDataSize `div` Z.of_nat sizeof_ExpEntry in
        if negb (expCount * Z.of_nat sizeof_ExpEntry =? expDataSize)
        then (Corrupted, st, w1)
        else if malloc_fails (faults w) 0 then (SigAllocFailed, st, w1)
        else
          let readable :=
            match read_limit (faults w) p with
            | Some n => take n content
            | None => content
            end in
          match in_read ExperienceSignatureLength readable with
          | None => (SigReadFailed, st, w1)
          | Some (sig, rest) =>
              if negb (bool_decide (sig = ExperienceSignature))
              then (SigMismatch, st, w1)
              else if malloc_fails (faults w) 1 then (DataAllocFailed, st, w1)
              else
                match load_entries (Z.to_nat expCount) 0 (_abortLoading st)
                        rest (_mainExp st) 0 with
                | LoopFailed i m => (EntryReadFailed i, set_mainExp m st, w1)
                | LoopDone m duplicateMoves =>
                    let st' := push_expExData (Z.to_nat expCount) (set_mainExp m st) in
                    if _abortLoading st then (Aborted, st', w1)
                    else (Loaded duplicateMoves, st', w1)
                end
          end
  end.

(** [ExperienceData::load], the loader thread run to its end before the
    call returns: [_filename] and [_loadingResult] are set as the thread
    sets them, and an asynchronous call answers [true] whatever the
    outcome. *)
Definition load (filename : string) (synchronous : bool)
    (st : ExperienceData) (w : World) : bool * ExperienceData * World :=
  let st1 :=
    {| _filename := filename; _expExData := _expExData st; _mainExp := _mainExp st;
       _newPvExp := _newPvExp st; _newMultiPvExp := _newMultiPvExp st;
       _abortLoading := _abortLoading st; _loadingResult := false |} in
  let '(r, st2, w2) := _load filename st1 w in
  let st3 :=
    {| _filename := _filename st2; _expExData := _expExData st2;
       _mainExp := _mainExp st2;
       _newPvExp := _newPvExp st2; _newMultiPvExp := _newMultiPvExp st2;
       _abortLoading := _abortLoading st2; _loadingResult := load_ok r |} in
  (if synchronous then load_ok r else true, st3, w2).

(** *** Saving *)

(** The lambda [write_entry] of [_save]. *)
Definition write_entry (exp : option ExpEntry) (force : bool) (s : OutStream)
  : bool * OutStream :=
  let buf :=
    match exp with
    | Some e => writeBuffer s ++ encode e
    | None => writeBuffer s
    end in
  if force || bool_decide (WriteBufferSize ≤ length buf)%nat then
    let '(good, w) := out_write (out_path s) buf (out_good s) (out_world s) in
    (good, {| out_path := out_path s; out_good := good; writeBuffer := [];
              out_world := w |})
  else
    (true, {| out_path := out_path s; out_good := out_good s; writeBuffer := buf;
              out_world := out_world s |}).

(** One of the three writing loops of [_save], over the records that
    passed its filter; it stops at the first failed [write_entry]. *)
Fixpoint write_entries (l : list ExpEntry) (s : OutStream) : bool * OutStream :=
  match l with
  | [] => (true, s)
  | e :: l' =>
      let '(ok, s') := write_entry (Some e) false s in
      if ok then write_entries l' s' else (false, s')
  end.

(** The records the [saveAll] loop hands to [write_entry]: every chain in
    iteration order, each from its head on, without the shallow nodes. *)
Definition index_entries (m : gmap Z Chain) : list ExpEntry :=
  flat_map (λ x, filter qualifies x.2) (iteration_order m).

(** [ExperienceData::_save] up to its last loop: [inl] is a
    [return false] with the files as they then are, [inr] the stream in
    front of the final flush. *)
Definition _save_entries (fn : string) (saveAll : bool) (st : ExperienceData)
    (w : World) : World + OutStream :=
  let p := map_path fn in
  let w1 := log (CallOpenApp p) w in
  if open_fails (faults w) p then inl w1
  else
    let w2 := set_files (<[p := default [] (files w1 !! p)]> (files w1)) w1 in
    let length := length (default [] (files w2 !! p)) in
    let '(good, w3) :=
      if Nat.eqb length 0 then out_write p ExperienceSignature true w2
      else (true, w2) in
    if negb good then inl w3
    else
      let s0 := {| out_path := p; out_good := good; writeBuffer := [];
                   out_world := w3 |} in
      let '(ok1, s1) :=
        write_entries (if saveAll then index_entries (_mainExp st) else []) s0 in
      if negb ok1 then inl (out_world s1)
      else
        let '(ok2, s2) := write_entries (filter qualifies (_newPvExp st)) s1 in
        if negb ok2 then inl (out_world s2)
        else
          let '(ok3, s3) := write_entries (filter qualifies (_newMultiPvExp st)) s2 in
          if negb ok3 then inl (out_world s3)
          else inr s3.

(** [ExperienceData::_save]: after the loops, "Flush buffer" (the answer
    of [write_entry] is dropped), "Clear new moves", [return true]. *)
Definition _save (fn : string) (saveAll : bool) (st : ExperienceData) (w : World)
  : bool * ExperienceData * World :=
  match _save_entries fn saveAll st w with
  | inl w' => (false, st, w')
  | inr s3 =>
      let '(_, s4) := write_entry None true s3 in
      (true, clear_new_exp st, out_world s4)
  end.

(** All records that [_save] hands to [write_entry], in order: the index
    when [saveAll], then the two pending buffers. *)
Definition saved_records (saveAll : bool) (st : ExperienceData) : list ExpEntry :=
  (if saveAll then index_entries (_mainExp st) else [])
    ++ filter qualifies (_newPvExp st) ++ filter qualifies (_newMultiPvExp st).

(** The early return of [save]. *)
Definition nothing_to_save (saveAll : bool) (st : ExperienceData) : bool :=
  negb (has_new_exp st)
  && (negb saveAll || bool_decide (size (_mainExp st) = 0%nat)).

(** Step 1 of [save]: the name of the backup that was made, empty when
    there is none. *)
Definition create_backup (expFilename : string) (saveAll : bool) (w : World)
  : string * World :=
  if saveAll && file_exists expFilename w then
    let backupExpFilename := expFilename +:+ ".bak" in
    let '(backupExpFilename, w) :=
      if file_exists backupExpFilename w then
        let '(ok, w') := c_remove backupExpFilename w in
        (if ok then backupExpFilename else "", w')
      else (backupExpFilename, w) in
    if negb (String.eqb backupExpFilename "") then
      let '(ok, w') := c_rename expFilename backupExpFilename w in
      (if ok then backupExpFilename else "", w')
    else (backupExpFilename, w)
  else ("", w).

(** [ExperienceData::save]. *)
Definition save (fn : string) (saveAll : bool) (st : ExperienceData) (w : World)
  : ExperienceData * World :=
  if nothing_to_save saveAll st then (st, w)
  else
    let expFilename := map_path fn in
    let '(backupExpFilename, w1) := create_backup expFilename saveAll w in
    let '(ok, st2, w2) := _save fn saveAll st w1 in
    if negb ok then
      if negb (String.eqb backupExpFilename "") then
        let '(_, w3) := c_rename backupExpFilename expFilename w2 in
        (st2, w3)
      else (st2, w2)
    else (st2, w2).

End Store.

(** ** The engine, as far as the store looks at it *)

Inductive Color := WHITE | BLACK | COLOR_NB.

#[global] Instance Color_eq_dec : EqDecision Color.
Proof. solve_decision. Defined.

(** [operator~] on the two sides. *)
Definition flip_color (c : Color) : Color :=
  match c with WHITE => BLACK | BLACK => WHITE | COLOR_NB => COLOR_NB end.

(** The position representation, the move parser and the C library's
    number parsers are collaborators outside this translation unit. *)
Class Engine := {
  Position : Type;
  pos_set : string → Position;
  pos_key : Position → Key;
  side_to_move : Position → Color;
  game_ply : Position → Z;
  is_draw : Position → Z → bool;
  do_move : Position → Move → Position;
  (** [count<ALL_PIECES>()], [count<BISHOP>()], [count<KNIGHT>()] *)
  count_all : Position → Z;
  count_bishops : Position → Z;
  count_knights : Position → Z;
  (** [count<BISHOP>(c)] *)
  count_bishops_of : Position → Color → Z;
  (** [pieces(c, BISHOP) & DarkSquares] and [... & ~DarkSquares] *)
  bishops_on_dark : Position → Color → bool;
  bishops_on_light : Position → Color → bool;
  (** [UCI::to_move] *)
  to_move : Position → string → Move;
  stoi : string → Z;
  atoi : string → Z
}.

(** ** The ingestion of compact PGN *)

(** The counters of [GLOBAL_COMPACT_PGN_CONVERSION_DATA]. *)
Inductive Counter :=
| numGames | numGamesWithErrors | numGamesIgnored
| numMovesWithScores | numMovesWithScoresIgnored | numMovesWithoutScores
| wbd (c : Color).

#[global] Instance Counter_eq_dec : EqDecision Counter.
Proof. solve_decision. Defined.

Definition Counters := Counter → nat.

Definition bump (c : Counter) (s : Counters) : Counters :=
  λ c', if decide (c = c') then S (s c') else s c'.

(** [int resultWeight[COLOR_NB + 1]]. *)
Record Weights := mkWeights { weight_white : Z; weight_black : Z; weight_draw : Z }.

Definition get_weight (c : Color) (r : Weights) : Z :=
  match c with
  | WHITE => weight_white r | BLACK => weight_black r | COLOR_NB => weight_draw r
  end.

Definition set_weight (c : Color) (v : Z) (r : Weights) : Weights :=
  match c with
  | WHITE => {| weight_white := v; weight_black := weight_black r; weight_draw := weight_draw r |}
  | BLACK => {| weight_white := weight_white r; weight_black := v; weight_draw := weight_draw r |}
  | COLOR_NB => {| weight_white := weight_white r; weight_black := weight_black r; weight_draw := v |}
  end.

(** The command-line limits of [convert_compact_pgn]. *)
Record Limits := mkLimits {
  maxPly : Z;
  maxValue : Value;
  minDepth : Depth;
  maxDepth : Depth
}.

(** [_move.pop_back()] while the move ends in [+], [#], CR or LF. *)
Definition is_move_suffix (c : ascii) : bool :=
  (Ascii.eqb c "+" || Ascii.eqb c "#" || Ascii.eqb c "013" || Ascii.eqb c "010")%char.

Fixpoint drop_suffix_chars (reversed : list ascii) : list ascii :=
  match reversed with
  | c :: rest => if is_move_suffix c then drop_suffix_chars rest else reversed
  | [] => []
  end.

Definition cleanup_move (_move : string) : string :=
  string_of_list_ascii (rev (drop_suffix_chars (rev (list_ascii_of_string _move)))).

(** The lambda [tokenize]: [getline(iss, field, delimiter)] fills [field]
    up to the next delimiter, which it takes away, or up to the end of
    the string; it fails, and the loop ends, when the string is used up
    before it has taken a character. *)
Fixpoint tokenize_from (field str : string) (delimiter : ascii) : list string :=
  match str with
  | EmptyString => if String.eqb field "" then [] else [field]
  | String c rest =>
      if Ascii.eqb c delimiter then field :: tokenize_from "" rest delimiter
      else tokenize_from (field +:+ String c "") rest delimiter
  end.

Definition tokenize (str : string) (delimiter : ascii) : list string :=
  tokenize_from "" str delimiter.

Section Convert.
Context `{Params} `{Engine}.

(** The limits as read from [argv] (the two paths come first). *)
Definition read_limits (argv : list string) : Limits :=
  let argc := length argv in
  {| maxPly := if decide (3 ≤ argc)%nat then atoi (argv !!! 2%nat) else 1000;
     maxValue := if decide (4 ≤ argc)%nat then atoi (argv !!! 3%nat) else VALUE_MATE;
     minDepth := if decide (5 ≤ argc)%nat
                 then Z.max (atoi (argv !!! 4%nat)) MIN_EXP_DEPTH else MIN_EXP_DEPTH;
     maxDepth := if decide (6 ≤ argc)%nat
                 then Z.max (atoi (argv !!! 5%nat)) MIN_EXP_DEPTH else MAX_PLY |}.

(** [COMPACT_PGN_CONVERSION_DATA] with the locals of the move loop:
    the ply counter and the records staged for the game. *)
Record GameData := mkGameData {
  gamePly : Z;
  detectedWinnerColor : Color;
  drawDetected : bool;
  resultWeight : Weights;
  pos : Position;
  tempBuffer : list byte;
  stats : Counters
}.

Definition GOOD_SCORE : Value := PawnValueEg * 3.
Definition OK_SCORE : Value := GOOD_SCORE `quot` 2.
Definition MAX_DRAW_SCORE : Value := 50.
Definition MIN_WEIGHT_FOR_DRAW : Z := 8.
Definition MIN_WEIGHT_FOR_WIN : Z := 16.
Definition MIN_PLY_PER_GAME : Z := 16.

(** The filter in front of the staging of a scored move. *)
Definition passes_filters (lim : Limits) (score : Value) (depth : Depth) : bool :=
  (minDepth lim <=? depth) && (depth <=? maxDepth lim) && (Z.abs score <=? maxValue lim).

(** The staging of a scored move: the record is keyed by [pos.key()] of
    the position the loop is at, which the move has not yet changed. *)
Definition stage_move (lim : Limits) (move : Move) (score : Value) (depth : Depth)
    (g : GameData) : GameData :=
  if passes_filters lim score depth then
    {| gamePly := gamePly g; detectedWinnerColor := detectedWinnerColor g;
       drawDetected := drawDetected g; resultWeight := resultWeight g; pos := pos g;
       tempBuffer := tempBuffer g ++ encode (mkExpEntry (pos_key (pos g)) move score depth);
       stats := bump numMovesWithScores (stats g) |}
  else
    {| gamePly := gamePly g; detectedWinnerColor := detectedWinnerColor g;
       drawDetected := drawDetected g; resultWeight := resultWeight g; pos := pos g;
       tempBuffer := tempBuffer g;
       stats := bump numMovesWithScoresIgnored (stats g) |}.

Definition with_stats (s : Counters) (g : GameData) : GameData :=
  {| gamePly := gamePly g; detectedWinnerColor := detectedWinnerColor g;
     drawDetected := drawDetected g; resultWeight := resultWeight g; pos := pos g;
     tempBuffer := tempBuffer g; stats := s |}.

Definition with_result (c : Color) (d : bool) (r : Weights) (g : GameData) : GameData :=
  {| gamePly := gamePly g; detectedWinnerColor := c;
     drawDetected := d; resultWeight := r; pos := pos g;
     tempBuffer := tempBuffer g; stats := stats g |}.

(** "Detect score pattern": the weights after a scored move. *)
Definition score_pattern (score : Value) (stm : Color) (r : Weights) : Weights :=
  let winner := if 0 <? score then stm else flip_color stm in
  let loser := if 0 <? score then flip_color stm else stm in
  if GOOD_SCORE <=? Z.abs score then
    let r1 := set_weight COLOR_NB 0 r in
    let r2 := set_weight winner (get_weight winner r1 + (if score <? 0 then 4 else 2)) r1 in
    set_weight loser 0 r2
  else if OK_SCORE <=? Z.abs score then
    let r1 := set_weight COLOR_NB (get_weight COLOR_NB r `quot` 2) r in
    let r2 := set_weight winner (get_weight winner r1 + (if score <? 0 then 2 else 1)) r1 in
    set_weight loser (get_weight loser r2 `quot` 2) r2
  else if Z.abs score <=? MAX_DRAW_SCORE then
    set_weight BLACK 0 (set_weight WHITE 0
      (set_weight COLOR_NB (get_weight COLOR_NB r + 2) r))
  else
    set_weight BLACK (get_weight BLACK r `quot` 2)
      (set_weight WHITE (get_weight WHITE r `quot` 2)
        (set_weight COLOR_NB (get_weight COLOR_NB r + 1) r)).

(** "Detect draw by insufficient material", on the position after the
    move. *)
Definition insufficient_material (p : Position) : bool :=
  let num_pieces := count_all p in
  if num_pieces =? 2 then true
  else if (num_pieces =? 3) && (count_bishops p + count_knights p =? 1) then true
  else if (num_pieces =? 4) && (count_bishops_of p WHITE =? 1)
          && (count_bishops_of p BLACK =? 1) then
    (bishops_on_dark p WHITE && bishops_on_dark p BLACK)
    || (bishops_on_light p WHITE && bishops_on_light p BLACK)
  else false.

(** One turn of the move loop on the fields [tok] of a move token.
    [inr] is [return false] with the counters as they then stand. *)
Definition process_move (lim : Limits) (winnerColor : Color) (tok : list string)
    (g0 : GameData) : GameData + Counters :=
  let g :=
    {| gamePly := gamePly g0 + 1; detectedWinnerColor := detectedWinnerColor g0;
       drawDetected := drawDetected g0; resultWeight := resultWeight g0; pos := pos g0;
       tempBuffer := tempBuffer g0; stats := stats g0 |} in
  let _move := if decide (1 ≤ length tok)%nat then tok !!! 0%nat else "" in
  let _score := if decide (2 ≤ length tok)%nat then tok !!! 1%nat else "" in
  let _depth := if decide (3 ≤ length tok)%nat then tok !!! 2%nat else "" in
  if decide (4 ≤ length tok)%nat then inr (bump numGamesWithErrors (stats g))
  else
    let _move := cleanup_move _move in
    if String.eqb _move "" then inr (bump numGamesWithErrors (stats g))
    else
      let move := to_move (pos g) _move in
      if move =? MOVE_NONE then inr (bump numGamesWithErrors (stats g))
      else
        let depth := if String.eqb _depth "" then DEPTH_NONE else stoi _depth in
        let score := if String.eqb _score "" then VALUE_NONE else stoi _score in
        let scored : GameData + Counters :=
          if negb (depth =? DEPTH_NONE) && negb (score =? VALUE_NONE) then
            let g1 := stage_move lim move score depth g in
            let stm := side_to_move (pos g1) in
            let judged : GameData + Counters :=
              if VALUE_KNOWN_WIN <=? Z.abs score then
                let winnerColorBasedOnThisMove :=
                  if 0 <? score then stm else flip_color stm in
                if decide (detectedWinnerColor g1 = COLOR_NB) then
                  if decide (winnerColorBasedOnThisMove ≠ winnerColor)
                  then inr (bump numGamesIgnored (stats g1))
                  else inl (with_result winnerColorBasedOnThisMove (drawDetected g1)
                              (resultWeight g1) g1)
                else if decide (detectedWinnerColor g1 ≠ winnerColorBasedOnThisMove)
                then inr (bump numGamesIgnored (stats g1))
                else inl g1
              else if is_draw (pos g1)
                        (if is_draw (pos g1) (game_ply (pos g1)) then 1 else 0)
              then inl (with_result (detectedWinnerColor g1) true (resultWeight g1) g1)
              else inl g1 in
            match judged with
            | inr s => inr s
            | inl g2 =>
                inl (with_result (detectedWinnerColor g2) (drawDetected g2)
                       (score_pattern score stm (resultWeight g2)) g2)
            end
          else inl (with_stats (bump numMovesWithoutScores (stats g)) g) in
        match scored with
        | inr s => inr s
        | inl g3 =>
            let p' := do_move (pos g3) move in
            let draw := drawDetected g3 || insufficient_material p' in
            let g4 :=
              {| gamePly := gamePly g3; detectedWinnerColor := detectedWinnerColor g3;
                 drawDetected := draw; resultWeight := resultWeight g3; pos := p';
                 tempBuffer := tempBuffer g3; stats := stats g3 |} in
            if draw && negb (bool_decide (detectedWinnerColor g4 = COLOR_NB))
            then inr (bump numGamesIgnored (stats g4))
            else inl g4
        end.

(** The move loop [for (size_t i = 2; i < tokens.size(); ++i)]. *)
Fixpoint process_moves (lim : Limits) (winnerColor : Color) (toks : list (list string))
    (g : GameData) : GameData + Counters :=
  match toks with
  | [] => inl g
  | tok :: toks' =>
      match process_move lim winnerColor tok g with
      | inr s => inr s
      | inl g' => process_moves lim winnerColor toks' g'
      end
  end.

(** The lambda [convert_compact_pgn_to_exp] on a game given by its start
    position, its result tag and the fields of its move tokens (a line
    without a move token has fewer than three tokens).  The result is the bytes appended to the global buffer ([None] when the
    game returns [false]) and the counters. *)
Definition convert_compact_pgn_to_exp (lim : Limits) (fen resultStr : string)
    (toks : list (list string)) (s : Counters) : option (list byte) * Counters :=
  let s := bump numGames s in
  let winner : option Color :=
    if String.eqb resultStr "w" then Some WHITE
    else if String.eqb resultStr "b" then Some BLACK
    else if String.eqb resultStr "d" then Some COLOR_NB
    else None in
  match toks, winner with
  | [], _ => (None, bump numGamesWithErrors s)
  | _, None => (None, s)
  | _, Some winnerColor =>
      let g0 :=
        {| gamePly := 0; detectedWinnerColor := COLOR_NB; drawDetected := false;
           resultWeight := mkWeights 0 0 0; pos := pos_set fen;
           tempBuffer := []; stats := s |} in
      match process_moves lim winnerColor toks g0 with
      | inr s' => (None, s')
      | inl g =>
          if gamePly g <? MIN_PLY_PER_GAME then (None, bump numGamesIgnored (stats g))
          else
            let detected :=
              if decide (detectedWinnerColor g = COLOR_NB) then
                if MIN_WEIGHT_FOR_WIN <=? get_weight WHITE (resultWeight g) then WHITE
                else if MIN_WEIGHT_FOR_WIN <=? get_weight BLACK (resultWeight g) then BLACK
                else COLOR_NB
              else detectedWinnerColor g in
            if bool_decide (detected ≠ winnerColor)
               || (negb (bool_decide (winnerColor = COLOR_NB))
                   && (get_weight winnerColor (resultWeight g) <? MIN_WEIGHT_FOR_WIN))
               || (bool_decide (winnerColor = COLOR_NB) && negb (drawDetected g)
                   && (get_weight COLOR_NB (resultWeight g) <? MIN_WEIGHT_FOR_DRAW))
            then (None, bump numGamesIgnored (stats g))
            else (Some (tempBuffer g), bump (wbd winnerColor) (stats g))
      end
  end.

(** The lambda on a line of the input, braces taken off: the line is
    split at the commas into the position, the result tag and the move
    tokens, and each move token at the colons.  With fewer than three
    tokens there is no move token, which is the first error return. *)
Definition convert_line (lim : Limits) (compactPgn : string) (s : Counters)
  : option (list byte) * Counters :=
  let tokens := tokenize compactPgn "," in
  convert_compact_pgn_to_exp lim (tokens !!! 0%nat) (tokens !!! 1%nat)
    ((λ token, tokenize token ":") <$> drop 2 tokens) s.

End Convert.

(** ** The diagnostic estimator *)

(** [std::stable_sort] with the predicate [before]: each element is put in
    front of the first one it does not have to follow, which keeps the
    elements that the predicate does not separate in their order. *)
Fixpoint stable_insert {A} (before : A → A → bool) (x : A) (l : list A) : list A :=
  match l with
  | [] => [x]
  | y :: l' => if before y x then y :: stable_insert before x l' else x :: y :: l'
  end.

Definition stable_sort {A} (before : A → A → bool) (l : list A) : list A :=
  foldr (stable_insert before) [] l.

Section ShowExp.
Context `{Params} `{Engine}.

Definition experienceBookMovesAhead : nat := 8.

(** "Find best next experience move (shallow search)": [t] runs over the
    nodes behind the head and replaces the choice whenever
    [t->compare(nextPosExpEx)] is not zero. *)
Definition best_next (chain : Chain) : option ExpEntry :=
  match chain with
  | [] => None
  | head :: rest =>
      Some (fold_left
              (λ nextPosExpEx t,
                 if ExpEntry_compare t nextPosExpEx =? 0 then nextPosExpEx else t)
              rest head)
  end.

(** The running sums of one walk. *)
Record Walk := mkWalk {
  multiplier : Z;
  valueSum : Z;
  valueWeight : Z;
  exp_size : nat
}.

(** The inner [while] of [show_exp]; [fuel] is what is left of
    [experienceBookMovesAhead - exp.size()].  The products are formed in
    [int] and are taken not to overflow. *)
Fixpoint walk (m : gmap Z Chain) (sideToMove : Color) (fuel : nat)
    (nextPosExpEx : option ExpEntry) (p : Position) (a : Walk) : Walk :=
  match fuel, nextPosExpEx with
  | S fuel', Some e =>
      if bool_decide (MIN_EXP_DEPTH ≤ depth e) then
        let sign := if decide (side_to_move p = sideToMove) then 1 else -1 in
        let a' :=
          {| multiplier := multiplier a + 1;
             valueSum := valueSum a + value e * depth e * multiplier a * sign;
             valueWeight := valueWeight a + depth e * multiplier a;
             exp_size := S (exp_size a) |} in
        let p' := do_move p (move e) in
        walk m sideToMove fuel' (best_next (probe (pos_key p') m)) p' a'
      else a
  | _, _ => a
  end.

(** The estimate of one candidate: [VALUE_NONE] when the walk is empty,
    else [Value(valueSum / valueWeight)], the 64-bit quotient cut to an
    [int].  [None] stands for the division by zero. *)
Definition estimate (m : gmap Z Chain) (p : Position) (tempExpEx : ExpEntry)
  : option Value :=
  let a := walk m (side_to_move p) experienceBookMovesAhead (Some tempExpEx) p
             (mkWalk 1 0 0 0) in
  if Nat.eqb (exp_size a) 0 then Some VALUE_NONE
  else if valueWeight a =? 0 then None
  else Some (to_int32 ((valueSum a `quot` valueWeight a) `mod` 2 ^ 32)).

(** The outer [while] of [show_exp]: [estimatedValue], one pair for each
    node of the chain, from the head on. *)
Fixpoint estimates (m : gmap Z Chain) (p : Position) (chain : Chain)
  : option (list (ExpEntry * Value)) :=
  match chain with
  | [] => Some []
  | tempExpEx :: rest =>
      match estimate m p tempExpEx with
      | None => None
      | Some v =>
          match estimates m p rest with
          | None => None
          | Some estimatedValue => Some ((tempExpEx, v) :: estimatedValue)
          end
      end
  end.

(** The predicate handed to [stable_sort]. *)
Definition estimate_before (a b : ExpEntry * Value) : bool :=
  if negb (a.2 =? VALUE_NONE) && negb (b.2 =? VALUE_NONE) then b.2 <? a.2
  else if a.2 =? VALUE_NONE then false
  else true.

(** [show_exp] up to its printing: the candidates of the position with
    their estimates, in the order in which they are listed. *)
Definition show_exp (m : gmap Z Chain) (p : Position)
  : option (list (ExpEntry * Value)) :=
  match estimates m p (probe (pos_key p) m) with
  | None => None
  | Some estimatedValue => Some (stable_sort estimate_before estimatedValue)
  end.

End ShowExp.

(** ** The commands and the current store *)

(** [Utility::unquote], from a header outside the translation unit. *)
Class Utility := { unquote : string → string }.

(** The UCI options the namespace reads: "Experience Enabled",
    "Experience File" and "Experience Readonly". *)
Record UciOptions := mkUciOptions {
  Experience_Enabled : bool;
  Experience_File : string;
  Experience_Readonly : bool
}.

(** The variables of the anonymous namespace: [currentExperience] (null
    is [None]), [experienceEnabled] and [learningPaused]. *)
Record Globals := mkGlobals {
  currentExperience : option ExperienceData;
  experienceEnabled : bool;
  learningPaused : bool
}.

(** The variables as the program starts. *)
Definition initial_globals : Globals :=
  {| currentExperience := None; experienceEnabled := true; learningPaused := false |}.

Section Commands.
Context `{Params} `{Iteration} `{Utility}.

(** [ExperienceData::clear], which the destructor runs: the raw blocks,
    the index and the pending records are dropped.  The abort flag is
    raised for a load in flight; none is in flight here. *)
Definition clear (st : ExperienceData) : ExperienceData :=
  {| _filename := _filename st; _expExData := []; _mainExp := ∅;
     _newPvExp := []; _newMultiPvExp := [];
     _abortLoading := true; _loadingResult := _loadingResult st |}.

(** [Experience::defrag] on its arguments: the files after the command.
    The store is a local of the command. *)
Definition Experience_defrag (argv : list string) (w : World) : World :=
  match argv with
  | [arg] =>
      let filename := map_path (map_path (unquote arg)) in
      let '(ok, exp, w1) := load filename true new_ExperienceData w in
      if ok then (save filename true exp w1).2 else w1
  | _ => w
  end.

(** "Step 4: Load and merge" of [Experience::merge]: every file is loaded
    into the one store, whatever [load] answers. *)
Fixpoint load_each (filenames : list string) (exp : ExperienceData) (w : World)
  : ExperienceData * World :=
  match filenames with
  | [] => (exp, w)
  | fn :: rest =>
      let '(_, exp', w') := load fn true exp w in
      load_each rest exp' w'
  end.

(** [Experience::merge] on its arguments: the store it builds and the
    files after the command. *)
Definition Experience_merge (argv : list string) (w : World)
  : option ExperienceData * World :=
  if decide (length argv < 2)%nat then (None, w)
  else
    let filenames := (λ arg, map_path (unquote arg)) <$> argv in
    let targetFilename := filenames !!! 0%nat in
    let '(exp, w1) := load_each filenames new_ExperienceData w in
    let '(exp', w2) := save targetFilename true exp w1 in
    (Some exp', w2).

(** [Experience::save]: the incremental save of the current store. *)
Definition Experience_save (o : UciOptions) (g : Globals) (w : World)
  : Globals * World :=
  match currentExperience g with
  | None => (g, w)
  | Some exp =>
      if negb (has_new_exp exp) || Experience_Readonly o then (g, w)
      else
        let '(exp', w') := save (_filename exp) false exp w in
        ({| currentExperience := Some exp'; experienceEnabled := experienceEnabled g;
            learningPaused := learningPaused g |}, w')
  end.

(** [Experience::unload]: save, then delete the store. *)
Definition Experience_unload (o : UciOptions) (g : Globals) (w : World)
  : Globals * World :=
  let '(g', w') := Experience_save o g w in
  ({| currentExperience := None; experienceEnabled := experienceEnabled g';
      learningPaused := learningPaused g' |}, w').

(** [Experience::init].  The load it starts is run to its end. *)
Definition Experience_init (o : UciOptions) (g : Globals) (w : World)
  : Globals * World :=
  let g1 := {| currentExperience := currentExperience g;
               experienceEnabled := Experience_Enabled o;
               learningPaused := learningPaused g |} in
  if negb (Experience_Enabled o) then Experience_unload o g1 w
  else
    let filename := Experience_File o in
    let fresh (g2 : Globals) (w2 : World) : Globals * World :=
      let '(_, exp, w3) := load filename false new_ExperienceData w2 in
      ({| currentExperience := Some exp; experienceEnabled := experienceEnabled g2;
          learningPaused := learningPaused g2 |}, w3) in
    match currentExperience g1 with
    | Some exp =>
        if String.eqb (_filename exp) filename && _loadingResult exp then (g1, w)
        else let '(g2, w2) := Experience_unload o g1 w in fresh g2 w2
    | None => fresh g1 w
    end.

(** [Experience::reload]. *)
Definition Experience_reload (o : UciOptions) (g : Globals) (w : World)
  : Globals * World :=
  match currentExperience g with
  | None => (g, w)
  | Some exp => if negb (has_new_exp exp) then (g, w) else Experience_init o g w
  end.

(** [Experience::probe]: the chain of the current store, empty without
    one. *)
Definition Experience_probe (k : Key) (g : Globals) : Chain :=
  match currentExperience g with
  | None => []
  | Some exp => probe k (_mainExp exp)
  end.

(** [Experience::add_pv_experience] and [Experience::add_multipv_experience]. *)
Definition Experience_add_pv_experience (k : Key) (m : Move) (v : Value) (d : Depth)
    (g : Globals) : Globals :=
  match currentExperience g with
  | None => g
  | Some exp =>
      {| currentExperience := Some (add_pv_experience k m v d exp);
         experienceEnabled := experienceEnabled g; learningPaused := learningPaused g |}
  end.

Definition Experience_add_multipv_experience (k : Key) (m : Move) (v : Value) (d : Depth)
    (g : Globals) : Globals :=
  match currentExperience g with
  | None => g
  | Some exp =>
      {| currentExperience := Some (add_multipv_experience k m v d exp);
         experienceEnabled := experienceEnabled g; learningPaused := learningPaused g |}
  end.

End Commands.

(** ** The conversion command *)

(** The characters of a file as a text stream hands them out. *)
Definition text_of (bs : list byte) : string :=
  string_of_list_ascii ((λ b : byte, ascii_of_nat (Z.to_nat b)) <$> bs).

(** The test [line.front() != '{' || line.back() != '}'] on a line that
    is not empty, and [line.substr(1, line.size() - 2)] when it
    passes. *)
Definition unbrace (line : string) : option string :=
  if bool_decide (String.get 0 line = Some "{"%char)
     && bool_decide (String.get (String.length line - 1) line = Some "}"%char)
  then Some (String.substring 1 (String.length line - 2) line)
  else None.

Section ConvertCommand.
Context `{Params} `{Iteration} `{Engine} `{Utility}.

(** The lambda [write_data]: the buffer goes to the stream when it is
    forced or full; the answer of [write] is not looked at. *)
Definition write_data (force : bool) (s : OutStream) : OutStream :=
  if force || bool_decide (WriteBufferSize ≤ length (writeBuffer s))%nat then
    let '(good, w) :=
      out_write (out_path s) (writeBuffer s) (out_good s) (out_world s) in
    {| out_path := out_path s; out_good := good; writeBuffer := []; out_world := w |}
  else s.

(** The loop over the lines of the input: empty lines and lines that
    are not in braces are passed over; an accepted game comes into the
    buffer and [write_data(false)] follows. *)
Fixpoint convert_lines (lim : Limits) (lines : list string) (s : OutStream)
    (c : Counters) : OutStream * Counters :=
  match lines with
  | [] => (s, c)
  | line :: rest =>
      if String.eqb line "" then convert_lines lim rest s c
      else
        match unbrace line with
        | None => convert_lines lim rest s c
        | Some compactPgn =>
            match convert_line lim compactPgn c with
            | (Some tempBuffer, c') =>
                let s' :=
                  {| out_path := out_path s; out_good := out_good s;
                     writeBuffer := writeBuffer s ++ tempBuffer;
                     out_world := out_world s |} in
                convert_lines lim rest (write_data false s') c'
            | (None, c') => convert_lines lim rest s c'
            end
        end
  end.

(** [convert_compact_pgn] from the opening of its streams up to its
    "Final commit": [inl] when the command returns before its loop, with
    the files as they then are; else the output stream and the counters.
    The input is taken as it is when its stream is opened, which is what
    the loop reads as long as the two paths name different files. *)
Definition convert_stream (argv : list string) (w : World)
  : World + OutStream * Counters :=
  let inputPath := unquote (argv !!! 0%nat) in
  let outputPath := unquote (argv !!! 1%nat) in
  let w1 := log (CallOpenIn inputPath) w in
  match (if open_fails (faults w) inputPath then None else files w !! inputPath) with
  | None => inl w1
  | Some input =>
      let w2 := log (CallOpenApp outputPath) w1 in
      if open_fails (faults w) outputPath then inl w2
      else
        let w3 :=
          set_files (<[outputPath := default [] (files w2 !! outputPath)]> (files w2))
            w2 in
        let outputStreamBase := length (default [] (files w3 !! outputPath)) in
        let '(good, w4) :=
          if Nat.eqb outputStreamBase 0
          then out_write outputPath ExperienceSignature true w3
          else (true, w3) in
        let readable :=
          match read_limit (faults w) inputPath with
          | Some n => take n input
          | None => input
          end in
        let s0 := {| out_path := outputPath; out_good := good; writeBuffer := [];
                     out_world := w4 |} in
        let '(s1, c) :=
          convert_lines (read_limits argv) (tokenize (text_of readable) "010"%char)
            s0 (λ _, 0%nat) in
        inr (write_data true s1, c)
  end.

(** [Experience::convert_compact_pgn] on its arguments: the files after
    the command.  The output is defragmented when a scored move was
    staged, in a game that was accepted or not. *)
Definition convert_compact_pgn (argv : list string) (w : World) : World :=
  if decide (length argv < 2)%nat then w
  else
    match convert_stream argv w with
    | inl w' => w'
    | inr (s, c) =>
        if Nat.eqb (c numMovesWithScores) 0 then out_world s
        else
          let outputPath := unquote (argv !!! 1%nat) in
          let '(ok, exp, w5) := load outputPath true new_ExperienceData (out_world s) in
          if ok then (save outputPath true exp w5).2 else w5
    end.

End ConvertCommand.

(** The number of nodes of an index, all chains together. *)
Definition node_count (m : gmap Z Chain) : nat :=
  length (flat_map (λ x : Key * Chain, x.2) (map_to_list m)).

(** ** Predicates of the properties *)

(** A chain is in order when no node is followed by a better one. *)
Definition chain_sorted `{Params} (chain : Chain) : Prop :=
  ∀ i a b, chain !! i = Some a → chain !! S i = Some b → 0 ≤ ExpEntry_compare a b.

(** What every index built by [link_entry] satisfies: a chain holds the
    records of its own fingerprint, at most one per move, and is not
    empty. *)
Definition index_ok (m : gmap Z Chain) : Prop :=
  ∀ k chain, m !! k = Some chain →
    chain ≠ [] ∧ Forall (λ e, key e = k) chain ∧ NoDup (move <$> chain).

(** All records of an index survive the codec. *)
Definition index_in_range (m : gmap Z Chain) : Prop :=
  ∀ k chain, m !! k = Some chain → Forall entry_in_range chain.

(** A populated store: its index was filled by the loader, and nothing
    is pending. *)
Definition populated (st : ExperienceData) : Prop :=
  _mainExp st ≠ ∅ ∧ index_ok (_mainExp st) ∧ index_in_range (_mainExp st)
  ∧ _newPvExp st = [] ∧ _newMultiPvExp st = [].

(** The bytes of a file, none for a file that is not there. *)
Definition content (p : string) (w : World) : list byte := default [] (files w !! p).

(** The calls of a stream opened for appending on [p]. *)
Definition is_save_call (p : string) (c : FsCall) : Prop :=
  c = CallOpenApp p ∨ ∃ bs, c = CallWrite p bs.

(** [w'] comes from [w] by appending to [p] and nothing else. *)
Definition appends (p : string) (w w' : World) : Prop :=
  faults w' = faults w
  ∧ (∀ q, q ≠ p → files w' !! q = files w !! q)
  ∧ (∃ extra, content p w' = content p w ++ extra)
  ∧ (is_Some (files w !! p) → is_Some (files w' !! p))
  ∧ (∃ l, calls w' = calls w ++ l ∧ Forall (is_save_call p) l).

(** What an output stream has taken so far: the file and the buffer. *)
Definition logical (s : OutStream) : list byte :=
  content (out_path s) (out_world s) ++ writeBuffer s.

(** No [write] call fails. *)
Definition writes_succeed (w : World) : Prop :=
  ∀ k, write_fails (faults w) k = false.

(** What identifies a node: its fingerprint and its move. *)
Definition node_id (e : ExpEntry) : Key * Move := (key e, move e).

(** The index after the links of a list of records, first to last. *)
Definition link_all `{Params} (l : list ExpEntry) (m : gmap Z Chain) : gmap Z Chain :=
  fold_left (λ m e, (link_entry e m).2) l m.

(** The order [show_exp] promises: no candidate ranks behind one that has
    no estimate unless it has none itself, and estimates do not grow down
    the list. *)
Definition ranks_before `{Params} (a b : ExpEntry * Value) : Prop :=
  (a.2 = VALUE_NONE → b.2 = VALUE_NONE)
  ∧ (a.2 ≠ VALUE_NONE → b.2 ≠ VALUE_NONE → b.2 ≤ a.2).

(** The failures of [_load] that come before its record loop. *)
Definition fails_before_records (r : LoadResult) : Prop :=
  match r with
  | CouldNotOpen | EmptyFile | Corrupted | SigAllocFailed | SigReadFailed
  | SigMismatch | DataAllocFailed => True
  | _ => False
  end.

(** What a file gives to a merge: the records [l] of a well-formed
    file, none when the file is not there. *)
Definition gives `{Params} (fs : gmap string (list byte)) (fn : string)
    (l : list ExpEntry) : Prop :=
  fs !! map_path fn = Some (ExperienceSignature ++ flat_map encode l)
  ∨ (fs !! map_path fn = None ∧ l = []).

(** The moves the ingestion has gone through, by its three move
    counters, and the games it has given a verdict, by the others. *)
Definition moves_seen (s : Counters) : nat :=
  (s numMovesWithScores + s numMovesWithScoresIgnored + s numMovesWithoutScores)%nat.

Definition games_judged (s : Counters) : nat :=
  (s numGamesWithErrors + s numGamesIgnored
   + s (wbd WHITE) + s (wbd BLACK) + s (wbd COLOR_NB))%nat.

(** What the filter of the ingestion lets into the buffer. *)
Definition within `{Params} (lim : Limits) (e : ExpEntry) : Prop :=
  (minDepth lim ≤ depth e ≤ maxDepth lim) ∧ Z.abs (value e) ≤ maxValue lim
  ∧ move e ≠ MOVE_NONE ∧ depth e ≠ DEPTH_NONE ∧ value e ≠ VALUE_NONE.

(** Two states of the move loop that differ in the staged records and
    in the two counters of scored moves at most. *)
Definition same_verdict_counts (s t : Counters) : Prop :=
  ∀ c, c ≠ numMovesWithScores → c ≠ numMovesWithScoresIgnored → s c = t c.

Definition same_game `{Engine} (a b : GameData) : Prop :=
  gamePly a = gamePly b ∧ detectedWinnerColor a = detectedWinnerColor b
  ∧ drawDetected a = drawDetected b ∧ resultWeight a = resultWeight b
  ∧ pos a = pos b ∧ same_verdict_counts (stats a) (stats b).

(** A record as the ingestion makes it: a position key, a parsed move
    and two parsed numbers. *)
Definition parsed `{Engine} (e : ExpEntry) : Prop :=
  ∃ p s1 s2 s3, e = mkExpEntry (pos_key p) (to_move p s1) (stoi s2) (stoi s3).

(** The types of the engine: [Key] is 64 bits wide, [Move] and what
    [stoi] returns are [int]. *)
Definition typed_engine `{Engine} : Prop :=
  (∀ p, 0 ≤ pos_key p < 2 ^ 64)
  ∧ (∀ p s, - 2 ^ 31 ≤ to_move p s < 2 ^ 31)
  ∧ (∀ s, - 2 ^ 31 ≤ stoi s < 2 ^ 31).

(** An operating system that refuses nothing. *)
Definition fault_free (f : Faults) : Prop :=
  (∀ p, remove_fails f p = false) ∧ (∀ p q, rename_fails f p q = false)
  ∧ (∀ p, open_fails f p = false) ∧ (∀ k, write_fails f k = false)
  ∧ (∀ p, read_limit f p = None) ∧ (∀ k, malloc_fails f k = false).

(** ** Concrete instances *)

Definition no_faults : Faults :=
  {| remove_fails := λ _, false; rename_fails := λ _ _, false;
     open_fails := λ _, false; write_fails := λ _, false;
     read_limit := λ _, None; malloc_fails := λ _, false |}.

Definition demo_params : Params :=
  {| MIN_EXP_DEPTH := 4; WriteBufferSize := 1024;
     VALUE_NONE := 32002; VALUE_MATE := 32000; VALUE_KNOWN_WIN := 10000;
     PawnValueEg := 208; DEPTH_NONE := -6; MAX_PLY := 246; MOVE_NONE := 0;
     map_path := λ fn, fn;
     ExpEntry_compare := compare_depth_then_value |}.

Section Demo.
#[local] Existing Instance demo_params.

Definition demo_iteration : Iteration := {| iteration_order := map_to_list |}.

Definition empty_world : World :=
  {| files := ∅; faults := no_faults; calls := []; nwrites := 0 |}.

(** Three records of one position, with moves 11, 12 and 13 searched to
    depths 10, 5 and 7. *)
Definition rec_deep : ExpEntry := mkExpEntry 1 11 0 10.
Definition rec_shallow : ExpEntry := mkExpEntry 1 12 0 5.
Definition rec_middle : ExpEntry := mkExpEntry 1 13 0 7.

Definition demo_index : gmap Z Chain :=
  (link_entry rec_middle (link_entry rec_shallow (link_entry rec_deep ∅).2).2).2.

(** A fresh store with one pending PV record. *)
Definition pending_store : ExperienceData :=
  add_pv_experience 1 11 0 10 new_ExperienceData.

(** A store whose index is [demo_index] and which has nothing pending. *)
Definition demo_store : ExperienceData := set_mainExp demo_index new_ExperienceData.

(** An experience file with the shallow record, as found on disk. *)
Definition old_file : list byte := ExperienceSignature ++ encode rec_shallow.

Definition world_with_file (f : Faults) : World :=
  {| files := {["SugaR.exp" := old_file]}; faults := f; calls := []; nwrites := 0 |}.

(** Every write is refused; every rename is refused; the second write
    alone is refused. *)
Definition writes_refused : Faults :=
  {| remove_fails := λ _, false; rename_fails := λ _ _, false;
     open_fails := λ _, false; write_fails := λ _, true;
     read_limit := λ _, None; malloc_fails := λ _, false |}.

Definition renames_refused : Faults :=
  {| remove_fails := λ _, false; rename_fails := λ _ _, true;
     open_fails := λ _, false; write_fails := λ _, false;
     read_limit := λ _, None; malloc_fails := λ _, false |}.

Definition opens_refused : Faults :=
  {| remove_fails := λ _, false; rename_fails := λ _ _, false;
     open_fails := λ _, true; write_fails := λ _, false;
     read_limit := λ _, None; malloc_fails := λ _, false |}.

Definition second_write_refused : Faults :=
  {| remove_fails := λ _, false; rename_fails := λ _ _, false;
     open_fails := λ _, false; write_fails := λ k, Nat.eqb k 1;
     read_limit := λ _, None; malloc_fails := λ _, false |}.

(** A file of two records on a stream that gives out after the first:
    the signature and 24 bytes can be read, the rest cannot. *)
Definition two_record_file : list byte :=
  ExperienceSignature ++ encode rec_deep ++ encode rec_shallow.

Definition stream_fails_after (n : nat) : Faults :=
  {| remove_fails := λ _, false; rename_fails := λ _ _, false;
     open_fails := λ _, false; write_fails := λ _, false;
     read_limit := λ _, Some n; malloc_fails := λ _, false |}.

Definition short_read_world : World :=
  {| files := {["SugaR.exp" := two_record_file]};
     faults := stream_fails_after (ExperienceSignatureLength + sizeof_ExpEntry);
     calls := []; nwrites := 0 |}.

(** A stand-in engine: a position is its own fingerprint, a move adds
    one to it, sides alternate, nothing is ever a draw, and a move token
    parses to its length. *)
Definition digit_of (c : ascii) : option Z :=
  let n := nat_of_ascii c in
  if (48 <=? n)%nat && (n <=? 57)%nat then Some (Z.of_nat (n - 48)) else None.

Fixpoint parse_digits (acc : Z) (s : string) : Z :=
  match s with
  | EmptyString => acc
  | String c s' =>
      match digit_of c with
      | Some d => parse_digits (acc * 10 + d) s'
      | None => acc
      end
  end.

Definition parse_int (s : string) : Z :=
  match s with
  | String "-"%char s' => - parse_digits 0 s'
  | _ => parse_digits 0 s
  end.

Definition demo_engine : Engine :=
  {| Position := Z;
     pos_set := λ _, 100;
     pos_key := λ p, p;
     side_to_move := λ p, if Z.even p then WHITE else BLACK;
     game_ply := λ p, p - 100;
     is_draw := λ _ _, false;
     do_move := λ p _, p + 1;
     count_all := λ _, 32;
     count_bishops := λ _, 4;
     count_knights := λ _, 4;
     count_bishops_of := λ _ _, 2;
     bishops_on_dark := λ _ _, true;
     bishops_on_light := λ _ _, true;
     to_move := λ _ s, Z.of_nat (String.length s);
     stoi := parse_int;
     atoi := parse_int |}.

(** The start of a game record: two scored moves. *)
Definition demo_tokens : list (list string) :=
  [["e2e4"; "120"; "10"]; ["e7e5"; "-30"; "9"]].

(** The candidates of position 7: depths 10, 2 and 6. *)
Definition ranking_index : gmap Z Chain :=
  link_all [mkExpEntry 7 21 50 10; mkExpEntry 7 22 80 2; mkExpEntry 7 23 90 6] ∅.

Definition position_seven : @Position demo_engine := 7.

(** A quiet game of sixteen moves, each scored 10 at depth 12, given as
    a draw. *)
Definition quiet_line : string :=
  String.concat "," ("startpos" :: "d" :: replicate 16 "e2e4:10:12").

(** The stand-in engine with the widths of the types: keys of 64 bits,
    moves and parsed numbers of 32. *)
Definition typed_demo_engine : Engine :=
  {| Position := Z;
     pos_set := λ _, 100;
     pos_key := λ p, p `mod` 2 ^ 64;
     side_to_move := λ p, if Z.even p then WHITE else BLACK;
     game_ply := λ p, p - 100;
     is_draw := λ _ _, false;
     do_move := λ p _, p + 1;
     count_all := λ _, 32;
     count_bishops := λ _, 4;
     count_knights := λ _, 4;
     count_bishops_of := λ _ _, 2;
     bishops_on_dark := λ _ _, true;
     bishops_on_light := λ _ _, true;
     to_move := λ _ s, Z.of_nat (String.length s) `mod` 2 ^ 31;
     stoi := λ s, to_int32 (parse_int s `mod` 2 ^ 32);
     atoi := λ s, to_int32 (parse_int s `mod` 2 ^ 32) |}.

(** An input file of one line, the quiet game in braces, and the files
    of a conversion that has not yet run. *)
Definition pgn_file : list byte :=
  (λ c, Z.of_nat (nat_of_ascii c))
    <$> list_ascii_of_string ("{" +:+ quiet_line +:+ "}").

Definition pgn_world : World :=
  {| files := {["games.pgn" := pgn_file]}; faults := no_faults; calls := [];
     nwrites := 0 |}.

(** Arguments that carry no quotes. *)
Definition demo_utility : Utility := {| unquote := λ s, s |}.

(** The store of the engine after a load of the one-record file and one
    move learned since, and the options with and without the read-only
    switch. *)
Definition current_store : ExperienceData :=
  add_pv_experience 1 11 0 10
    (load "SugaR.exp" false new_ExperienceData (world_with_file no_faults)).1.2.

Definition demo_globals : Globals :=
  {| currentExperience := Some current_store; experienceEnabled := true;
     learningPaused := false |}.

(** The store and the variables right after the load. *)
Definition loaded_store : ExperienceData :=
  (load "SugaR.exp" false new_ExperienceData (world_with_file no_faults)).1.2.

Definition loaded_globals : Globals :=
  {| currentExperience := Some loaded_store; experienceEnabled := true;
     learningPaused := false |}.

Definition read_write : UciOptions := mkUciOptions true "SugaR.exp" false.
Definition read_only : UciOptions := mkUciOptions true "SugaR.exp" true.
Definition switched_off : UciOptions := mkUciOptions false "SugaR.exp" false.

End Demo.

(** * Properties *)

(** ** The chain index *)

Section LinkEntry.
Context `{Params}.

Lemma ExpEntry_merge_move e exp : move (ExpEntry_merge e exp) = move e.
Proof. unfold ExpEntry_merge. by destruct (depth e <? depth exp). Qed.

Lemma ExpEntry_merge_key e exp : key (ExpEntry_merge e exp) = key e.
Proof. unfold ExpEntry_merge. by destruct (depth e <? depth exp). Qed.

Lemma ExpEntry_merge_idemp e exp :
  ExpEntry_merge (ExpEntry_merge e exp) exp = ExpEntry_merge e exp.
Proof.
  unfold ExpEntry_merge.
  destruct (depth e <? depth exp) eqn:E; simpl.
  - by rewrite Z.ltb_irrefl.
  - by rewrite E.
Qed.

Lemma ExpEntry_merge_self e : ExpEntry_merge e e = e.
Proof. unfold ExpEntry_merge. by rewrite Z.ltb_irrefl. Qed.

Lemma ExpEntry_merge_in_range e exp :
  entry_in_range e → entry_in_range exp → entry_in_range (ExpEntry_merge e exp).
Proof.
  unfold ExpEntry_merge, entry_in_range.
  destruct (depth e <? depth exp); simpl; tauto.
Qed.

(** [find] reads the moves of the chain only. *)
Lemma find_moves m (c1 c2 : Chain) :
  move <$> c1 = move <$> c2 → ExpEntryEx_find m c1 = ExpEntryEx_find m c2.
Proof.
  revert c2. induction c1 as [|e c1 IH]; intros [|e2 c2] Hm; try done.
  injection Hm as Hhd Htl. simpl. rewrite Hhd.
  case_decide; [done|]. by rewrite (IH c2).
Qed.

Lemma find_Some m (chain : Chain) i :
  ExpEntryEx_find m chain = Some i → ∃ e, chain !! i = Some e ∧ move e = m.
Proof.
  revert i. induction chain as [|e c IH]; intros i Hf; simpl in *; [done|].
  case_decide.
  - simplify_eq. by exists e.
  - destruct (ExpEntryEx_find m c) as [j|] eqn:E; simplify_eq/=.
    by apply IH.
Qed.

Lemma find_None m (chain : Chain) :
  ExpEntryEx_find m chain = None ↔ m ∉ move <$> chain.
Proof.
  induction chain as [|e c IH]; simpl.
  - split; [intros _; apply not_elem_of_nil | done].
  - rewrite not_elem_of_cons. case_decide.
    + split; [done | intros [? _]; congruence].
    + destruct (ExpEntryEx_find m c) eqn:E; simpl.
      * split; [done | intros [_ Hn]; by apply IH in Hn].
      * split; [intros _ | done]. split; [congruence | by apply IH].
Qed.

(** The first node with a move is the only one when moves do not repeat. *)
Lemma find_here m (chain : Chain) i e :
  NoDup (move <$> chain) → chain !! i = Some e → move e = m →
  ExpEntryEx_find m chain = Some i.
Proof.
  revert i. induction chain as [|x c IH]; intros i Hnd Hi Hm; [done|].
  simpl in *. apply NoDup_cons in Hnd as [Hx Hnd].
  destruct i as [|i]; simplify_eq/=.
  - by rewrite decide_True.
  - rewrite decide_False.
    + by rewrite (IH i).
    + intros Heq. apply Hx. rewrite Heq.
      apply list_elem_of_fmap. exists e. split; [done|].
      by eapply list_elem_of_lookup_2.
Qed.

Lemma alter_merge_moves exp i (chain : Chain) :
  move <$> alter (λ e, ExpEntry_merge e exp) i chain = move <$> chain.
Proof.
  revert i. induction chain as [|x c IH]; intros [|i]; simpl; try done.
  - by rewrite ExpEntry_merge_move.
  - f_equal. apply IH.
Qed.

Lemma insert_sorted_perm e b (chain : Chain) :
  insert_sorted e b chain ≡ₚ e :: chain.
Proof.
  revert b. induction chain as [|x c IH]; intros b; simpl; [done|].
  destruct (0 <? ExpEntry_compare e x).
  - destruct b; [done | apply perm_swap].
  - destruct c as [|y c'].
    + apply perm_swap.
    + rewrite (IH false). apply perm_swap.
Qed.

Lemma insert_sorted_length e b (chain : Chain) :
  length (insert_sorted e b chain) = S (length chain).
Proof. by rewrite insert_sorted_perm. Qed.

Lemma insert_sorted_has e b (chain : Chain) :
  ∃ i, insert_sorted e b chain !! i = Some e.
Proof.
  apply list_elem_of_lookup_1. rewrite insert_sorted_perm. left.
Qed.

Lemma alter_fixed {A} (f : A → A) i (l : list A) x :
  l !! i = Some x → f x = x → alter f i l = l.
Proof.
  revert i. induction l as [|y l IH]; intros [|i] Hi Hf; simplify_eq/=; [by rewrite Hf|].
  f_equal. by apply IH.
Qed.

Lemma alter_as_insert {A} (f : A → A) i (l : list A) x :
  l !! i = Some x → alter f i l = <[i := f x]> l.
Proof.
  revert i. induction l as [|y l IH]; intros [|i] Hi; simplify_eq/=; [done|].
  f_equal. by apply IH.
Qed.

(** After an insertion the record is the node that [find] meets. *)
Lemma find_inserted e b (chain : Chain) :
  ExpEntryEx_find (move e) chain = None →
  ∃ i, ExpEntryEx_find (move e) (insert_sorted e b chain) = Some i
       ∧ insert_sorted e b chain !! i = Some e.
Proof.
  intros Hn. apply find_None in Hn.
  destruct (ExpEntryEx_find (move e) (insert_sorted e b chain)) as [i|] eqn:E.
  - exists i. split; [done|].
    destruct (find_Some _ _ _ E) as (x & Hx & Hm). rewrite Hx. f_equal.
    apply list_elem_of_lookup_2 in Hx. rewrite insert_sorted_perm in Hx.
    apply elem_of_cons in Hx as [->|Hx]; [done|].
    exfalso. apply Hn. rewrite <- Hm. by apply list_elem_of_fmap_2.
  - apply find_None in E. exfalso. apply E.
    rewrite insert_sorted_perm. simpl. left.
Qed.

(** A second link of the same record finds the node of the first and
    leaves the index as it is. *)
Lemma link_entry_twice (m : gmap Z Chain) (expEx : ExpEntry) :
  link_entry expEx (link_entry expEx m).2 = (false, (link_entry expEx m).2).
Proof.
  unfold link_entry at 2 3.
  destruct (m !! key expEx) as [chain|] eqn:Hk.
  - destruct (ExpEntryEx_find (move expEx) chain) as [i|] eqn:Hf; simpl.
    + unfold link_entry. rewrite lookup_insert_eq.
      rewrite (find_moves _ _ chain) by apply alter_merge_moves.
      rewrite Hf, insert_insert_eq. do 2 f_equal.
      rewrite list_alter_alter_eq. apply list_alter_ext; [|done].
      intros x _. simpl. apply ExpEntry_merge_idemp.
    + unfold link_entry. rewrite lookup_insert_eq.
      destruct (find_inserted expEx true chain Hf) as (i & -> & Hi).
      rewrite insert_insert_eq. do 2 f_equal.
      eapply alter_fixed; [done|]. apply ExpEntry_merge_self.
  - simpl. unfold link_entry. rewrite lookup_insert_eq. simpl.
    rewrite decide_True by done. simpl.
    by rewrite ExpEntry_merge_self, insert_insert_eq.
Qed.

(** What a link does when the move is already in the chain. *)
Lemma link_entry_duplicate (m : gmap Z Chain) (expEx : ExpEntry) chain i :
  m !! key expEx = Some chain →
  ExpEntryEx_find (move expEx) chain = Some i →
  ∃ expEx2, chain !! i = Some expEx2 ∧ move expEx2 = move expEx
    ∧ link_entry expEx m
      = (false, <[key expEx := <[i := ExpEntry_merge expEx2 expEx]> chain]> m).
Proof.
  intros Hk Hf. destruct (find_Some _ _ _ Hf) as (x & Hx & Hm).
  exists x. split_and!; [done..|].
  unfold link_entry. rewrite Hk, Hf. do 2 f_equal.
  by apply (alter_as_insert (λ e, ExpEntry_merge e expEx)).
Qed.


(** The better record goes behind the node it beats whenever that node
    is not the head, whatever the records are. *)
Lemma insert_sorted_behind e x y (rest : Chain) :
  ExpEntry_compare e x ≤ 0 → 0 < ExpEntry_compare e y →
  insert_sorted e true (x :: y :: rest) = x :: y :: e :: rest.
Proof.
  intros Hx Hy. simpl.
  rewrite (proj2 (Z.ltb_ge _ _)) by done.
  by rewrite (proj2 (Z.ltb_lt _ _)) by done.
Qed.

(** [link_entry] keeps the chains of an index well formed. *)
Lemma link_entry_index_ok (m : gmap Z Chain) (expEx : ExpEntry) :
  index_ok m → index_ok (link_entry expEx m).2.
Proof.
  intros Hok k chain. unfold link_entry.
  destruct (m !! key expEx) as [c|] eqn:Hk.
  - destruct (Hok _ _ Hk) as (Hne & Hkeys & Hnd).
    destruct (ExpEntryEx_find (move expEx) c) as [i|] eqn:Hf; simpl.
    + rewrite lookup_insert. case_decide; [|by apply Hok].
      intros ?; simplify_eq. split_and!.
      * intros Hnil. apply (f_equal length) in Hnil.
        rewrite length_alter in Hnil. by destruct c.
      * apply Forall_alter; [done|]. intros x _ Hx.
        by rewrite ExpEntry_merge_key.
      * by rewrite alter_merge_moves.
    + rewrite lookup_insert. case_decide; [|by apply Hok].
      intros ?; simplify_eq. split_and!.
      * intros Hnil. apply (f_equal length) in Hnil.
        by rewrite insert_sorted_length in Hnil.
      * rewrite insert_sorted_perm. by constructor.
      * rewrite insert_sorted_perm. simpl. apply NoDup_cons.
        split; [by apply find_None | done].
  - simpl. rewrite lookup_insert. case_decide; [|by apply Hok].
    intros ?; simplify_eq. split_and!; [done | by repeat constructor |].
    simpl. apply NoDup_singleton.
Qed.

Lemma link_entry_in_range (m : gmap Z Chain) (expEx : ExpEntry) :
  entry_in_range expEx → index_in_range m → index_in_range (link_entry expEx m).2.
Proof.
  intros He Hok k chain. unfold link_entry.
  destruct (m !! key expEx) as [c|] eqn:Hk.
  - destruct (ExpEntryEx_find (move expEx) c) as [i|] eqn:Hf; simpl.
    + rewrite lookup_insert. case_decide; [|by apply Hok].
      intros ?; simplify_eq.
      apply Forall_alter; [by eapply Hok|]. intros x _ Hx.
      by apply ExpEntry_merge_in_range.
    + rewrite lookup_insert. case_decide; [|by apply Hok].
      intros ?; simplify_eq.
      rewrite insert_sorted_perm. constructor; [done | by eapply Hok].
  - simpl. rewrite lookup_insert. case_decide; [|by apply Hok].
    intros ?; simplify_eq. constructor; [done | constructor].
Qed.

End LinkEntry.

Section LinkEntryExamples.
#[local] Existing Instance demo_params.


(** C5 (chain ordering), at the input where it breaks: after the links
    of a depth-10, a depth-5 and a depth-7 record of one position, the
    depth-7 node stands behind the depth-5 node. *)
Theorem link_entry_chain_out_of_order :
  probe 1 demo_index = [rec_deep; rec_shallow; rec_middle]
  ∧ ExpEntry_compare rec_shallow rec_middle < 0
  ∧ ¬ chain_sorted (probe 1 demo_index).
Proof.
  split_and!; [reflexivity | reflexivity |].
  intros Hs. specialize (Hs 1%nat rec_shallow rec_middle eq_refl eq_refl).
  vm_compute in Hs. by apply Hs.
Qed.

End LinkEntryExamples.

(** ** Saving *)

Section SaveProps.
Context `{Params} `{Iteration}.

Lemma appends_refl p w : appends p w w.
Proof.
  split_and!; try done.
  - exists []. by rewrite app_nil_r.
  - exists []. by rewrite app_nil_r.
Qed.

Lemma appends_trans p w1 w2 w3 : appends p w1 w2 → appends p w2 w3 → appends p w1 w3.
Proof.
  intros (Hf1 & Ho1 & [x1 Hc1] & Hs1 & l1 & Hl1 & HF1)
         (Hf2 & Ho2 & [x2 Hc2] & Hs2 & l2 & Hl2 & HF2).
  split_and!.
  - congruence.
  - intros q Hq. rewrite Ho2, Ho1; done.
  - exists (x1 ++ x2). by rewrite Hc2, Hc1, app_assoc.
  - auto.
  - exists (l1 ++ l2). split; [by rewrite Hl2, Hl1, app_assoc|].
    by apply Forall_app.
Qed.

Lemma out_write_appends p bs good w : appends p w (out_write p bs good w).2.
Proof.
  unfold out_write. destruct bs as [|b bs]; simpl.
  - split_and!; try done.
    + exists []. by rewrite app_nil_r.
    + exists [CallWrite p []]. split; [done|]. apply Forall_singleton. right. by eexists.
  - destruct (good && negb (write_fails (faults w) (nwrites w)));
      unfold appends, content; simpl.
    + split_and!; try done.
      * intros q Hq. by rewrite lookup_insert_ne.
      * exists (b :: bs). by rewrite lookup_insert_eq.
      * intros _. rewrite lookup_insert_eq. by eexists.
      * eexists. split; [done|]. apply Forall_singleton. right. by eexists.
    + split_and!; try done.
      * exists []. by rewrite app_nil_r.
      * eexists. split; [done|]. apply Forall_singleton. right. by eexists.
Qed.

Lemma write_entry_appends exp force s :
  out_path (write_entry exp force s).2 = out_path s
  ∧ appends (out_path s) (out_world s) (out_world (write_entry exp force s).2).
Proof.
  unfold write_entry.
  destruct (force || bool_decide _).
  - match goal with |- context [out_write ?p ?b ?g ?w] =>
      pose proof (out_write_appends p b g w) as Ha;
      destruct (out_write p b g w) as [good w'] end.
    simpl in *. done.
  - simpl. split; [done | apply appends_refl].
Qed.

Lemma write_entries_appends l s :
  out_path (write_entries l s).2 = out_path s
  ∧ appends (out_path s) (out_world s) (out_world (write_entries l s).2).
Proof.
  revert s. induction l as [|e l IH]; intros s; simpl.
  - split; [done | apply appends_refl].
  - pose proof (write_entry_appends (Some e) false s) as [Hp Ha].
    destruct (write_entry (Some e) false s) as [ok s'] eqn:E. simpl in *.
    destruct ok; simpl; [|done].
    destruct (IH s') as [Hp' Ha']. rewrite Hp in *.
    split; [congruence | by eapply appends_trans].
Qed.

Lemma log_open_appends p w : appends p w (log (CallOpenApp p) w).
Proof.
  split_and!; try done.
  - exists []. by rewrite app_nil_r.
  - exists [CallOpenApp p]. split; [done|]. apply Forall_singleton. by left.
Qed.

(** From the opening of the stream on, [_save] only appends. *)
Lemma _save_entries_world fn saveAll st w :
  ∃ w', appends (map_path fn) (log (CallOpenApp (map_path fn)) w) w'
    ∧ match _save_entries fn saveAll st w with
      | inl w0 => w0 = w'
      | inr s3 => out_world s3 = w' ∧ out_path s3 = map_path fn
      end.
Proof.
  unfold _save_entries.
  set (p := map_path fn). set (w1 := log (CallOpenApp p) w).
  destruct (open_fails (faults w) p).
  { exists w1. split; [apply appends_refl | done]. }
  set (w2 := set_files _ w1).
  assert (appends p w1 w2) as H12.
  { unfold w2, appends, content, set_files. simpl. split_and!; try done.
    - intros q Hq. by rewrite lookup_insert_ne.
    - exists []. by rewrite lookup_insert_eq, app_nil_r.
    - intros _. rewrite lookup_insert_eq. by eexists.
    - exists []. by rewrite app_nil_r. }
  match goal with |- context [if Nat.eqb ?n 0 then ?a else ?b] =>
    destruct (if Nat.eqb n 0 then a else b) as [good w3] eqn:E;
    assert (appends p w2 w3) as H23
  end.
  { match type of E with (if ?c then _ else _) = _ => destruct c end.
    - pose proof (out_write_appends p ExperienceSignature true w2) as Ha.
      by rewrite E in Ha.
    - simplify_eq. apply appends_refl. }
  assert (appends p w1 w3) as H13 by (by eapply appends_trans).
  destruct good; simpl; [|by exists w3].
  match goal with |- context [write_entries ?l ?s] =>
    pose proof (write_entries_appends l s) as [Hp1 Ha1];
    destruct (write_entries l s) as [ok1 s1] end.
  simpl in *.
  assert (appends p w1 (out_world s1)) as H1 by (by eapply appends_trans).
  destruct ok1; simpl; [|by eexists].
  match goal with |- context [write_entries ?l ?s] =>
    pose proof (write_entries_appends l s) as [Hp2 Ha2];
    destruct (write_entries l s) as [ok2 s2] end.
  simpl in *. rewrite Hp1 in *.
  assert (appends p w1 (out_world s2)) as H2 by (by eapply appends_trans).
  destruct ok2; simpl; [|by eexists].
  match goal with |- context [write_entries ?l ?s] =>
    pose proof (write_entries_appends l s) as [Hp3 Ha3];
    destruct (write_entries l s) as [ok3 s3] end.
  simpl in *. rewrite Hp2 in *.
  assert (appends p w1 (out_world s3)) as H3 by (by eapply appends_trans).
  destruct ok3; simpl; [|by eexists].
  exists (out_world s3). split_and!; [done | done | congruence].
Qed.

Lemma _save_world fn saveAll st w :
  appends (map_path fn) (log (CallOpenApp (map_path fn)) w) (_save fn saveAll st w).2.
Proof.
  unfold _save.
  destruct (_save_entries_world fn saveAll st w) as (w' & Ha & Hr).
  destruct (_save_entries fn saveAll st w) as [w0|s3]; simpl.
  - by subst.
  - destruct Hr as [<- Hp].
    pose proof (write_entry_appends None true s3) as [_ Hf].
    destruct (write_entry None true s3) as [ok s4]. simpl in *.
    rewrite Hp in Hf. by eapply appends_trans.
Qed.

(** [_save] never shortens the file it writes to, leaves every other
    file alone, and begins by opening its stream. *)
Lemma _save_appends fn saveAll st w :
  appends (map_path fn) w (_save fn saveAll st w).2
  ∧ ∃ l, calls (_save fn saveAll st w).2 = calls w ++ CallOpenApp (map_path fn) :: l
         ∧ Forall (is_save_call (map_path fn)) l.
Proof.
  pose proof (_save_world fn saveAll st w) as Ha.
  split.
  - eapply appends_trans; [apply log_open_appends | done].
  - destruct Ha as (_ & _ & _ & _ & l & Hl & HF).
    exists l. split; [|done]. rewrite Hl. simpl. by rewrite <- app_assoc.
Qed.

(** The store after [_save]: the pending buffers are dropped on
    success and nothing changes on failure. *)
Lemma _save_store fn saveAll st w :
  (_save fn saveAll st w).1.2
  = if (_save fn saveAll st w).1.1 then clear_new_exp st else st.
Proof.
  unfold _save. destruct (_save_entries fn saveAll st w); [done|].
  by destruct (write_entry None true _).
Qed.

Lemma c_rename_calls p q w : calls (c_rename p q w).2 = calls w ++ [CallRename p q].
Proof.
  unfold c_rename. destruct (rename_fails _ _ _); [done|].
  by destruct (files w !! p).
Qed.

Lemma c_remove_calls p w : calls (c_remove p w).2 = calls w ++ [CallRemove p].
Proof.
  unfold c_remove. destruct (remove_fails _ _); [done|].
  by destruct (files w !! p).
Qed.

Lemma create_backup_calls p saveAll w :
  ∃ l, calls (create_backup p saveAll w).2 = calls w ++ l.
Proof.
  unfold create_backup.
  destruct (saveAll && file_exists p w); [|exists []; by rewrite app_nil_r].
  destruct (file_exists (p +:+ ".bak") w).
  - pose proof (c_remove_calls (p +:+ ".bak") w) as Hr.
    destruct (c_remove (p +:+ ".bak") w) as [ok w']. simpl in Hr.
    destruct ok; simpl.
    + destruct (negb _); [|by eexists].
      pose proof (c_rename_calls p (p +:+ ".bak") w') as Hn.
      destruct (c_rename p (p +:+ ".bak") w') as [ok' w'']. simpl in *.
      eexists. rewrite Hn, Hr, <- app_assoc. reflexivity.
    + by eexists.
  - destruct (negb _); [|exists []; by rewrite app_nil_r].
    pose proof (c_rename_calls p (p +:+ ".bak") w) as Hn.
    destruct (c_rename p (p +:+ ".bak") w) as [ok' w'']. simpl in *.
    by eexists.
Qed.

Lemma nothing_to_save_spec saveAll st :
  nothing_to_save saveAll st = true
  ↔ (_newPvExp st = [] ∧ _newMultiPvExp st = [])
    ∧ (saveAll = false ∨ size (_mainExp st) = 0%nat).
Proof.
  unfold nothing_to_save, has_new_exp.
  rewrite andb_true_iff, negb_true_iff, orb_false_iff, !negb_false_iff.
  rewrite orb_true_iff, negb_true_iff, bool_decide_eq_true, !Nat.eqb_eq.
  by rewrite !length_zero_iff_nil.
Qed.

(** A save that does not return early opens its output. *)
Lemma save_calls fn saveAll st w :
  nothing_to_save saveAll st = false →
  ∃ l1 l2, calls (save fn saveAll st w).2
           = calls w ++ l1 ++ CallOpenApp (map_path fn) :: l2.
Proof.
  intros Hn. unfold save. rewrite Hn.
  destruct (create_backup_calls (map_path fn) saveAll w) as [l1 Hl1].
  destruct (create_backup (map_path fn) saveAll w) as [bak w1]. simpl in Hl1.
  destruct (_save_appends fn saveAll st w1) as (_ & l2 & Hl2 & _).
  destruct (_save fn saveAll st w1) as [[ok st2] w2]. simpl in Hl2.
  destruct ok; simpl.
  - exists l1, l2. by rewrite Hl2, Hl1, <- app_assoc.
  - destruct (negb _); simpl.
    + pose proof (c_rename_calls bak (map_path fn) w2) as Hr.
      destruct (c_rename bak (map_path fn) w2) as [ok' w3]. simpl in *.
      exists l1, (l2 ++ [CallRename bak (map_path fn)]).
      rewrite Hr, Hl2, Hl1, <- !app_assoc. done.
    + exists l1, l2. by rewrite Hl2, Hl1, <- app_assoc.
Qed.


(** *** Writing without failures *)

Lemma out_write_ok p bs w :
  writes_succeed w →
  (out_write p bs true w).1 = true
  ∧ content p (out_write p bs true w).2 = content p w ++ bs.
Proof.
  intros Hw. unfold out_write, content. destruct bs as [|b bs]; simpl.
  - by rewrite app_nil_r.
  - rewrite Hw. simpl. by rewrite lookup_insert_eq.
Qed.

Lemma write_entry_ok exp force s :
  writes_succeed (out_world s) → out_good s = true →
  let r := write_entry exp force s in
  r.1 = true ∧ out_good r.2 = true
  ∧ logical r.2 = logical s ++ from_option encode [] exp
  ∧ (force = true → writeBuffer r.2 = []).
Proof.
  intros Hw Hg. unfold write_entry, logical.
  destruct (force || bool_decide _) eqn:Hc.
  - rewrite Hg.
    match goal with |- context [out_write ?p ?b true ?w] =>
      destruct (out_write_ok p b w Hw) as [Hok Hcont];
      destruct (out_write p b true w) as [good w'] end.
    simpl in *. subst good. rewrite Hcont.
    split_and!; [done | done | | done].
    rewrite app_nil_r. destruct exp; simpl; by rewrite ?app_nil_r, ?app_assoc.
  - simpl. split_and!; [done | done | |].
    + destruct exp; simpl; by rewrite ?app_nil_r, ?app_assoc.
    + intros ->. done.
Qed.

Lemma write_entries_ok l s :
  writes_succeed (out_world s) → out_good s = true →
  let r := write_entries l s in
  r.1 = true ∧ out_good r.2 = true
  ∧ logical r.2 = logical s ++ flat_map encode l.
Proof.
  revert s. induction l as [|e l IH]; intros s Hw Hg; simpl.
  - by rewrite app_nil_r.
  - destruct (write_entry_ok (Some e) false s Hw Hg) as (Hok & Hg' & Hl & _).
    destruct (write_entry_appends (Some e) false s) as [_ (Hf & _)].
    destruct (write_entry (Some e) false s) as [ok s']. simpl in *. subst ok.
    assert (writes_succeed (out_world s')) as Hw'.
    { intros k. rewrite Hf. apply Hw. }
    destruct (IH s' Hw' Hg') as (Hok' & Hg'' & Hl').
    split_and!; [done | done |].
    by rewrite Hl', Hl, <- app_assoc.
Qed.

Lemma write_entries_faults l s :
  faults (out_world (write_entries l s).2) = faults (out_world s).
Proof. by destruct (write_entries_appends l s) as [_ (Hf & _)]. Qed.

(** When the stream opens and no write fails, [_save] reaches its final
    flush with every record taken. *)
Lemma _save_entries_ok fn saveAll st w :
  open_fails (faults w) (map_path fn) = false → writes_succeed w →
  ∃ s3, _save_entries fn saveAll st w = inr s3
    ∧ out_good s3 = true ∧ writes_succeed (out_world s3)
    ∧ logical s3
      = content (map_path fn) w
          ++ (if Nat.eqb (length (content (map_path fn) w)) 0
              then ExperienceSignature else [])
          ++ flat_map encode (saved_records saveAll st).
Proof.
  intros Ho Hw. unfold _save_entries. rewrite Ho.
  set (p := map_path fn). set (w1 := log (CallOpenApp p) w).
  set (w2 := set_files _ w1).
  assert (content p w2 = content p w) as Hc2.
  { unfold content, w2, set_files. simpl. by rewrite lookup_insert_eq. }
  assert (writes_succeed w2) as Hw2 by done.
  fold (content p w2). rewrite Hc2.
  match goal with |- context [if Nat.eqb ?n 0 then ?a else ?b] =>
    destruct (if Nat.eqb n 0 then a else b) as [good w3] eqn:E end.
  assert (good = true ∧ writes_succeed w3
          ∧ content p w3
            = content p w ++ (if Nat.eqb (length (content p w)) 0
                              then ExperienceSignature else []))
    as (-> & Hw3 & Hc3).
  { destruct (Nat.eqb (length (content p w)) 0).
    - destruct (out_write_ok p ExperienceSignature w2 Hw2) as [Hok Hc].
      pose proof (out_write_appends p ExperienceSignature true w2) as (Hf & _).
      rewrite E in *. simpl in *. split_and!; [done | | by rewrite Hc, Hc2].
      intros k. rewrite Hf. apply Hw2.
    - simplify_eq. split_and!; [done | done | by rewrite Hc2, app_nil_r]. }
  simpl.
  set (s0 := {| out_path := p; out_good := true; writeBuffer := []; out_world := w3 |}).
  assert (logical s0 = content p w3) as Hl0 by (unfold logical; simpl; by rewrite app_nil_r).
  match goal with |- context [write_entries ?l s0] =>
    destruct (write_entries_ok l s0 Hw3 eq_refl) as (Hok1 & Hg1 & Hl1);
    pose proof (write_entries_faults l s0) as Hf1;
    destruct (write_entries l s0) as [ok1 s1] end.
  simpl in *. subst ok1. simpl.
  assert (writes_succeed (out_world s1)) as Hw1' by (intros k; rewrite Hf1; apply Hw3).
  match goal with |- context [write_entries ?l s1] =>
    destruct (write_entries_ok l s1 Hw1' Hg1) as (Hok2 & Hg2 & Hl2);
    pose proof (write_entries_faults l s1) as Hf2;
    destruct (write_entries l s1) as [ok2 s2] end.
  simpl in *. subst ok2. simpl.
  assert (writes_succeed (out_world s2)) as Hw2' by (intros k; rewrite Hf2; apply Hw1').
  match goal with |- context [write_entries ?l s2] =>
    destruct (write_entries_ok l s2 Hw2' Hg2) as (Hok3 & Hg3 & Hl3);
    pose proof (write_entries_faults l s2) as Hf3;
    destruct (write_entries l s2) as [ok3 s3] end.
  simpl in *. subst ok3. simpl.
  exists s3. split_and!; [done | done | by intros k; rewrite Hf3; apply Hw2' |].
  rewrite Hl3, Hl2, Hl1, Hl0, Hc3. unfold saved_records.
  by rewrite !flat_map_app, <- !app_assoc.
Qed.

(** The file after a save on which nothing fails: what was there, the
    signature when nothing was, and the records. *)
Lemma _save_ok fn saveAll st w :
  open_fails (faults w) (map_path fn) = false → writes_succeed w →
  (_save fn saveAll st w).1 = (true, clear_new_exp st)
  ∧ content (map_path fn) (_save fn saveAll st w).2
    = content (map_path fn) w
        ++ (if Nat.eqb (length (content (map_path fn) w)) 0
            then ExperienceSignature else [])
        ++ flat_map encode (saved_records saveAll st).
Proof.
  intros Ho Hw. unfold _save.
  destruct (_save_entries_ok fn saveAll st w Ho Hw) as (s3 & He & Hg & Hw3 & Hl).
  destruct (_save_entries_world fn saveAll st w) as (w' & _ & Hr).
  rewrite He in *. destruct Hr as [_ Hp3].
  destruct (write_entry_ok None true s3 Hw3 Hg) as (_ & _ & Hl4 & Hb).
  destruct (write_entry_appends None true s3) as [Hp _].
  destruct (write_entry None true s3) as [ok s4]. simpl in *.
  split; [done|]. unfold logical in Hl4. rewrite Hb, !app_nil_r in Hl4 by done.
  rewrite Hp, Hp3 in Hl4. rewrite Hl4, <- Hl. unfold logical. by rewrite Hp3.
Qed.

(** *** The backup *)

Lemma bak_nonempty p : String.eqb (p +:+ ".bak") "" = false.
Proof. by destruct p. Qed.

Lemma bak_neq p : p ≠ p +:+ ".bak".
Proof. induction p as [|a p IH]; simpl; [done|]. intros Heq. injection Heq as Heq. by apply IH. Qed.

Lemma file_exists_true p w bs : files w !! p = Some bs → file_exists p w = true.
Proof. intros Hp. unfold file_exists. apply bool_decide_eq_true. by eexists. Qed.

(** Step 1 of [save] when neither [remove] nor [rename] is refused. *)
Lemma create_backup_made p w original :
  files w !! p = Some original →
  remove_fails (faults w) (p +:+ ".bak") = false →
  rename_fails (faults w) p (p +:+ ".bak") = false →
  let r := create_backup p true w in
  r.1 = p +:+ ".bak" ∧ faults r.2 = faults w
  ∧ files r.2 !! p = None ∧ files r.2 !! (p +:+ ".bak") = Some original.
Proof.
  intros Hp Hrm Hrn. unfold create_backup.
  rewrite (file_exists_true _ _ _ Hp). simpl.
  pose proof (bak_neq p) as Hne.
  destruct (file_exists (p +:+ ".bak") w) eqn:Hb.
  - apply bool_decide_eq_true in Hb as [old Hold].
    unfold c_remove. rewrite Hrm, Hold. rewrite bak_nonempty. simpl.
    unfold c_rename. simpl. rewrite Hrn.
    rewrite lookup_delete_ne, Hp by done. simpl.
    split_and!; [done | done | |].
    + rewrite lookup_insert_ne by done. by rewrite lookup_delete_eq.
    + by rewrite lookup_insert_eq.
  - rewrite bak_nonempty. simpl.
    unfold c_rename. rewrite Hrn, Hp. simpl.
    split_and!; [done | done | |].
    + rewrite lookup_insert_ne by done. by rewrite lookup_delete_eq.
    + by rewrite lookup_insert_eq.
Qed.

(** Step 1 of [save] when the old backup cannot be removed or the target
    cannot be renamed: no backup, and the target is where it was. *)
Lemma create_backup_failed p w original :
  files w !! p = Some original →
  (is_Some (files w !! (p +:+ ".bak")) ∧ remove_fails (faults w) (p +:+ ".bak") = true)
  ∨ rename_fails (faults w) p (p +:+ ".bak") = true →
  let r := create_backup p true w in
  r.1 = "" ∧ faults r.2 = faults w ∧ files r.2 !! p = Some original.
Proof.
  intros Hp Hfail. unfold create_backup.
  rewrite (file_exists_true _ _ _ Hp). simpl.
  pose proof (bak_neq p) as Hne.
  destruct (file_exists (p +:+ ".bak") w) eqn:Hb.
  - apply bool_decide_eq_true in Hb as [old Hold].
    unfold c_remove. destruct (remove_fails (faults w) (p +:+ ".bak")) eqn:Hrm.
    + done.
    + destruct Hfail as [[_ ?]|Hrn]; [done|].
      rewrite Hold, bak_nonempty. simpl. unfold c_rename. simpl. rewrite Hrn. simpl.
      split_and!; [done | done |]. by rewrite lookup_delete_ne.
  - destruct Hfail as [[Hs _]|Hrn].
    + apply bool_decide_eq_false in Hb. done.
    + rewrite bak_nonempty. simpl. unfold c_rename. by rewrite Hrn.
Qed.


(** C10 (a full save without its backup): [_save] opens for appending
    and never shortens its file; when the target exists and its backup
    cannot be made, the target keeps its old bytes in front of whatever
    is written, the calls after those of the backup attempt are the
    opening and the writes of [_save] alone (no rename back), and when
    nothing else fails the whole index and the pending records follow
    the old bytes. *)
Theorem full_save_appends_without_backup fn st w original :
  files w !! map_path fn = Some original →
  nothing_to_save true st = false →
  (is_Some (files w !! (map_path fn +:+ ".bak"))
   ∧ remove_fails (faults w) (map_path fn +:+ ".bak") = true)
  ∨ rename_fails (faults w) (map_path fn) (map_path fn +:+ ".bak") = true →
  (∀ saveAll st0 w0, ∃ extra,
      content (map_path fn) (_save fn saveAll st0 w0).2
      = content (map_path fn) w0 ++ extra)
  ∧ (∃ extra, files (save fn true st w).2 !! map_path fn = Some (original ++ extra))
  ∧ (∃ l, calls (save fn true st w).2
          = calls (create_backup (map_path fn) true w).2
              ++ CallOpenApp (map_path fn) :: l
          ∧ Forall (is_save_call (map_path fn)) l)
  ∧ (open_fails (faults w) (map_path fn) = false → writes_succeed w →
     (save fn true st w).1 = clear_new_exp st
     ∧ files (save fn true st w).2 !! map_path fn
       = Some (original
                 ++ (if Nat.eqb (length original) 0 then ExperienceSignature else [])
                 ++ flat_map encode (saved_records true st))).
Proof.
  intros Hp Hn Hfail.
  split.
  { intros saveAll st0 w0.
    by destruct (_save_appends fn saveAll st0 w0) as [(_ & _ & He & _) _]. }
  destruct (create_backup_failed _ _ _ Hp Hfail) as (Hname & Hf1 & Hp1).
  unfold save. rewrite Hn.
  destruct (create_backup (map_path fn) true w) as [bak w1] eqn:Ecb.
  simpl in *. subst bak.
  destruct (_save_appends fn true st w1) as [(Hf2 & Ho2 & [extra He] & Hs2 & _) Hcalls].
  pose proof (_save_ok fn true st w1) as Hok.
  destruct (_save fn true st w1) as [[ok st2] w2]. simpl in *.
  assert ((if negb ok then (st2, w2) else (st2, w2)) = (st2, w2)) as -> by by destruct ok.
  simpl.
  assert (content (map_path fn) w1 = original) as Hc1 by (unfold content; by rewrite Hp1).
  destruct (Hs2 ltac:(by eexists)) as [bs Hbs].
  split_and!.
  - exists extra. unfold content in He. rewrite Hbs, Hp1 in He. simpl in He. by subst.
  - done.
  - intros Hopen Hw. rewrite <- Hf1 in Hopen.
    assert (writes_succeed w1) as Hw1 by (intros k; rewrite Hf1; apply Hw).
    destruct (Hok Hopen Hw1) as [Hst Hcont]. simplify_eq. split; [done|].
    unfold content in Hcont at 1. rewrite Hbs in Hcont. simpl in Hcont.
    rewrite Hbs. by f_equal.
Qed.

(** *** The final flush *)

Lemma write_entry_good exp force s :
  out_good s = true → (write_entry exp force s).1 = true →
  out_good (write_entry exp force s).2 = true.
Proof.
  unfold write_entry. destruct (force || bool_decide _); [|done].
  by destruct (out_write _ _ _ _).
Qed.

Lemma write_entries_good l s :
  out_good s = true → (write_entries l s).1 = true →
  out_good (write_entries l s).2 = true.
Proof.
  revert s. induction l as [|e l IH]; intros s Hg; simpl; [done|].
  pose proof (write_entry_good (Some e) false s Hg) as Hg'.
  destruct (write_entry (Some e) false s) as [ok s']. simpl in *.
  destruct ok; [|done]. by apply IH, Hg'.
Qed.

(** The stream is sound when [_save] reaches its final flush. *)
Lemma _save_entries_good fn saveAll st w s3 :
  _save_entries fn saveAll st w = inr s3 → out_good s3 = true.
Proof.
  unfold _save_entries. destruct (open_fails _ _); [done|].
  match goal with |- context [if Nat.eqb ?n 0 then ?a else ?b] =>
    destruct (if Nat.eqb n 0 then a else b) as [good w3] end.
  destruct good; simpl; [|done].
  match goal with |- context [write_entries ?l ?s] =>
    pose proof (write_entries_good l s eq_refl) as Hg1;
    destruct (write_entries l s) as [ok1 s1] end.
  destruct ok1; simpl in *; [|done].
  match goal with |- context [write_entries ?l s1] =>
    pose proof (write_entries_good l s1 (Hg1 eq_refl)) as Hg2;
    destruct (write_entries l s1) as [ok2 s2] end.
  destruct ok2; simpl in *; [|done].
  match goal with |- context [write_entries ?l s2] =>
    pose proof (write_entries_good l s2 (Hg2 eq_refl)) as Hg3;
    destruct (write_entries l s2) as [ok3 s3'] end.
  destruct ok3; simpl in *; [|done].
  intros ?; simplify_eq. by apply Hg3.
Qed.

(** C9 (the final flush is not checked): when a save that does not
    return early reaches its final flush and that write fails, a block
    of records was buffered and is not in the file, [_save] answers
    [true] all the same and [save] ends there, with both pending buffers
    cleared: the failed write is the last call, no backup is renamed
    back. *)
Theorem final_flush_failure_is_silent fn saveAll st w s3 :
  nothing_to_save saveAll st = false →
  _save_entries fn saveAll st (create_backup (map_path fn) saveAll w).2 = inr s3 →
  (write_entry None true s3).1 = false →
  let w1 := (create_backup (map_path fn) saveAll w).2 in
  let s4 := (write_entry None true s3).2 in
  (_save fn saveAll st w1).1.1 = true
  ∧ save fn saveAll st w = (clear_new_exp st, out_world s4)
  ∧ _newPvExp (save fn saveAll st w).1 = []
  ∧ _newMultiPvExp (save fn saveAll st w).1 = []
  ∧ writeBuffer s3 ≠ []
  ∧ files (out_world s4) = files (out_world s3)
  ∧ calls (out_world s4)
    = calls (out_world s3) ++ [CallWrite (out_path s3) (writeBuffer s3)].
Proof.
  intros Hn He Hfail w1 s4.
  pose proof (_save_entries_good _ _ _ _ _ He) as Hg.
  assert (_save fn saveAll st w1 = (true, clear_new_exp st, out_world s4)) as Hs.
  { unfold _save, w1. rewrite He. subst s4. by destruct (write_entry None true s3). }
  split_and!.
  - by rewrite Hs.
  - unfold save. rewrite Hn.
    destruct (create_backup (map_path fn) saveAll w) as [bak w1'] eqn:Ecb.
    subst w1. simpl in Hs. by rewrite Hs.
  - unfold save. rewrite Hn.
    destruct (create_backup (map_path fn) saveAll w) as [bak w1'] eqn:Ecb.
    subst w1. simpl in Hs. by rewrite Hs.
  - unfold save. rewrite Hn.
    destruct (create_backup (map_path fn) saveAll w) as [bak w1'] eqn:Ecb.
    subst w1. simpl in Hs. by rewrite Hs.
  - intros Hb. unfold write_entry, out_write in Hfail. simpl in Hfail.
    rewrite Hb, Hg in Hfail. done.
  - subst s4. unfold write_entry, out_write in *. simpl in *.
    destruct (writeBuffer s3); simpl in *; [done|].
    by destruct (out_good s3 && negb _).
  - subst s4. unfold write_entry, out_write in *. simpl in *.
    destruct (writeBuffer s3); simpl in *; [done|].
    by destruct (out_good s3 && negb _).
Qed.

End SaveProps.

Section SaveExamples.
#[local] Existing Instance demo_params.
#[local] Existing Instance demo_iteration.





(** A full save over an existing file that cannot be renamed: the index
    follows the old bytes. *)
Lemma full_save_appends_without_backup_witness :
  files (save "SugaR.exp" true demo_store (world_with_file renames_refused)).2
    !! "SugaR.exp"
  = Some (old_file ++ encode rec_deep ++ encode rec_shallow ++ encode rec_middle).
Proof.
  destruct (full_save_appends_without_backup "SugaR.exp" demo_store
              (world_with_file renames_refused) old_file)
    as (_ & _ & _ & Hall).
  - reflexivity.
  - reflexivity.
  - right. reflexivity.
  - destruct Hall as [_ Hfile]; [reflexivity | intros k; reflexivity |].
    exact Hfile.
Defined.

(** An incremental save of one pending record whose flush is refused:
    the file holds the signature alone and the record is forgotten. *)
Lemma final_flush_failure_is_silent_witness :
  save "SugaR.exp" false pending_store
    {| files := ∅; faults := second_write_refused; calls := []; nwrites := 0 |}
  = (new_ExperienceData,
     {| files := {["SugaR.exp" := ExperienceSignature]};
        faults := second_write_refused;
        calls := [CallOpenApp "SugaR.exp";
                  CallWrite "SugaR.exp" ExperienceSignature;
                  CallWrite "SugaR.exp" (encode (mkExpEntry 1 11 0 10))];
        nwrites := 2 |}).
Proof.
  set (w := {| files := ∅; faults := second_write_refused; calls := []; nwrites := 0 |}).
  pose proof (final_flush_failure_is_silent "SugaR.exp" false pending_store w) as H.
  destruct (_save_entries "SugaR.exp" false pending_store
              (create_backup (map_path "SugaR.exp") false w).2) as [w'|s3] eqn:E;
    vm_compute in E; [discriminate E|].
  injection E as E. subst s3.
  destruct (H _ eq_refl eq_refl eq_refl) as (_ & Hsave & _).
  rewrite Hsave. reflexivity.
Defined.

End SaveExamples.

(** ** The codec *)

Section Codec.

Lemma length_le_bytes n x : length (le_bytes n x) = n.
Proof. revert x. induction n as [|n IH]; intros x; simpl; [done|]. by rewrite IH. Qed.

Lemma le_value_le_bytes n x : le_value (le_bytes n x) = x `mod` 256 ^ Z.of_nat n.
Proof.
  revert x. induction n as [|n IH]; intros x.
  - simpl. by rewrite Z.mod_1_r.
  - cbn [le_bytes le_value]. rewrite IH.
    rewrite Nat2Z.inj_succ, Z.pow_succ_r by lia.
    rewrite Z.rem_mul_r by lia. done.
Qed.

Lemma length_encode e : length (encode e) = sizeof_ExpEntry.
Proof. unfold encode. by rewrite !length_app, !length_le_bytes. Qed.

Lemma to_int32_mod x :
  - 2 ^ 31 ≤ x < 2 ^ 31 → to_int32 (x `mod` 2 ^ 32) = x.
Proof.
  intros Hx. unfold to_int32.
  destruct (decide (0 ≤ x)).
  - rewrite Z.mod_small by lia. rewrite (proj2 (Z.ltb_lt _ _)); lia.
  - replace (x `mod` 2 ^ 32) with (x + 2 ^ 32).
    + rewrite (proj2 (Z.ltb_ge _ _)); lia.
    + apply Z.mod_unique with (-1); lia.
Qed.

(** A record in range is read back as it was written. *)
Lemma decode_encode e : entry_in_range e → decode (encode e) = e.
Proof.
  intros (Hk & Hm & Hv & Hd). unfold decode, encode.
  set (a := le_bytes 8 (key e)). set (b := le_bytes 4 (move e)).
  set (c := le_bytes 4 (value e)). set (d := le_bytes 4 (depth e)).
  assert (length a = 8%nat ∧ length b = 4%nat ∧ length c = 4%nat ∧ length d = 4%nat)
    as (Ha & Hb & Hc & Hd') by (unfold a, b, c, d; by rewrite !length_le_bytes).
  rewrite (take_app_length' a) by done.
  rewrite (drop_app_length' a) by done.
  rewrite (take_app_length' b) by done.
  rewrite (app_assoc a b), (drop_app_length' (a ++ b))
    by (by rewrite length_app, Ha, Hb).
  rewrite (take_app_length' c) by done.
  rewrite (app_assoc (a ++ b) c), (drop_app_length' ((a ++ b) ++ c))
    by (by rewrite !length_app, Ha, Hb, Hc).
  rewrite (take_app_length' d) by done.
  unfold a, b, c, d.
  rewrite !le_value_le_bytes.
  change (256 ^ Z.of_nat 8) with (2 ^ 64). change (256 ^ Z.of_nat 4) with (2 ^ 32).
  rewrite Z.mod_small by done. rewrite !to_int32_mod by done.
  by destruct e.
Qed.

Lemma in_read_encode e rest :
  in_read sizeof_ExpEntry (encode e ++ rest) = Some (encode e, rest).
Proof.
  unfold in_read. rewrite decide_True.
  - rewrite take_app_length', drop_app_length' by (by rewrite length_encode). done.
  - rewrite length_app, length_encode. lia.
Qed.

Lemma length_flat_map_encode (l : list ExpEntry) :
  length (flat_map encode l) = (sizeof_ExpEntry * length l)%nat.
Proof.
  induction l as [|e l IH]; [done|]. cbn [flat_map].
  rewrite length_app, length_encode, IH. cbn [length]. lia.
Qed.

End Codec.

(** ** Loading *)

Section LoadProps.
Context `{Params}.

(** The failures in front of the record loop leave the store alone. *)
Lemma _load_fails_before_records fn st w :
  fails_before_records (_load fn st w).1.1 → (_load fn st w).1.2 = st.
Proof.
  unfold _load.
  destruct (if open_fails _ _ then _ else _) as [bytes|]; [|done].
  destruct (_ =? 0); [done|].
  destruct (negb _); [done|].
  destruct (malloc_fails _ 0); [done|].
  destruct (in_read _ _) as [[sig rest]|]; [|done].
  destruct (negb _); [done|].
  destruct (malloc_fails _ 1); [done|].
  destruct (load_entries _ _ _ _ _ _); simpl; [|done].
  by destruct (_abortLoading st).
Qed.

(** A load that fails reports it. *)
Lemma load_reports fn st w :
  (load fn true st w).1.1 = load_ok (_load fn
    {| _filename := fn; _expExData := _expExData st; _mainExp := _mainExp st;
       _newPvExp := _newPvExp st; _newMultiPvExp := _newMultiPvExp st;
       _abortLoading := _abortLoading st; _loadingResult := false |} w).1.1.
Proof. unfold load. by destruct (_load _ _ _) as [[r st2] w2]. Qed.

Lemma load_mainExp fn sync st w :
  _mainExp (load fn sync st w).1.2 = _mainExp (_load fn
    {| _filename := fn; _expExData := _expExData st; _mainExp := _mainExp st;
       _newPvExp := _newPvExp st; _newMultiPvExp := _newMultiPvExp st;
       _abortLoading := _abortLoading st; _loadingResult := false |} w).1.2.
Proof. unfold load. by destruct (_load _ _ _) as [[r st2] w2]. Qed.

(** Corruption detection: a file whose payload is not a whole number of
    records, or whose first bytes are not the signature, fails the load
    and leaves the store as it was, whatever else goes wrong. *)
Lemma _load_corrupt fn st w (bytes : list byte) :
  files w !! map_path fn = Some bytes →
  (length bytes < 5)%nat
  ∨ ((length bytes - 5) `mod` sizeof_ExpEntry ≠ 0)%nat
  ∨ take 5 bytes ≠ ExperienceSignature →
  load_ok (_load fn st w).1.1 = false ∧ (_load fn st w).1.2 = st.
Proof.
  intros Hfile Hbad.
  assert (fails_before_records (_load fn st w).1.1) as Hearly.
  2:{ split; [|by apply _load_fails_before_records].
      by destruct ((_load fn st w).1.1). }
  unfold _load. destruct (open_fails _ _); [done|]. rewrite Hfile.
  change ExperienceSignatureLength with 5%nat.
  change (Z.of_nat sizeof_ExpEntry) with 24.
  destruct (_ =? 0); [done|].
  destruct (negb _) eqn:Hsize; [done|].
  apply negb_false_iff, Z.eqb_eq in Hsize.
  assert (take 5 bytes ≠ ExperienceSignature) as Hsig.
  { destruct Hbad as [Hlt|[Hmod|?]]; [| |done]; exfalso.
    - unfold size_t_sub in Hsize. rewrite (proj2 (Z.ltb_lt _ _)) in Hsize by lia.
      assert (length bytes = 0 ∨ length bytes = 1 ∨ length bytes = 2
              ∨ length bytes = 3 ∨ length bytes = 4)%nat as Hcases by lia.
      destruct Hcases as [Hc|[Hc|[Hc|[Hc|Hc]]]]; rewrite Hc in Hsize;
        vm_compute in Hsize; discriminate.
    - unfold size_t_sub in Hsize.
      destruct (Z.ltb_spec (Z.of_nat (length bytes)) (Z.of_nat 5)) as [Hlt|Hge].
      + assert (length bytes = 0 ∨ length bytes = 1 ∨ length bytes = 2
                ∨ length bytes = 3 ∨ length bytes = 4)%nat as Hcases by lia.
        destruct Hcases as [Hc|[Hc|[Hc|[Hc|Hc]]]]; rewrite Hc in Hsize;
        vm_compute in Hsize; discriminate.
      + apply Hmod. change sizeof_ExpEntry with 24%nat.
        apply Nat2Z.inj. rewrite Nat2Z.inj_mod, Nat2Z.inj_sub by lia.
        change (Z.of_nat 24) with 24. change (Z.of_nat 0) with 0.
        change (Z.of_nat 5) with 5 in *.
        rewrite <- Hsize. apply Z.mod_mul. lia. }
  destruct (malloc_fails _ 0); [done|].
  destruct (in_read 5 _) as [[sig rest]|] eqn:Hread; [|done].
  rewrite bool_decide_eq_false_2; [done|].
  unfold in_read in Hread. case_decide as Hlen; [|done].
  injection Hread as <- <-.
  destruct (read_limit _ _) as [n|]; [|done].
  rewrite length_take in Hlen. rewrite take_take.
  by replace (5 `min` n)%nat with 5%nat by lia.
Qed.

(** The record loop on the bytes of [l]: every record is read and
    linked. *)
Lemma load_entries_all (l : list ExpEntry) i m d :
  Forall entry_in_range l →
  ∃ d', load_entries (length l) i false (flat_map encode l) m d
        = LoopDone (link_all l m) d'.
Proof.
  intros Hl. revert i m d. induction Hl as [|e l He Hl IH]; intros i m d.
  - by eexists.
  - cbn [length flat_map load_entries].
    rewrite in_read_encode, decode_encode by done.
    destruct (link_entry e m) as [fresh m'] eqn:E.
    destruct (IH (S i) m' (if fresh then d else S d)) as [d' Hd'].
    exists d'. rewrite Hd'. unfold link_all. simpl. by rewrite E.
Qed.

(** The load of a well-formed file that nothing disturbs. *)
Lemma _load_file fn st w (l : list ExpEntry) :
  files w !! map_path fn = Some (ExperienceSignature ++ flat_map encode l) →
  Forall entry_in_range l →
  fault_free (faults w) → _abortLoading st = false →
  ∃ d, (_load fn st w).1
       = (Loaded d, push_expExData (length l) (set_mainExp (link_all l (_mainExp st)) st)).
Proof.
  intros Hfile Hl (_ & _ & Hopen & _ & Hread & Hmalloc) Habort.
  unfold _load. rewrite Hopen, Hfile, Hread, !Hmalloc, Habort.
  rewrite length_app, length_flat_map_encode.
  change (length ExperienceSignature) with 5%nat.
  change ExperienceSignatureLength with 5%nat.
  change sizeof_ExpEntry with 24%nat.
  set (n := length l).
  assert ((Z.of_nat (5 + 24 * n) =? 0) = false) as -> by (apply Z.eqb_neq; lia).
  assert (size_t_sub (Z.of_nat (5 + 24 * n)) (Z.of_nat 5) = 24 * Z.of_nat n) as ->.
  { unfold size_t_sub. rewrite (proj2 (Z.ltb_ge _ _)); lia. }
  assert ((24 * Z.of_nat n) `div` Z.of_nat 24 = Z.of_nat n) as ->.
  { change (Z.of_nat 24) with 24. rewrite Z.mul_comm. apply Z.div_mul. lia. }
  assert ((Z.of_nat n * Z.of_nat 24 =? 24 * Z.of_nat n) = true) as ->
    by (apply Z.eqb_eq; lia).
  simpl negb. cbn iota.
  assert (in_read 5 (ExperienceSignature ++ flat_map encode l)
          = Some (ExperienceSignature, flat_map encode l)) as ->.
  { unfold in_read. rewrite decide_True by (rewrite length_app; simpl; lia).
    by rewrite take_app_length', drop_app_length'. }
  rewrite bool_decide_eq_true_2 by done. simpl negb. cbn iota.
  rewrite Nat2Z.id. unfold n.
  destruct (load_entries_all l 0 (_mainExp st) 0 Hl) as [d ->].
  by exists d.
Qed.

End LoadProps.

Section LoadExamples.
#[local] Existing Instance demo_params.

(** C1 (a failed load and the index), at the input where it breaks: a
    file of two records on a stream that fails after the first.  The
    load reports the failure, but the first record stays linked into the
    index of the fresh store. *)
Theorem load_short_read_keeps_links :
  (_load "SugaR.exp" new_ExperienceData short_read_world).1.1 = EntryReadFailed 1
  ∧ (load "SugaR.exp" true new_ExperienceData short_read_world).1.1 = false
  ∧ _mainExp (load "SugaR.exp" true new_ExperienceData short_read_world).1.2
    = {[ 1 := [rec_deep] ]}
  ∧ _mainExp (load "SugaR.exp" true new_ExperienceData short_read_world).1.2
    ≠ _mainExp new_ExperienceData.
Proof.
  assert (_mainExp (load "SugaR.exp" true new_ExperienceData short_read_world).1.2
          = {[ 1 := [rec_deep] ]}) as Hm by (vm_compute; reflexivity).
  split_and!; [vm_compute; reflexivity | vm_compute; reflexivity | done |].
  rewrite Hm. intros Heq. apply (f_equal (λ m : gmap Z Chain, m !! 1)) in Heq.
  by rewrite lookup_singleton_eq in Heq.
Qed.

End LoadExamples.

(** ** Saving and loading again *)

Section RoundTrip.
Context `{Params} `{Iteration}.

Lemma flat_map_perm {A B} (f : A → list B) (l l' : list A) :
  l ≡ₚ l' → flat_map f l ≡ₚ flat_map f l'.
Proof.
  induction 1 as [|x l l' _ IH|x y l|l l' l'' _ IH1 _ IH2]; simpl.
  - done.
  - by rewrite IH.
  - apply Permutation_app_swap_app.
  - by etrans.
Qed.

Lemma elem_of_flat_map {A B} (f : A → list B) (l : list A) y :
  y ∈ flat_map f l ↔ ∃ x, x ∈ l ∧ y ∈ f x.
Proof.
  rewrite list_elem_of_In, in_flat_map.
  split; intros (x & Hx & Hy); exists x; by rewrite ?list_elem_of_In in *.
Qed.

Lemma NoDup_moves_filter (P : ExpEntry → Prop) `{∀ e, Decision (P e)} (l : Chain) :
  NoDup (move <$> l) → NoDup (move <$> filter P l).
Proof.
  induction l as [|e l IH]; [done|]. rewrite fmap_cons, NoDup_cons.
  intros [He Hl]. rewrite filter_cons. case_decide; [|by apply IH].
  rewrite fmap_cons. apply NoDup_cons. split; [|by apply IH].
  intros Hin. apply He. apply list_elem_of_fmap in Hin as (x & -> & Hx).
  apply list_elem_of_filter in Hx as [_ Hx]. by apply list_elem_of_fmap_2.
Qed.

Lemma NoDup_node_ids (l : Chain) : NoDup (move <$> l) → NoDup (node_id <$> l).
Proof.
  intros Hl. apply (NoDup_fmap_1 snd). by rewrite <- list_fmap_compose.
Qed.

Lemma link_all_index_ok (l : list ExpEntry) m : index_ok m → index_ok (link_all l m).
Proof.
  revert m. induction l as [|e l IH]; intros m Hm; [done|].
  apply IH. by apply link_entry_index_ok.
Qed.

(** The link of a record whose move is new for its fingerprint adds one
    node to the chain of that fingerprint. *)
Lemma link_entry_new (e : ExpEntry) (m : gmap Z Chain) :
  move e ∉ move <$> probe (key e) m →
  ∀ k, probe k (link_entry e m).2
       ≡ₚ probe k m ++ filter (λ x, key x = k) [e].
Proof.
  intros Hnew k. unfold link_entry, probe in *.
  destruct (m !! key e) as [chain|] eqn:Hk; simpl in *.
  - apply find_None in Hnew. rewrite Hnew. simpl.
    rewrite lookup_insert. rewrite filter_cons, filter_nil.
    case_decide; subst.
    + simpl. rewrite Hk. simpl.
      rewrite insert_sorted_perm. by rewrite Permutation_cons_append.
    + by rewrite app_nil_r.
  - rewrite lookup_insert. rewrite filter_cons, filter_nil.
    case_decide; subst.
    + simpl. by rewrite Hk.
    + by rewrite app_nil_r.
Qed.

(** Records with pairwise different fingerprint-and-move are linked
    without a merge: every chain is made of the records of its
    fingerprint. *)
Lemma link_all_perm (rest done_ : list ExpEntry) (m : gmap Z Chain) :
  (∀ k, probe k m ≡ₚ filter (λ x, key x = k) done_) →
  NoDup (node_id <$> (done_ ++ rest)) →
  ∀ k, probe k (link_all rest m) ≡ₚ filter (λ x, key x = k) (done_ ++ rest).
Proof.
  revert done_ m. induction rest as [|e rest IH]; intros done_ m Hprobe Hnd k.
  - by rewrite app_nil_r.
  - unfold link_all. simpl. fold (link_all rest (link_entry e m).2).
    replace (done_ ++ e :: rest) with ((done_ ++ [e]) ++ rest) in *
      by (by rewrite <- app_assoc).
    apply IH; [|done].
    intros k'. rewrite link_entry_new, filter_app; [by rewrite Hprobe|].
    intros Hin. apply list_elem_of_fmap in Hin as (x & Hmx & Hx).
    rewrite Hprobe in Hx. apply list_elem_of_filter in Hx as [Hkx Hx].
    rewrite <- app_assoc, fmap_app in Hnd. apply NoDup_app in Hnd as (_ & Hdis & _).
    apply (Hdis (node_id x)).
    + by apply list_elem_of_fmap_2.
    + unfold node_id. rewrite Hkx, <- Hmx. simpl. left.
Qed.

Lemma filter_all {A} (P : A → Prop) `{∀ x, Decision (P x)} (l : list A) :
  (∀ x, x ∈ l → P x) → filter P l = l.
Proof.
  induction l as [|x l IH]; intros Hl; [done|].
  rewrite filter_cons, decide_True by (apply Hl; left).
  f_equal. apply IH. intros y Hy. apply Hl. by right.
Qed.

Lemma filter_none {A} (P : A → Prop) `{∀ x, Decision (P x)} (l : list A) :
  (∀ x, x ∈ l → ¬ P x) → filter P l = [].
Proof.
  induction l as [|x l IH]; intros Hl; [done|].
  rewrite filter_cons, decide_False by (apply Hl; left).
  apply IH. intros y Hy. apply Hl. by right.
Qed.

Lemma index_ok_insert_inv i x (m : gmap Z Chain) :
  m !! i = None → index_ok (<[i:=x]> m) → index_ok m.
Proof.
  intros Hi Hok k chain Hk. apply Hok. rewrite lookup_insert_ne; [done|].
  intros ->. congruence.
Qed.

(** The records of one fingerprint among those a full save writes. *)
Lemma map_entries_of_key (m : gmap Z Chain) :
  index_ok m →
  ∀ k, filter (λ e, key e = k)
         (flat_map (λ x : Key * Chain, filter qualifies x.2) (map_to_list m))
       ≡ₚ filter qualifies (probe k m).
Proof.
  induction m as [|i x m Hi IH] using map_ind.
  - intros _ k. rewrite map_to_list_empty. by unfold probe; rewrite lookup_empty.
  - intros Hok k.
    rewrite (flat_map_perm _ _ _ (map_to_list_insert m i x Hi)). simpl.
    rewrite filter_app, IH by (by eapply index_ok_insert_inv).
    destruct (Hok i x (lookup_insert_eq _ _ _)) as (_ & Hkeys & _).
    rewrite Forall_forall in Hkeys.
    unfold probe. rewrite lookup_insert. case_decide; subst; simpl.
    + rewrite Hi. simpl. rewrite filter_nil, app_nil_r.
      rewrite filter_all; [done|].
      intros e He. apply list_elem_of_filter in He as [_ He]. by apply Hkeys.
    + rewrite filter_none; [done|].
      intros e He. apply list_elem_of_filter in He as [_ He].
      rewrite (Hkeys e He). done.
Qed.

(** No fingerprint-and-move comes twice among the records a full save
    writes. *)
Lemma map_entries_NoDup (m : gmap Z Chain) :
  index_ok m →
  NoDup (node_id <$> flat_map (λ x : Key * Chain, filter qualifies x.2) (map_to_list m)).
Proof.
  induction m as [|i x m Hi IH] using map_ind.
  - intros _. rewrite map_to_list_empty. constructor.
  - intros Hok.
    rewrite (flat_map_perm _ _ _ (map_to_list_insert m i x Hi)). simpl.
    destruct (Hok i x (lookup_insert_eq _ _ _)) as (_ & Hkeys & Hnd).
    rewrite Forall_forall in Hkeys.
    assert (index_ok m) as Hokm by (by eapply index_ok_insert_inv).
    rewrite fmap_app. apply NoDup_app. split_and!.
    + by apply NoDup_node_ids, NoDup_moves_filter.
    + intros y Hy Hy'.
      apply list_elem_of_fmap in Hy as (e & -> & He).
      apply list_elem_of_filter in He as [_ He].
      apply list_elem_of_fmap in Hy' as (e' & Heq & He').
      apply elem_of_flat_map in He' as ([k c] & Hkc & He'). simpl in He'.
      apply list_elem_of_filter in He' as [_ He'].
      apply elem_of_map_to_list in Hkc.
      destruct (Hokm k c Hkc) as (_ & Hkeys' & _).
      rewrite Forall_forall in Hkeys'.
      assert (i = k) as ->.
      { rewrite <- (Hkeys e He), <- (Hkeys' e' He').
        unfold node_id in Heq. congruence. }
      congruence.
    + by apply IH.
Qed.

Lemma index_entries_in_range (m : gmap Z Chain) :
  iteration_order m ≡ₚ map_to_list m → index_in_range m →
  Forall entry_in_range (index_entries m).
Proof.
  intros Hperm Hr. apply Forall_forall. intros e He.
  apply elem_of_flat_map in He as ([k c] & Hkc & He). simpl in He.
  apply list_elem_of_filter in He as [_ He].
  rewrite Hperm in Hkc. apply elem_of_map_to_list in Hkc.
  specialize (Hr k c Hkc). rewrite Forall_forall in Hr. by apply Hr.
Qed.

(** The file a full save of a populated store leaves under a new
    name. *)
Lemma save_fresh_file fn st w :
  populated st → files w !! map_path fn = None → fault_free (faults w) →
  files (save fn true st w).2 !! map_path fn
  = Some (ExperienceSignature ++ flat_map encode (index_entries (_mainExp st)))
  ∧ faults (save fn true st w).2 = faults w.
Proof.
  intros (Hne & _ & _ & Hpv & Hmpv) Hfresh (_ & _ & Hopen & Hwrite & _).
  assert (nothing_to_save true st = false) as Hn.
  { apply not_true_is_false. rewrite nothing_to_save_spec.
    intros [_ [?|Hsz]]; [done|]. by apply map_size_empty_iff in Hsz. }
  unfold save. rewrite Hn. unfold create_backup, file_exists.
  rewrite bool_decide_eq_false_2 by (rewrite Hfresh; by intros [? ?]).
  simpl.
  destruct (_save_ok fn true st w (Hopen _) Hwrite) as [Hst Hcont].
  destruct (_save_appends fn true st w) as [(Hf & _) _].
  destruct (_save fn true st w) as [[ok st2] w2]. simpl in *.
  injection Hst as -> ->. simpl. split; [|done].
  unfold saved_records in Hcont. rewrite Hpv, Hmpv in Hcont.
  unfold content in Hcont. rewrite Hfresh in Hcont. simpl in Hcont.
  rewrite app_nil_r in Hcont.
  destruct (files w2 !! map_path fn) as [bs|]; simpl in Hcont; [by subst|done].
Qed.

(** C3 (round trip): a populated store is saved in full under a name
    that is not taken, on a file system that refuses nothing, and the
    file is loaded into a fresh store.  The load succeeds; the chain of
    every fingerprint holds exactly the records of the old chain whose
    depth reaches [MIN_EXP_DEPTH] (in some order), and no move comes
    twice in it. *)
Theorem save_load_round_trip fn st w :
  populated st →
  files w !! map_path fn = None →
  fault_free (faults w) →
  iteration_order (_mainExp st) ≡ₚ map_to_list (_mainExp st) →
  let saved := save fn true st w in
  let loaded := load fn true new_ExperienceData saved.2 in
  loaded.1.1 = true
  ∧ ∀ k, probe k (_mainExp loaded.1.2) ≡ₚ filter qualifies (probe k (_mainExp st))
         ∧ NoDup (move <$> probe k (_mainExp loaded.1.2)).
Proof.
  intros Hpop Hfresh Hff Hperm saved loaded.
  destruct (save_fresh_file fn st w Hpop Hfresh Hff) as [Hfile Hfaults].
  fold saved in Hfile, Hfaults.
  destruct Hpop as (_ & Hok & Hrange & _).
  set (l := index_entries (_mainExp st)) in *.
  assert (Forall entry_in_range l) as Hl by (by apply index_entries_in_range).
  assert (fault_free (faults saved.2)) as Hff' by (by rewrite Hfaults).
  set (st0 := {| _filename := fn; _expExData := _expExData new_ExperienceData;
                 _mainExp := _mainExp new_ExperienceData;
                 _newPvExp := _newPvExp new_ExperienceData;
                 _newMultiPvExp := _newMultiPvExp new_ExperienceData;
                 _abortLoading := _abortLoading new_ExperienceData;
                 _loadingResult := false |}).
  destruct (_load_file fn st0 saved.2 l Hfile Hl Hff' eq_refl) as [d Hload].
  assert (loaded.1.1 = true) as Htrue.
  { unfold loaded. rewrite load_reports. fold st0. by rewrite Hload. }
  assert (_mainExp loaded.1.2 = link_all l ∅) as Hm.
  { unfold loaded. rewrite load_mainExp. fold st0. by rewrite Hload. }
  split; [done|]. intros k. rewrite Hm. split.
  - rewrite (link_all_perm l [] ∅).
    + simpl. unfold l, index_entries.
      rewrite (flat_map_perm _ _ _ Hperm). by apply map_entries_of_key.
    + intros k'. by unfold probe; rewrite lookup_empty.
    + simpl. unfold l, index_entries.
      rewrite (flat_map_perm _ _ _ Hperm). by apply map_entries_NoDup.
  - assert (index_ok (link_all l ∅)) as Hok'.
    { apply link_all_index_ok. intros k' c Hc. by rewrite lookup_empty in Hc. }
    unfold probe. destruct (link_all l ∅ !! k) as [c|] eqn:Hc; simpl.
    + by destruct (Hok' k c Hc) as (_ & _ & ?).
    + constructor.
Qed.

End RoundTrip.

Section RoundTripExamples.
#[local] Existing Instance demo_params.
#[local] Existing Instance demo_iteration.

Lemma demo_store_populated : populated demo_store.
Proof.
  assert (index_ok demo_index) as Hok.
  { unfold demo_index. do 3 apply link_entry_index_ok.
    intros k c Hc. by rewrite lookup_empty in Hc. }
  assert (index_in_range demo_index) as Hr.
  { unfold demo_index.
    do 3 (apply link_entry_in_range; [vm_compute; intuition discriminate|]).
    intros k c Hc. by rewrite lookup_empty in Hc. }
  split_and!; done.
Defined.

Lemma no_faults_fault_free : fault_free no_faults.
Proof. by repeat split. Defined.

(** The three records of the demo store come back; the depth-5 record
    is kept since it reaches the minimum depth 4. *)
Lemma save_load_round_trip_witness :
  probe 1 (_mainExp (load "SugaR.exp" true new_ExperienceData
                       (save "SugaR.exp" true demo_store empty_world).2).1.2)
  ≡ₚ [rec_deep; rec_shallow; rec_middle].
Proof.
  assert (iteration_order (_mainExp demo_store) ≡ₚ map_to_list (_mainExp demo_store))
    as Horder by done.
  destruct (save_load_round_trip "SugaR.exp" demo_store empty_world
              demo_store_populated eq_refl no_faults_fault_free Horder) as [_ Hk].
  destruct (Hk 1) as [Hperm _]. exact Hperm.
Defined.

End RoundTripExamples.

(** ** Ingestion *)

Section ConvertProps.
Context `{Params} `{Engine}.

(** What decides the staging of a scored move: its depth and its score.
    Neither [maxPly] nor [gamePly] is looked at. *)
Lemma stage_move_staged lim mv score d (g : GameData) :
  tempBuffer (stage_move lim mv score d g)
  = if (minDepth lim <=? d) && (d <=? maxDepth lim) && (Z.abs score <=? maxValue lim)
    then tempBuffer g ++ encode (mkExpEntry (pos_key (pos g)) mv score d)
    else tempBuffer g.
Proof. unfold stage_move, passes_filters. by destruct (_ && _). Qed.

Lemma stage_move_keeps_pos lim mv score d (g : GameData) :
  pos (stage_move lim mv score d g) = pos g
  ∧ gamePly (stage_move lim mv score d g) = gamePly g.
Proof. unfold stage_move. by destruct (passes_filters _ _ _). Qed.

(** One turn of the move loop stages at most one record, and that one
    under the fingerprint of the position the turn began with. *)
Lemma process_move_stages lim winnerColor tok (g0 g' : GameData) :
  process_move lim winnerColor tok g0 = inl g' →
  gamePly g' = gamePly g0 + 1
  ∧ (tempBuffer g' = tempBuffer g0
     ∨ ∃ mv score d,
         passes_filters lim score d = true
         ∧ tempBuffer g'
           = tempBuffer g0 ++ encode (mkExpEntry (pos_key (pos g0)) mv score d)).
Proof.
  unfold process_move.
  destruct (decide (4 ≤ length tok)%nat); [done|].
  destruct (String.eqb _ ""); [done|].
  destruct (_ =? MOVE_NONE); [done|].
  set (mv := to_move _ _). set (d := if String.eqb _ "" then DEPTH_NONE else _).
  set (score := if String.eqb _ "" then VALUE_NONE else _).
  destruct (negb (d =? DEPTH_NONE) && negb (score =? VALUE_NONE)).
  - set (g := {| gamePly := gamePly g0 + 1 |}).
    pose proof (stage_move_staged lim mv score d g) as Hbuf.
    destruct (stage_move_keeps_pos lim mv score d g) as [Hpos Hply].
    set (g1 := stage_move lim mv score d g) in *.
    assert (tempBuffer g1 = tempBuffer g0
            ∨ ∃ mv score d,
                passes_filters lim score d = true
                ∧ tempBuffer g1
                  = tempBuffer g0 ++ encode (mkExpEntry (pos_key (pos g0)) mv score d))
      as Hstaged.
    { unfold passes_filters. destruct (_ && _) eqn:Hf; [right|left; done].
      exists mv, score, d. done. }
    clearbody g1. clear Hbuf.
    repeat case_match; intros; simplify_eq; simpl; rewrite ?Hply; done.
  - repeat case_match; intros; simplify_eq; simpl; auto.
Qed.

End ConvertProps.

Section ConvertExamples.
#[local] Existing Instance demo_params.
#[local] Existing Instance demo_engine.

(** C7 (the filters of the ingestion), at the input where it breaks:
    with a ply limit of 1 on the command line, the second move of a game
    is staged all the same, under the fingerprint of the position in
    front of it. *)
Theorem convert_ignores_max_ply :
  maxPly (read_limits ["in.pgn"; "out.exp"; "1"]) = 1
  ∧ match process_moves (read_limits ["in.pgn"; "out.exp"; "1"]) WHITE demo_tokens
            (mkGameData 0 COLOR_NB false (mkWeights 0 0 0) (pos_set "startpos") []
               (λ _, 0%nat)) with
    | inl g =>
        gamePly g = 2
        ∧ tempBuffer g
          = encode (mkExpEntry 100 4 120 10) ++ encode (mkExpEntry 101 4 (-30) 9)
    | inr _ => False
    end.
Proof. split; [reflexivity|]. vm_compute. split; reflexivity. Qed.

End ConvertExamples.

(** ** The estimator *)

Section StableSort.
Context {A : Type} (before : A → A → bool).

Lemma stable_insert_perm x l : stable_insert before x l ≡ₚ x :: l.
Proof.
  induction l as [|y l IH]; simpl; [done|].
  destruct (before y x); [|done]. rewrite IH. apply perm_swap.
Qed.

Lemma stable_sort_perm l : stable_sort before l ≡ₚ l.
Proof.
  induction l as [|x l IH]; simpl; [done|].
  by rewrite stable_insert_perm, IH.
Qed.

(** Elements that the predicate never separates keep their order. *)
Lemma stable_insert_filter (P : A → Prop) `{∀ x, Decision (P x)} x l :
  (∀ a b, P a → P b → before a b = false) →
  filter P (stable_insert before x l) = filter P (x :: l).
Proof.
  intros HP. induction l as [|y l IH]; simpl; [done|].
  destruct (before y x) eqn:E; [|done].
  rewrite (filter_cons _ y), IH, !filter_cons.
  destruct (decide (P y)) as [Hy|Hy], (decide (P x)) as [Hx|Hx]; try done.
  by rewrite HP in E.
Qed.

Lemma stable_sort_filter (P : A → Prop) `{∀ x, Decision (P x)} l :
  (∀ a b, P a → P b → before a b = false) →
  filter P (stable_sort before l) = filter P l.
Proof.
  intros HP. induction l as [|x l IH]; simpl; [done|].
  rewrite stable_insert_filter by done. by rewrite !filter_cons, IH.
Qed.

(** For a predicate that is asymmetric and whose complement is
    transitive, no element of the result has to come before an earlier
    one. *)
Lemma stable_sort_sorted l :
  (∀ a b, before a b = true → before b a = false) →
  (∀ a b c, before b a = false → before c b = false → before c a = false) →
  StronglySorted (λ a b, before b a = false) (stable_sort before l).
Proof.
  intros Hasym Htrans. induction l as [|x l IH]; simpl; [constructor|].
  revert IH. generalize (stable_sort before l). clear l.
  intros l Hl. induction Hl as [|y l Hl IH Hy]; simpl.
  - repeat constructor.
  - destruct (before y x) eqn:E.
    + constructor; [done|].
      rewrite stable_insert_perm. constructor; [by apply Hasym | done].
    + constructor; [by constructor|].
      constructor; [done|].
      eapply Forall_impl; [done|]. intros z Hz. simpl in *. by eapply Htrans.
Qed.

End StableSort.

Section ShowExpProps.
Context `{Params} `{Engine}.

Lemma estimate_before_asym a b :
  estimate_before a b = true → estimate_before b a = false.
Proof.
  unfold estimate_before.
  destruct (a.2 =? VALUE_NONE) eqn:Ea, (b.2 =? VALUE_NONE) eqn:Eb; simpl; try done.
  intros Hlt. apply Z.ltb_lt in Hlt. apply Z.ltb_ge. lia.
Qed.

Lemma estimate_before_trans a b c :
  estimate_before b a = false → estimate_before c b = false →
  estimate_before c a = false.
Proof.
  unfold estimate_before.
  destruct (a.2 =? VALUE_NONE) eqn:Ea, (b.2 =? VALUE_NONE) eqn:Eb,
    (c.2 =? VALUE_NONE) eqn:Ec; simpl; try done.
  rewrite !Z.ltb_ge. lia.
Qed.

Lemma estimate_before_ranks a b : estimate_before b a = false → ranks_before a b.
Proof.
  unfold estimate_before, ranks_before.
  destruct (Z.eqb_spec a.2 VALUE_NONE), (Z.eqb_spec b.2 VALUE_NONE); simpl; try done.
  rewrite Z.ltb_ge. done.
Qed.

(** The walk does not start at a node below the minimum depth. *)
Lemma walk_shallow m c fuel (e : ExpEntry) p a :
  depth e < MIN_EXP_DEPTH → walk m c fuel (Some e) p a = a.
Proof.
  intros Hd. destruct fuel as [|fuel]; [done|]. cbn [walk].
  by rewrite bool_decide_eq_false_2 by lia.
Qed.

(** A candidate below the minimum depth has no estimate. *)
Lemma estimate_shallow m p (e : ExpEntry) :
  depth e < MIN_EXP_DEPTH → estimate m p e = Some VALUE_NONE.
Proof.
  intros Hd. unfold estimate. by rewrite walk_shallow.
Qed.

(** With a positive minimum depth the weights of a walk add up to a
    positive number as soon as one move is walked. *)
Lemma walk_weight m c fuel nextPosExpEx p a :
  0 < MIN_EXP_DEPTH → 1 ≤ multiplier a →
  (exp_size a ≠ 0%nat → 0 < valueWeight a) → 0 ≤ valueWeight a →
  exp_size (walk m c fuel nextPosExpEx p a) ≠ 0%nat →
  0 < valueWeight (walk m c fuel nextPosExpEx p a).
Proof.
  intros Hmin. revert nextPosExpEx p a.
  induction fuel as [|fuel IH]; intros nextPosExpEx p a Hmul Hpos Hnn.
  - destruct nextPosExpEx; simpl; auto.
  - destruct nextPosExpEx as [e|]; cbn [walk]; [|auto].
    case_bool_decide as Hd; [|auto].
    apply IH; simpl; [lia | nia | nia].
Qed.

(** With a positive minimum depth no estimate divides by zero. *)
Lemma estimate_total m p (e : ExpEntry) :
  0 < MIN_EXP_DEPTH → is_Some (estimate m p e).
Proof.
  intros Hmin. unfold estimate.
  set (a := walk _ _ _ _ _ _).
  pose proof (walk_weight m (side_to_move p) experienceBookMovesAhead (Some e) p
                (mkWalk 1 0 0 0) Hmin) as Hw.
  fold a in Hw. cbn [multiplier valueWeight exp_size] in Hw.
  destruct (Nat.eqb (exp_size a) 0) eqn:E; [by eexists|].
  apply Nat.eqb_neq in E.
  rewrite (proj2 (Z.eqb_neq _ _)); [by eexists|].
  assert (0 < valueWeight a) by (apply Hw; [lia | done | lia | done]). lia.
Qed.

Lemma estimates_total m p (chain : Chain) :
  0 < MIN_EXP_DEPTH →
  ∃ estimatedValue, estimates m p chain = Some estimatedValue
    ∧ estimatedValue.*1 = chain
    ∧ Forall (λ x, estimate m p x.1 = Some x.2) estimatedValue.
Proof.
  intros Hmin. induction chain as [|e chain (l & Hl & Hfst & Hest)]; simpl.
  - by exists [].
  - destruct (estimate_total m p e Hmin) as [v Hv]. rewrite Hv, Hl.
    exists ((e, v) :: l). split_and!; [done | by rewrite fmap_cons, Hfst |].
    by constructor.
Qed.


End ShowExpProps.

Section ShowExpExamples.
#[local] Existing Instance demo_params.
#[local] Existing Instance demo_engine.


End ShowExpExamples.

(** * Further properties *)

(** ** The chain index, further *)

Section IndexMore.
Context `{Params}.

Lemma insert_sorted_skip e b x (c : Chain) :
  (0 <? ExpEntry_compare e x) = false →
  insert_sorted e b (x :: c) = x :: insert_sorted e false c.
Proof. intros E. cbn [insert_sorted]. rewrite E. by destruct c. Qed.

(** An insertion splices the record into the chain: the nodes that were
    there keep their places relative to one another. *)
Lemma insert_sorted_splice e b (chain : Chain) :
  ∃ l1 l2, chain = l1 ++ l2 ∧ insert_sorted e b chain = l1 ++ e :: l2.
Proof.
  revert b. induction chain as [|x c IH]; intros b.
  - by exists [], [].
  - destruct (0 <? ExpEntry_compare e x) eqn:E.
    + cbn [insert_sorted]. rewrite E.
      destruct b; [by exists [], (x :: c) | by exists [x], c].
    + rewrite insert_sorted_skip by done.
      destruct (IH false) as (l1 & l2 & Hc & Hi).
      exists (x :: l1), l2. simpl. by rewrite Hi, Hc.
Qed.

Lemma probe_insert k k' (c : Chain) (m : gmap Z Chain) :
  probe k (<[k' := c]> m) = if decide (k' = k) then c else probe k m.
Proof. unfold probe. rewrite lookup_insert. by case_decide. Qed.

(** X1 (what one link does to the index): the chains of all other
    fingerprints stay as they are; the chain of the record's fingerprint
    grows by one node when [link_entry] answers [true] and keeps its
    length when it answers [false]; the answer is [true] exactly when the
    move was not yet in that chain; afterwards the move is in the chain,
    and after a [true] the record itself is. *)
Theorem link_entry_effect (m : gmap Z Chain) (e : ExpEntry) :
  (∀ k, k ≠ key e → probe k (link_entry e m).2 = probe k m)
  ∧ length (probe (key e) (link_entry e m).2)
    = (length (probe (key e) m) + if (link_entry e m).1 then 1 else 0)%nat
  ∧ ((link_entry e m).1 = true ↔ move e ∉ move <$> probe (key e) m)
  ∧ move e ∈ move <$> probe (key e) (link_entry e m).2
  ∧ ((link_entry e m).1 = true → e ∈ probe (key e) (link_entry e m).2).
Proof.
  unfold link_entry.
  destruct (m !! key e) as [chain|] eqn:Hk.
  - destruct (ExpEntryEx_find (move e) chain) as [i|] eqn:Hf; simpl.
    + assert (move e ∈ move <$> chain) as Hin.
      { destruct (find_Some _ _ _ Hf) as (x & Hx & <-).
        apply list_elem_of_fmap_2. by eapply list_elem_of_lookup_2. }
      split_and!.
      * intros k Hne. rewrite probe_insert. by rewrite decide_False.
      * rewrite probe_insert, decide_True by done.
        unfold probe. rewrite Hk. simpl. rewrite length_alter. lia.
      * unfold probe. rewrite Hk. simpl. split; [done | intros Hn; by destruct Hn].
      * rewrite probe_insert, decide_True by done. by rewrite alter_merge_moves.
      * done.
    + apply find_None in Hf. split_and!.
      * intros k Hne. rewrite probe_insert. by rewrite decide_False.
      * rewrite probe_insert, decide_True by done.
        unfold probe. rewrite Hk. simpl. rewrite insert_sorted_length. lia.
      * unfold probe. by rewrite Hk.
      * rewrite probe_insert, decide_True by done.
        rewrite insert_sorted_perm. simpl. left.
      * intros _. rewrite probe_insert, decide_True by done.
        rewrite insert_sorted_perm. left.
  - simpl. split_and!.
    + intros k Hne. rewrite probe_insert. by rewrite decide_False.
    + rewrite probe_insert, decide_True by done. unfold probe. by rewrite Hk.
    + unfold probe. rewrite Hk. simpl. split; [intros _; apply not_elem_of_nil | done].
    + rewrite probe_insert, decide_True by done. simpl. left.
    + intros _. rewrite probe_insert, decide_True by done. left.
Qed.

(** X2 (a new node is spliced in): when [link_entry] answers [true] the
    new chain is the old one with the record put between two of its
    parts, so the old nodes keep their order; the record becomes the head
    exactly when the chain was empty or it compares better than the old
    head. *)
Theorem link_entry_splices (m : gmap Z Chain) (e : ExpEntry) :
  (link_entry e m).1 = true →
  (∃ l1 l2, probe (key e) m = l1 ++ l2
            ∧ probe (key e) (link_entry e m).2 = l1 ++ e :: l2)
  ∧ (head (probe (key e) (link_entry e m).2) = Some e
     ↔ probe (key e) m = []
       ∨ ∃ h, head (probe (key e) m) = Some h ∧ 0 < ExpEntry_compare e h).
Proof.
  unfold link_entry.
  destruct (m !! key e) as [chain|] eqn:Hk.
  - destruct (ExpEntryEx_find (move e) chain) as [i|] eqn:Hf; simpl; [done|].
    intros _. rewrite probe_insert, decide_True by done.
    unfold probe. rewrite Hk. simpl. split; [apply insert_sorted_splice|].
    apply find_None in Hf.
    destruct chain as [|h rest].
    + simpl. split; [by left | done].
    + destruct (0 <? ExpEntry_compare e h) eqn:E.
      * cbn [insert_sorted]. rewrite E. simpl.
        split; [|done]. intros _. right. exists h. split; [done|].
        by apply Z.ltb_lt.
      * rewrite insert_sorted_skip by done. simpl.
        split.
        -- intros ?; simplify_eq. exfalso. apply Hf. simpl. left.
        -- intros [?|(h' & ? & Hlt)]; [done|]. simplify_eq.
           apply Z.ltb_ge in E. lia.
  - simpl. intros _. rewrite probe_insert, decide_True by done.
    unfold probe. rewrite Hk. simpl. split.
    + by exists [], [].
    + split; [by left | done].
Qed.

End IndexMore.

Section IndexMoreExamples.
#[local] Existing Instance demo_params.

(** The depth-7 record goes into the chain of the depth-10 and depth-5
    records without moving them. *)
Lemma link_entry_splices_witness :
  ∃ l1 l2,
    probe 1 (link_entry rec_shallow (link_entry rec_deep ∅).2).2 = l1 ++ l2
    ∧ probe 1 demo_index = l1 ++ rec_middle :: l2.
Proof.
  apply (link_entry_splices (link_entry rec_shallow (link_entry rec_deep ∅).2).2
           rec_middle).
  reflexivity.
Defined.

End IndexMoreExamples.

(** ** Loading, further *)

Section LoadMore.
Context `{Params}.

(** [_load] reads: the one thing it does to the world is the opening of
    its stream. *)
Lemma _load_world fn st w : (_load fn st w).2 = log (CallOpenIn (map_path fn)) w.
Proof.
  unfold _load.
  destruct (if open_fails _ _ then _ else _) as [bytes|]; [|done].
  destruct (_ =? 0); [done|].
  destruct (negb _); [done|].
  destruct (malloc_fails _ 0); [done|].
  destruct (in_read _ _) as [[sig rest]|]; [|done].
  destruct (negb _); [done|].
  destruct (malloc_fails _ 1); [done|].
  destruct (load_entries _ _ _ _ _ _); [|done].
  by destruct (_abortLoading st).
Qed.

Lemma load_world fn sync st w : (load fn sync st w).2 = log (CallOpenIn (map_path fn)) w.
Proof.
  unfold load. pose proof (_load_world fn
    {| _filename := fn; _expExData := _expExData st; _mainExp := _mainExp st;
       _newPvExp := _newPvExp st; _newMultiPvExp := _newMultiPvExp st;
       _abortLoading := _abortLoading st; _loadingResult := false |} w) as Hw.
  by destruct (_load _ _ _) as [[r st2] w2].
Qed.

(** The size test of [_load] lets through the files of five bytes and a
    whole number of records, and no others. *)
Lemma size_check (len : nat) :
  len ≠ 0%nat →
  (size_t_sub (Z.of_nat len) 5 `div` 24 * 24 =? size_t_sub (Z.of_nat len) 5) = true →
  (5 ≤ len)%nat ∧ size_t_sub (Z.of_nat len) 5 = Z.of_nat (len - 5)
  ∧ ((len - 5) `mod` 24 = 0)%nat
  ∧ Z.to_nat (size_t_sub (Z.of_nat len) 5 `div` 24) = ((len - 5) `div` 24)%nat.
Proof.
  intros Hne Hsize. apply Z.eqb_eq in Hsize.
  assert (5 ≤ len)%nat as Hge.
  { destruct (decide (5 ≤ len)%nat) as [|Hlt]; [done|]. exfalso.
    assert (len = 1 ∨ len = 2 ∨ len = 3 ∨ len = 4)%nat as Hcases by lia.
    destruct Hcases as [Hc|[Hc|[Hc|Hc]]]; rewrite Hc in Hsize;
      vm_compute in Hsize; discriminate. }
  assert (size_t_sub (Z.of_nat len) 5 = Z.of_nat (len - 5)) as Hsub.
  { unfold size_t_sub. rewrite (proj2 (Z.ltb_ge _ _)) by lia. lia. }
  rewrite Hsub in *. split_and!; [done | done | |].
  - apply Nat2Z.inj. rewrite Nat2Z.inj_mod. change (Z.of_nat 24) with 24.
    rewrite <- Hsize. change (Z.of_nat 0) with 0. apply Z.mod_mul. lia.
  - change 24 with (Z.of_nat 24). rewrite <- Nat2Z.inj_div. apply Nat2Z.id.
Qed.

Lemma node_count_insert_None k (c : Chain) (m : gmap Z Chain) :
  m !! k = None → node_count (<[k:=c]> m) = (length c + node_count m)%nat.
Proof.
  intros Hk. unfold node_count.
  rewrite (flat_map_perm _ _ _ (map_to_list_insert m k c Hk)). simpl.
  by rewrite length_app.
Qed.

Lemma node_count_insert_Some k (c c0 : Chain) (m : gmap Z Chain) :
  m !! k = Some c0 →
  (node_count (<[k:=c]> m) + length c0 = length c + node_count m)%nat.
Proof.
  intros Hk.
  rewrite <- (insert_delete_eq m k c).
  rewrite <- (insert_delete_id m k c0 Hk) at 2.
  rewrite !node_count_insert_None by apply lookup_delete_eq. lia.
Qed.

(** The node count follows the answers of [link_entry]. *)
Lemma link_entry_node_count (e : ExpEntry) (m : gmap Z Chain) :
  node_count (link_entry e m).2
  = (node_count m + if (link_entry e m).1 then 1 else 0)%nat.
Proof.
  unfold link_entry. destruct (m !! key e) as [chain|] eqn:Hk.
  - destruct (ExpEntryEx_find (move e) chain) as [i|]; simpl.
    + pose proof (node_count_insert_Some (key e)
                    (alter (λ x, ExpEntry_merge x e) i chain) chain m Hk) as Hc.
      rewrite length_alter in Hc. lia.
    + pose proof (node_count_insert_Some (key e)
                    (insert_sorted e true chain) chain m Hk) as Hc.
      rewrite insert_sorted_length in Hc. lia.
  - simpl. rewrite node_count_insert_None by done. simpl. lia.
Qed.

(** A record loop that runs to its end has read [count] records. *)
Lemma load_entries_done count i rest m d m' d' :
  load_entries count i false rest m d = LoopDone m' d' →
  (node_count m' + d' = node_count m + d + count)%nat
  ∧ (d' ≤ d + count)%nat
  ∧ (index_ok m → index_ok m').
Proof.
  revert i rest m d. induction count as [|count IH]; intros i rest m d; simpl.
  - intros ?; simplify_eq. split_and!; [lia | lia | done].
  - destruct (in_read _ _) as [[bs rest']|]; [|done].
    pose proof (link_entry_node_count (decode bs) m) as Hc.
    pose proof (link_entry_index_ok m (decode bs)) as Hok.
    destruct (link_entry (decode bs) m) as [fresh m1]. simpl in *.
    intros Hl. apply IH in Hl as (Hl & Hd & Hok'). split_and!; [| |auto].
    + destruct fresh; lia.
    + destruct fresh; lia.
Qed.

(** X3 (the statistics of a load): when [_load] succeeds on a file it
    has read [(size - 5) / 24] records; the nodes of the index have grown
    by that number less the duplicates it reports; one raw block is added
    to the blocks to release, the pending records are as before, and no
    file has changed. *)
Theorem _load_counts fn st w (bytes : list byte) d :
  files w !! map_path fn = Some bytes →
  (_load fn st w).1.1 = Loaded d →
  let st' := (_load fn st w).1.2 in
  let expCount := ((length bytes - 5) `div` 24)%nat in
  (5 ≤ length bytes)%nat ∧ ((length bytes - 5) `mod` 24 = 0)%nat
  ∧ take 5 bytes = ExperienceSignature
  ∧ (d ≤ expCount)%nat
  ∧ (node_count (_mainExp st') + d = node_count (_mainExp st) + expCount)%nat
  ∧ _expExData st' = _expExData st ++ [expCount]
  ∧ _newPvExp st' = _newPvExp st ∧ _newMultiPvExp st' = _newMultiPvExp st
  ∧ files (_load fn st w).2 = files w.
Proof.
  intros Hfile. rewrite _load_world. unfold _load.
  destruct (open_fails _ _); [done|]. rewrite Hfile.
  change (Z.of_nat ExperienceSignatureLength) with 5.
  change ExperienceSignatureLength with 5%nat.
  change (Z.of_nat sizeof_ExpEntry) with 24.
  destruct (Z.eqb_spec (Z.of_nat (length bytes)) 0) as [|Hne]; [done|].
  destruct (negb _) eqn:Hsize; [done|].
  apply negb_false_iff in Hsize.
  destruct (size_check (length bytes) ltac:(lia) Hsize) as (Hge & Hsub & Hmod & Hcount).
  rewrite Hcount.
  destruct (malloc_fails _ 0); [done|].
  destruct (in_read 5 _) as [[sig rest]|] eqn:Hread; [|done].
  destruct (bool_decide (sig = ExperienceSignature)) eqn:Hsig; [|done].
  apply bool_decide_eq_true in Hsig. simpl.
  destruct (malloc_fails _ 1); [done|].
  destruct (_abortLoading st) eqn:Habort.
  { by destruct (load_entries _ _ _ _ _ _). }
  destruct (load_entries _ _ _ _ _ _) as [m' d'|] eqn:Hloop; [|done].
  simpl. intros ?; simplify_eq.
  apply load_entries_done in Hloop as (Hloop & Hd & _).
  split_and!; try done; try lia.
  unfold in_read in Hread. case_decide as Hlen; [|done].
  injection Hread as Hsig _. rewrite <- Hsig.
  destruct (read_limit _ _) as [n|]; [|done].
  rewrite length_take in Hlen. rewrite take_take.
  by replace (5 `min` n)%nat with 5%nat by lia.
Qed.

(** X4 (what a load rejects): a file that is not there, that is shorter
    than the signature, whose payload is not a whole number of records, or
    that does not begin with the signature makes [load] answer [false];
    the store keeps its raw blocks, its index and its pending records,
    takes the file name and a [false] loading result, and no file
    changes. *)
Theorem load_rejects fn st w :
  files w !! map_path fn = None
  ∨ (∃ bytes, files w !! map_path fn = Some bytes
       ∧ ((length bytes < 5)%nat
          ∨ ((length bytes - 5) `mod` sizeof_ExpEntry ≠ 0)%nat
          ∨ take 5 bytes ≠ ExperienceSignature)) →
  (load fn true st w).1.1 = false
  ∧ (load fn true st w).1.2
    = {| _filename := fn; _expExData := _expExData st; _mainExp := _mainExp st;
         _newPvExp := _newPvExp st; _newMultiPvExp := _newMultiPvExp st;
         _abortLoading := _abortLoading st; _loadingResult := false |}
  ∧ files (load fn true st w).2 = files w.
Proof.
  intros Hbad. rewrite load_world. unfold load.
  set (st1 := {| _filename := fn; _loadingResult := false |}).
  assert (load_ok (_load fn st1 w).1.1 = false ∧ (_load fn st1 w).1.2 = st1)
    as [Hr Hst].
  { destruct Hbad as [Hnone|(bytes & Hfile & Hbad)].
    - unfold _load. rewrite Hnone. by destruct (open_fails _ _).
    - by eapply _load_corrupt. }
  destruct (_load fn st1 w) as [[r st2] w2]. simpl in *. subst st2.
  by rewrite Hr.
Qed.

(** X5 (a successful load keeps the index well formed): if every chain
    is non-empty, holds only nodes of its own fingerprint and holds no
    move twice, the same is true after a load whose result is [true]; in
    particular the head that [probe] returns for a fingerprint carries
    that fingerprint, as the assertion in [probe] demands. *)
Theorem load_keeps_index_ok fn sync st w :
  index_ok (_mainExp st) →
  _loadingResult (load fn sync st w).1.2 = true →
  index_ok (_mainExp (load fn sync st w).1.2)
  ∧ ∀ k e, head (probe k (_mainExp (load fn sync st w).1.2)) = Some e → key e = k.
Proof.
  intros Hok Hres.
  assert (index_ok (_mainExp (load fn sync st w).1.2)) as Hok'.
  { rewrite load_mainExp. revert Hres. unfold load.
    set (st1 := {| _filename := fn; _loadingResult := false |}).
    assert (_mainExp st1 = _mainExp st) as Hm by done.
    destruct (_load fn st1 w) as [[r st2] w2] eqn:Hl. simpl. intros Hr.
    assert (st2 = (_load fn st1 w).1.2) as -> by by rewrite Hl.
    assert (r = (_load fn st1 w).1.1) as -> by by rewrite Hl.
    clear Hl. revert Hr. unfold _load.
    destruct (if open_fails _ _ then _ else _) as [bytes|]; [|done].
    destruct (_ =? 0); [done|].
    destruct (negb _); [done|].
    destruct (malloc_fails _ 0); [done|].
    destruct (in_read _ _) as [[sig rest]|]; [|done].
    destruct (negb _); [done|].
    destruct (malloc_fails _ 1); [done|].
    destruct (_abortLoading st1) eqn:Habort.
    { by destruct (load_entries _ _ _ _ _ _). }
    destruct (load_entries _ _ _ _ _ _) as [m' d'|] eqn:Hloop; [|done].
    simpl. intros _. apply load_entries_done in Hloop as (_ & _ & Hloop).
    apply Hloop. by rewrite Hm. }
  split; [done|]. intros k e. unfold probe.
  destruct (_ !! k) as [chain|] eqn:Hk; simpl; [|done].
  destruct (Hok' k chain Hk) as (_ & Hkeys & _).
  destruct chain as [|x chain]; simpl; [done|].
  intros ?; simplify_eq. by apply Forall_cons in Hkeys as [? _].
Qed.

End LoadMore.

Section LoadMoreExamples.
#[local] Existing Instance demo_params.

(** The one-record file: one record read, no duplicate, one node more. *)
Lemma _load_counts_witness :
  (node_count (_mainExp (_load "SugaR.exp" new_ExperienceData
                           (world_with_file no_faults)).1.2) + 0
   = node_count (_mainExp new_ExperienceData) + (length old_file - 5) `div` 24)%nat.
Proof.
  assert (files (world_with_file no_faults) !! map_path "SugaR.exp" = Some old_file)
    as Hfile by (vm_compute; reflexivity).
  assert ((_load "SugaR.exp" new_ExperienceData (world_with_file no_faults)).1.1
          = Loaded 0) as Hres by (vm_compute; reflexivity).
  exact (proj1 (proj2 (proj2 (proj2 (proj2
           (_load_counts "SugaR.exp" new_ExperienceData (world_with_file no_faults)
              old_file 0 Hfile Hres)))))).
Defined.

(** No file at all: the pending record of the store survives the
    refused load. *)
Lemma load_rejects_witness :
  (load "SugaR.exp" true pending_store empty_world).1.1 = false.
Proof.
  assert (files empty_world !! map_path "SugaR.exp" = None) as Hnone
    by (vm_compute; reflexivity).
  exact (proj1 (load_rejects "SugaR.exp" pending_store empty_world (or_introl Hnone))).
Defined.

Lemma load_keeps_index_ok_witness :
  index_ok (_mainExp (load "SugaR.exp" true new_ExperienceData
                        (world_with_file no_faults)).1.2).
Proof.
  assert (index_ok (_mainExp new_ExperienceData)) as Hok.
  { intros k c Hc. change (_mainExp new_ExperienceData) with (∅ : gmap Z Chain) in Hc.
    by rewrite lookup_empty in Hc. }
  assert (_loadingResult (load "SugaR.exp" true new_ExperienceData
                            (world_with_file no_faults)).1.2 = true) as Hres
    by (vm_compute; reflexivity).
  exact (proj1 (load_keeps_index_ok "SugaR.exp" true new_ExperienceData
                  (world_with_file no_faults) Hok Hres)).
Defined.

End LoadMoreExamples.

(** ** Saving, further *)

Section SaveMore.
Context `{Params} `{Iteration}.

Lemma c_remove_frame p w :
  faults (c_remove p w).2 = faults w
  ∧ ∀ q, q ≠ p → files (c_remove p w).2 !! q = files w !! q.
Proof.
  unfold c_remove. destruct (remove_fails _ _); [done|].
  destruct (files w !! p); [|done]. simpl. split; [done|].
  intros q Hq. by rewrite lookup_delete_ne.
Qed.

Lemma c_rename_frame p q w :
  faults (c_rename p q w).2 = faults w
  ∧ ∀ x, x ≠ p → x ≠ q → files (c_rename p q w).2 !! x = files w !! x.
Proof.
  unfold c_rename. destruct (rename_fails _ _ _); [done|].
  destruct (files w !! p); [|done]. simpl. split; [done|].
  intros x Hp Hq. by rewrite lookup_insert_ne, lookup_delete_ne.
Qed.

(** The backup step touches the target and its [.bak] and nothing
    else. *)
Lemma create_backup_frame p saveAll w :
  faults (create_backup p saveAll w).2 = faults w
  ∧ ∀ q, q ≠ p → q ≠ p +:+ ".bak" →
         files (create_backup p saveAll w).2 !! q = files w !! q.
Proof.
  unfold create_backup. destruct (saveAll && file_exists p w); [|done].
  destruct (file_exists (p +:+ ".bak") w).
  - destruct (c_remove_frame (p +:+ ".bak") w) as [Hf Hq].
    destruct (c_remove (p +:+ ".bak") w) as [[] w1]; simpl in *.
    + rewrite bak_nonempty. simpl.
      destruct (c_rename_frame p (p +:+ ".bak") w1) as [Hf' Hq'].
      destruct (c_rename p (p +:+ ".bak") w1) as [ok w2]. simpl in *.
      split; [congruence|]. intros q Hp Hb. rewrite Hq', Hq; done.
    + split; [done|]. intros q _ Hb. by apply Hq.
  - rewrite bak_nonempty. simpl.
    destruct (c_rename_frame p (p +:+ ".bak") w) as [Hf' Hq'].
    by destruct (c_rename p (p +:+ ".bak") w) as [ok w2].
Qed.

Lemma create_backup_name p saveAll w :
  (create_backup p saveAll w).1 = "" ∨ (create_backup p saveAll w).1 = p +:+ ".bak".
Proof.
  unfold create_backup. destruct (saveAll && file_exists p w); [|by left].
  destruct (file_exists (p +:+ ".bak") w).
  - destruct (c_remove (p +:+ ".bak") w) as [[] w1]; simpl.
    + rewrite bak_nonempty. simpl.
      destruct (c_rename p (p +:+ ".bak") w1) as [[] w2]; auto.
    + by left.
  - rewrite bak_nonempty. simpl.
    destruct (c_rename p (p +:+ ".bak") w) as [[] w2]; auto.
Qed.

(** The three ways through [save]: the early return; the backup step
    and [_save]; and, after a failed [_save] with a backup made, the
    rename that puts the backup back. *)
Lemma save_cases fn saveAll st w :
  let b := create_backup (map_path fn) saveAll w in
  let s := _save fn saveAll st b.2 in
  save fn saveAll st w = (st, w)
  ∨ save fn saveAll st w = (s.1.2, s.2)
  ∨ (saveAll = true ∧ s.1.1 = false
     ∧ save fn saveAll st w
       = (s.1.2, (c_rename (map_path fn +:+ ".bak") (map_path fn) s.2).2)).
Proof.
  intros b s. unfold save. destruct (nothing_to_save saveAll st); [by left|].
  right.
  pose proof (create_backup_name (map_path fn) saveAll w) as Hname.
  assert (saveAll = false → b.1 = "") as Hinc by (by intros ->).
  fold b in Hname |- *. destruct b as [backup w1]. simpl in *.
  fold s. destruct s as [[ok st2] w2]. simpl.
  destruct ok; simpl; [by left|].
  destruct Hname as [->| ->]; simpl; [by left|].
  rewrite bak_nonempty. simpl. right.
  destruct saveAll.
  - split_and!; [done | done |]. by destruct (c_rename _ _ w2).
  - specialize (Hinc eq_refl). pose proof (bak_nonempty (map_path fn)) as Hb.
    by rewrite Hinc in Hb.
Qed.

(** The files [save] can touch. *)
Lemma save_touches fn saveAll st w :
  _mainExp (save fn saveAll st w).1 = _mainExp st
  ∧ faults (save fn saveAll st w).2 = faults w
  ∧ (∀ q, q ≠ map_path fn → q ≠ map_path fn +:+ ".bak" →
          files (save fn saveAll st w).2 !! q = files w !! q).
Proof.
  destruct (create_backup_frame (map_path fn) saveAll w) as [Hf1 Hq1].
  set (w1 := (create_backup (map_path fn) saveAll w).2) in *.
  pose proof (_save_store fn saveAll st w1) as Hst.
  destruct (_save_appends fn saveAll st w1) as [(Hf2 & Hq2 & _) _].
  destruct (c_rename_frame (map_path fn +:+ ".bak") (map_path fn)
              (_save fn saveAll st w1).2) as [Hf3 Hq3].
  assert (_mainExp (_save fn saveAll st w1).1.2 = _mainExp st) as Hm.
  { rewrite Hst. by destruct (_save fn saveAll st w1).1.1. }
  destruct (save_cases fn saveAll st w) as [->|[->|(_ & _ & ->)]]; simpl.
  - done.
  - fold w1. split_and!; [done | congruence |].
    intros q Hp Hbak. rewrite Hq2, Hq1; done.
  - fold w1. split_and!; [done | congruence |].
    intros q Hp Hbak. rewrite Hq3, Hq2, Hq1; done.
Qed.

(** X6 (what a save leaves alone): whatever the operating system
    refuses, [save] never changes the index, the raw blocks or the file
    name of the store; the pending records are either all kept or all
    dropped; and no file is touched but the target and its [.bak].  An
    incremental save, moreover, creates, removes and renames nothing: it
    only appends to the target. *)
Theorem save_frame fn saveAll st w :
  let r := save fn saveAll st w in
  (r.1 = st ∨ r.1 = clear_new_exp st)
  ∧ _mainExp r.1 = _mainExp st ∧ _expExData r.1 = _expExData st
  ∧ _filename r.1 = _filename st
  ∧ faults r.2 = faults w
  ∧ (∀ q, q ≠ map_path fn → q ≠ map_path fn +:+ ".bak" →
          files r.2 !! q = files w !! q)
  ∧ (saveAll = false → appends (map_path fn) w r.2).
Proof.
  intros r. destruct (save_touches fn saveAll st w) as (Hm & Hf & Hq). fold r in Hm, Hf, Hq.
  set (w1 := (create_backup (map_path fn) saveAll w).2).
  pose proof (_save_store fn saveAll st w1) as Hst.
  assert (r.1 = st ∨ r.1 = clear_new_exp st) as Hcases.
  { unfold r. destruct (save_cases fn saveAll st w) as [->|[->|(_ & _ & ->)]];
      simpl; fold w1; [by left | |]; rewrite Hst;
      destruct (_save fn saveAll st w1).1.1; auto. }
  split_and!; try done.
  - by destruct Hcases as [->| ->].
  - by destruct Hcases as [->| ->].
  - intros ->. unfold r.
    destruct (save_cases fn false st w) as [->|[->|(? & _)]]; simpl.
    + apply appends_refl.
    + by destruct (_save_appends fn false st w).
    + done.
Qed.

(** A [_save] whose stream opens and whose writes go through leaves
    the target in place, with the old bytes, the signature if there were
    none, and the records. *)
Lemma _save_ok_file fn saveAll st w :
  open_fails (faults w) (map_path fn) = false → writes_succeed w →
  files (_save fn saveAll st w).2 !! map_path fn
  = Some (content (map_path fn) w
            ++ (if Nat.eqb (length (content (map_path fn) w)) 0
                then ExperienceSignature else [])
            ++ flat_map encode (saved_records saveAll st)).
Proof.
  intros Hopen Hwrite.
  destruct (_save_ok fn saveAll st w Hopen Hwrite) as [_ Hcont].
  destruct (_save_appends fn saveAll st w) as [(_ & _ & _ & Hsome & _) _].
  rewrite <- Hcont. unfold content in *.
  destruct (files (_save fn saveAll st w).2 !! map_path fn) as [bs|] eqn:Hafter;
    [done|].
  exfalso. destruct (files w !! map_path fn) as [old|] eqn:Hbefore.
  - by destruct Hsome as [? ?].
  - simpl in Hcont. by destruct (flat_map encode _).
Qed.

Lemma link_all_app (l1 l2 : list ExpEntry) m :
  link_all (l1 ++ l2) m = link_all l2 (link_all l1 m).
Proof. unfold link_all. apply fold_left_app. Qed.

(** With pending records an incremental save is [_save] and nothing
    before or after it. *)
Lemma save_pending fn st w :
  has_new_exp st = true →
  save fn false st w = ((_save fn false st w).1.2, (_save fn false st w).2).
Proof.
  intros Hnew. unfold save, nothing_to_save. rewrite Hnew. simpl.
  by destruct (_save fn false st w) as [[[] st2] w2].
Qed.

(** X7 (the incremental save): with pending records, a stream that
    opens and writes that go through, [save(fn, false)] appends to the
    target the signature, if the file was missing or empty, and then the
    24 bytes of every pending record whose depth reaches
    [MIN_EXP_DEPTH], the PV records first, each group in the order in
    which it was added; the records of the index are not written again,
    the pending records are dropped from the store, and every other
    file, a [.bak] among them, is as before. *)
Theorem save_incremental fn st w :
  has_new_exp st = true →
  open_fails (faults w) (map_path fn) = false →
  writes_succeed w →
  let r := save fn false st w in
  r.1 = clear_new_exp st
  ∧ files r.2 !! map_path fn
    = Some (content (map_path fn) w
              ++ (if Nat.eqb (length (content (map_path fn) w)) 0
                  then ExperienceSignature else [])
              ++ flat_map encode
                   (filter qualifies (_newPvExp st)
                      ++ filter qualifies (_newMultiPvExp st)))
  ∧ (∀ q, q ≠ map_path fn → files r.2 !! q = files w !! q)
  ∧ faults r.2 = faults w.
Proof.
  intros Hnew Hopen Hwrite. rewrite save_pending by done. simpl.
  destruct (_save_ok fn false st w Hopen Hwrite) as [Hst _].
  pose proof (_save_ok_file fn false st w Hopen Hwrite) as Hfile.
  destruct (_save_appends fn false st w) as [(Hf & Hq & _) _].
  rewrite Hst. done.
Qed.

(** X8 (pending experience becomes visible by a save and a load): the
    pending records are not in the index that [probe] reads.  On a file
    system that refuses nothing, when the target is missing, empty, or
    an experience file of the records [l], an incremental save followed
    by a load into a fresh store succeeds and gives the index of [l]
    with the pending records that reach [MIN_EXP_DEPTH] linked after
    them, PV records first. *)
Theorem incremental_save_then_load fn st w (l : list ExpEntry) :
  has_new_exp st = true →
  fault_free (faults w) →
  (content (map_path fn) w = [] ∧ l = [])
  ∨ files w !! map_path fn = Some (ExperienceSignature ++ flat_map encode l) →
  Forall entry_in_range l →
  Forall entry_in_range (_newPvExp st) →
  Forall entry_in_range (_newMultiPvExp st) →
  let saved := save fn false st w in
  let loaded := load fn true new_ExperienceData saved.2 in
  _mainExp saved.1 = _mainExp st
  ∧ loaded.1.1 = true
  ∧ _mainExp loaded.1.2
    = link_all (filter qualifies (_newPvExp st) ++ filter qualifies (_newMultiPvExp st))
        (link_all l ∅).
Proof.
  intros Hnew Hff Hold Hl Hpv Hmpv saved loaded.
  pose proof Hff as (_ & _ & Hopen & Hwrite & _).
  assert (saved.1 = clear_new_exp st) as Hst.
  { unfold saved. rewrite save_pending by done. simpl.
    by destruct (_save_ok fn false st w (Hopen _) Hwrite) as [-> _]. }
  pose proof (_save_ok_file fn false st w (Hopen _) Hwrite) as Hfile.
  destruct (_save_appends fn false st w) as [(Hfaults & _) _].
  change (saved_records false st)
    with (filter qualifies (_newPvExp st) ++ filter qualifies (_newMultiPvExp st))
    in Hfile.
  replace (_save fn false st w).2 with saved.2 in Hfile, Hfaults
    by (unfold saved; by rewrite save_pending).
  set (new := filter qualifies (_newPvExp st) ++ filter qualifies (_newMultiPvExp st))
    in *.
  assert (files saved.2 !! map_path fn
          = Some (ExperienceSignature ++ flat_map encode (l ++ new))) as Hfile'.
  { rewrite Hfile. f_equal. destruct Hold as [[Hempty ->]|Hsome].
    - rewrite Hempty. simpl. done.
    - unfold content. rewrite Hsome. simpl.
      by rewrite flat_map_app. }
  assert (Forall entry_in_range (l ++ new)) as Hrange.
  { apply Forall_app. split; [done|]. apply Forall_app.
    split; apply Forall_forall; intros x Hx;
      apply list_elem_of_filter in Hx as [_ Hx];
      [rewrite Forall_forall in Hpv | rewrite Forall_forall in Hmpv]; auto. }
  assert (fault_free (faults saved.2)) as Hff' by (by rewrite Hfaults).
  set (st0 := {| _filename := fn; _expExData := _expExData new_ExperienceData;
                 _mainExp := _mainExp new_ExperienceData;
                 _newPvExp := _newPvExp new_ExperienceData;
                 _newMultiPvExp := _newMultiPvExp new_ExperienceData;
                 _abortLoading := _abortLoading new_ExperienceData;
                 _loadingResult := false |}).
  destruct (_load_file fn st0 saved.2 (l ++ new) Hfile' Hrange Hff' eq_refl)
    as [d Hload].
  split_and!.
  - by rewrite Hst.
  - unfold loaded. rewrite load_reports. fold st0. by rewrite Hload.
  - unfold loaded. rewrite load_mainExp. fold st0. rewrite Hload. simpl.
    apply link_all_app.
Qed.

End SaveMore.

Section SaveMoreExamples.
#[local] Existing Instance demo_params.
#[local] Existing Instance demo_iteration.

(** One pending record and no file: the file is created with the
    signature and the record. *)
Lemma save_incremental_witness :
  files (save "SugaR.exp" false pending_store empty_world).2 !! "SugaR.exp"
  = Some (ExperienceSignature ++ encode (mkExpEntry 1 11 0 10)).
Proof.
  assert (writes_succeed empty_world) as Hwrite by done.
  destruct (save_incremental "SugaR.exp" pending_store empty_world
              eq_refl eq_refl Hwrite) as (_ & Hfile & _).
  etrans; [exact Hfile|]. vm_compute. reflexivity.
Defined.

(** The same save, loaded again: the record is in the index. *)
Lemma incremental_save_then_load_witness :
  _mainExp (load "SugaR.exp" true new_ExperienceData
              (save "SugaR.exp" false pending_store empty_world).2).1.2
  = link_all [mkExpEntry 1 11 0 10] ∅.
Proof.
  assert (Forall entry_in_range (_newPvExp pending_store)) as Hpv.
  { repeat constructor; vm_compute; intuition discriminate. }
  destruct (incremental_save_then_load "SugaR.exp" pending_store empty_world []
              eq_refl no_faults_fault_free (or_introl (conj eq_refl eq_refl))
              (Forall_nil_2 _) Hpv (Forall_nil_2 _)) as (_ & _ & Hm).
  exact Hm.
Defined.

End SaveMoreExamples.

(** ** The commands *)

Section CommandsMore.
Context `{Params} `{Iteration} `{Utility}.

(** A load of a well-formed file, in full. *)
Lemma load_file fn st w (l : list ExpEntry) :
  files w !! map_path fn = Some (ExperienceSignature ++ flat_map encode l) →
  Forall entry_in_range l →
  fault_free (faults w) → _abortLoading st = false →
  load fn true st w
  = (true,
     {| _filename := fn; _expExData := _expExData st ++ [length l];
        _mainExp := link_all l (_mainExp st);
        _newPvExp := _newPvExp st; _newMultiPvExp := _newMultiPvExp st;
        _abortLoading := false; _loadingResult := true |},
     log (CallOpenIn (map_path fn)) w).
Proof.
  intros Hfile Hl Hff Habort. unfold load.
  set (st1 := {| _filename := fn; _loadingResult := false |}).
  destruct (_load_file fn st1 w l Hfile Hl Hff Habort) as [d Hload].
  pose proof (_load_world fn st1 w) as Hw.
  destruct (_load fn st1 w) as [[r st2] w2]. simpl in *.
  injection Hload as -> ->. subst w2. simpl. by rewrite Habort.
Qed.

(** A load of a file that is not there, in full. *)
Lemma load_missing fn sync st w :
  files w !! map_path fn = None →
  load fn sync st w
  = (negb sync,
     {| _filename := fn; _expExData := _expExData st; _mainExp := _mainExp st;
        _newPvExp := _newPvExp st; _newMultiPvExp := _newMultiPvExp st;
        _abortLoading := _abortLoading st; _loadingResult := false |},
     log (CallOpenIn (map_path fn)) w).
Proof.
  intros Hnone. unfold load, _load. rewrite Hnone.
  destruct (open_fails _ _); by destruct sync.
Qed.

(** What a full save of a store without pending records leaves on a
    file system that refuses nothing: the records of the index under the
    target name, and the bytes the target held before under [.bak]. *)
Lemma save_full_file fn st w :
  _mainExp st ≠ ∅ → _newPvExp st = [] → _newMultiPvExp st = [] →
  fault_free (faults w) →
  let r := save fn true st w in
  files r.2 !! map_path fn
  = Some (ExperienceSignature ++ flat_map encode (index_entries (_mainExp st)))
  ∧ (∀ original, files w !! map_path fn = Some original →
       files r.2 !! (map_path fn +:+ ".bak") = Some original).
Proof.
  intros Hne Hpv Hmpv Hff. pose proof Hff as (Hrm & Hrn & Hopen & Hwrite & _).
  assert (nothing_to_save true st = false) as Hn.
  { apply not_true_is_false. rewrite nothing_to_save_spec.
    intros [_ [?|Hsz]]; [done|]. by apply map_size_empty_iff in Hsz. }
  unfold save. rewrite Hn.
  assert (∃ w1, (create_backup (map_path fn) true w).2 = w1
                ∧ faults w1 = faults w ∧ files w1 !! map_path fn = None
                ∧ ∀ original, files w !! map_path fn = Some original →
                    files w1 !! (map_path fn +:+ ".bak") = Some original)
    as (w1 & Hw1 & Hf1 & Hgone & Hbak).
  { eexists. split; [done|].
    destruct (files w !! map_path fn) as [original|] eqn:Hfile.
    - destruct (create_backup_made (map_path fn) w original Hfile (Hrm _) (Hrn _ _))
        as (_ & ? & ? & ?).
      split_and!; try done. by intros ? [= <-].
    - unfold create_backup, file_exists.
      rewrite bool_decide_eq_false_2 by (rewrite Hfile; by intros [? ?]).
      simpl. done. }
  destruct (create_backup (map_path fn) true w) as [backup w1']. simpl in Hw1.
  subst w1'.
  assert (writes_succeed w1) as Hwrite1.
  { intros k. rewrite Hf1. apply Hwrite. }
  assert (open_fails (faults w1) (map_path fn) = false) as Hopen1.
  { rewrite Hf1. apply Hopen. }
  destruct (_save_ok fn true st w1 Hopen1 Hwrite1) as [Hst _].
  pose proof (_save_ok_file fn true st w1 Hopen1 Hwrite1) as Hfile.
  destruct (_save_appends fn true st w1) as [(_ & Hq & _) _].
  destruct (_save fn true st w1) as [[ok st2] w2]. simpl in *.
  injection Hst as -> ->. simpl. split.
  - rewrite Hfile. unfold content. rewrite Hgone. simpl.
    unfold saved_records. rewrite Hpv, Hmpv. simpl. by rewrite app_nil_r.
  - intros original Horig. rewrite Hq by apply not_eq_sym, bak_neq. by apply Hbak.
Qed.

Lemma link_entry_lookup (e : ExpEntry) (m : gmap Z Chain) :
  is_Some ((link_entry e m).2 !! key e).
Proof.
  unfold link_entry. destruct (m !! key e) as [chain|].
  - destruct (ExpEntryEx_find _ _); simpl; rewrite lookup_insert_eq; eauto.
  - simpl. rewrite lookup_insert_eq. eauto.
Qed.

Lemma link_all_nonempty (l : list ExpEntry) (m : gmap Z Chain) :
  l ≠ [] → link_all l m ≠ ∅.
Proof.
  destruct l as [|e l _] using rev_ind; [done|]. intros _ Hempty.
  rewrite link_all_app in Hempty. simpl in Hempty.
  destruct (link_entry_lookup e (link_all l m)) as [c Hc].
  by rewrite Hempty, lookup_empty in Hc.
Qed.

Lemma link_all_in_range (l : list ExpEntry) (m : gmap Z Chain) :
  Forall entry_in_range l → index_in_range m → index_in_range (link_all l m).
Proof.
  intros Hl. revert m. induction Hl as [|e l He Hl IH]; intros m Hm; [done|].
  simpl. apply IH. by apply link_entry_in_range.
Qed.

Lemma index_ok_empty : index_ok ∅.
Proof. intros k c Hc. by rewrite lookup_empty in Hc. Qed.

Lemma index_in_range_empty : index_in_range ∅.
Proof. intros k c Hc. by rewrite lookup_empty in Hc. Qed.

(** The records a full save writes for a well-formed index: every node
    that reaches the minimum depth, once. *)
Lemma index_entries_spec (m : gmap Z Chain) :
  iteration_order m ≡ₚ map_to_list m → index_ok m →
  NoDup (node_id <$> index_entries m)
  ∧ Forall qualifies (index_entries m)
  ∧ ∀ k, filter (λ e, key e = k) (index_entries m) ≡ₚ filter qualifies (probe k m).
Proof.
  intros Hperm Hok. unfold index_entries. split_and!.
  - rewrite (flat_map_perm _ _ _ Hperm). by apply map_entries_NoDup.
  - apply Forall_forall. intros e He. apply elem_of_flat_map in He as (x & _ & He).
    by apply list_elem_of_filter in He as [? _].
  - intros k. rewrite (flat_map_perm _ _ _ Hperm). by apply map_entries_of_key.
Qed.

(** The index a load builds from records that name every node once. *)
Lemma link_all_distinct (l : list ExpEntry) :
  NoDup (node_id <$> l) →
  ∀ k, probe k (link_all l ∅) ≡ₚ filter (λ e, key e = k) l.
Proof.
  intros Hnd k. apply (link_all_perm l [] ∅); [|done].
  intros k'. by unfold probe; rewrite lookup_empty.
Qed.

(** X9 (defragmenting): on a file system that refuses nothing, [defrag]
    of an experience file with the records [l], not none, leaves the
    original bytes under [.bak] and writes the file anew: it holds each
    node of the merged index once, the nodes below [MIN_EXP_DEPTH]
    left out, so that a load of the new file gives, for every position,
    the candidates of the old file that reach the minimum depth.  No
    other file changes.  The path is the argument unquoted and mapped
    three times: twice by the command, once more by [load] and
    [save]. *)
Theorem Experience_defrag_rewrites (arg : string) (w : World) (l : list ExpEntry) :
  let p := map_path (map_path (map_path (unquote arg))) in
  fault_free (faults w) →
  (∀ m, iteration_order m ≡ₚ map_to_list m) →
  files w !! p = Some (ExperienceSignature ++ flat_map encode l) →
  Forall entry_in_range l → l ≠ [] →
  let w' := Experience_defrag [arg] w in
  files w' !! (p +:+ ".bak") = Some (ExperienceSignature ++ flat_map encode l)
  ∧ (∃ l', files w' !! p = Some (ExperienceSignature ++ flat_map encode l')
       ∧ NoDup (node_id <$> l') ∧ Forall qualifies l'
       ∧ Forall entry_in_range l'
       ∧ (∀ k, filter (λ e, key e = k) l' ≡ₚ filter qualifies (probe k (link_all l ∅)))
       ∧ (∀ k, probe k (link_all l' ∅) ≡ₚ filter qualifies (probe k (link_all l ∅))))
  ∧ (∀ q, q ≠ p → q ≠ p +:+ ".bak" → files w' !! q = files w !! q).
Proof.
  intros p Hff Hiter Hfile Hl Hne w'.
  set (filename := map_path (map_path (unquote arg))).
  assert (p = map_path filename) as Hp by done.
  assert (w' = (save filename true
                  {| _filename := filename; _expExData := [length l];
                     _mainExp := link_all l ∅; _newPvExp := []; _newMultiPvExp := [];
                     _abortLoading := false; _loadingResult := true |}
                  (log (CallOpenIn p) w)).2) as ->.
  { unfold w', Experience_defrag. fold filename.
    by rewrite (load_file filename new_ExperienceData w l Hfile Hl Hff eq_refl). }
  set (exp := {| _filename := filename; _mainExp := link_all l ∅ |}).
  set (w1 := log (CallOpenIn p) w).
  assert (index_ok (link_all l ∅)) as Hok
    by apply link_all_index_ok, index_ok_empty.
  destruct (save_full_file filename exp w1 (link_all_nonempty l ∅ Hne)
              eq_refl eq_refl Hff) as [Hnew Hbak].
  destruct (index_entries_spec (link_all l ∅) (Hiter _) Hok) as (Hnd & Hq & Hkeys).
  split_and!.
  - rewrite Hp. by apply Hbak.
  - exists (index_entries (link_all l ∅)). split_and!; try done.
    + apply index_entries_in_range; [done|].
      apply link_all_in_range; [done | apply index_in_range_empty].
    + intros k. rewrite link_all_distinct by done. apply Hkeys.
  - intros q Hq1 Hq2.
    destruct (save_touches filename true exp w1) as (_ & _ & Hframe).
    rewrite Hp in Hq1, Hq2. by rewrite (Hframe q Hq1 Hq2).
Qed.

(** A file that holds the signature and no record loads, if it loads,
    into an index that is as before. *)
Lemma load_signature_only fn sync st w :
  files w !! map_path fn = Some ExperienceSignature →
  _mainExp (load fn sync st w).1.2 = _mainExp st
  ∧ _newPvExp (load fn sync st w).1.2 = _newPvExp st
  ∧ _newMultiPvExp (load fn sync st w).1.2 = _newMultiPvExp st.
Proof.
  intros Hfile. unfold load.
  set (st1 := {| _filename := fn; _loadingResult := false |}).
  assert (_mainExp (_load fn st1 w).1.2 = _mainExp st
          ∧ _newPvExp (_load fn st1 w).1.2 = _newPvExp st
          ∧ _newMultiPvExp (_load fn st1 w).1.2 = _newMultiPvExp st) as Hload.
  { unfold _load. destruct (open_fails _ _); [done|]. rewrite Hfile.
    change (Z.of_nat (length ExperienceSignature) =? 0) with false.
    cbv iota.
    change (size_t_sub (Z.of_nat (length ExperienceSignature))
              (Z.of_nat ExperienceSignatureLength)) with 0.
    change (0 `div` Z.of_nat sizeof_ExpEntry) with 0.
    change (negb (0 * Z.of_nat sizeof_ExpEntry =? 0)) with false. cbv iota.
    destruct (malloc_fails _ 0); [done|].
    destruct (in_read _ _) as [[sig rest]|]; [|done].
    destruct (negb _); [done|].
    destruct (malloc_fails _ 1); [done|].
    change (Z.to_nat 0) with 0%nat. simpl.
    by destruct (_abortLoading st). }
  by destruct (_load fn st1 w) as [[r st2] w2].
Qed.

(** X10 (when defragmenting changes nothing): [defrag] leaves every
    file as it is when it is not given exactly one argument, when the
    file is missing, shorter than the signature, not a whole number of
    records behind it, or begins with other bytes, and when the file
    holds the signature and no record, in which case there is nothing to
    write back. *)
Theorem Experience_defrag_refuses (argv : list string) (w : World) :
  length argv ≠ 1%nat
  ∨ (∃ arg, argv = [arg]
       ∧ let p := map_path (map_path (map_path (unquote arg))) in
         files w !! p = None
         ∨ files w !! p = Some ExperienceSignature
         ∨ ∃ bytes, files w !! p = Some bytes
             ∧ ((length bytes < 5)%nat
                ∨ ((length bytes - 5) `mod` sizeof_ExpEntry ≠ 0)%nat
                ∨ take 5 bytes ≠ ExperienceSignature)) →
  files (Experience_defrag argv w) = files w
  ∧ faults (Experience_defrag argv w) = faults w.
Proof.
  intros [Hargc|(arg & -> & Hbad)].
  { unfold Experience_defrag. by destruct argv as [|? [|? ?]]. }
  unfold Experience_defrag.
  set (filename := map_path (map_path (unquote arg))) in *.
  pose proof (load_world filename true new_ExperienceData w) as Hw.
  destruct Hbad as [Hnone|[Hsig|(bytes & Hfile & Hbad)]].
  - rewrite (load_missing filename true new_ExperienceData w Hnone). done.
  - destruct (load_signature_only filename true new_ExperienceData w Hsig)
      as (Hm & Hpv & Hmpv).
    destruct (load filename true new_ExperienceData w) as [[ok exp] w1].
    simpl in *. subst w1. destruct ok; [|done].
    assert (nothing_to_save true exp = true) as Hn.
    { apply nothing_to_save_spec. rewrite Hm, Hpv, Hmpv. split; [done|]. by right. }
    unfold save. by rewrite Hn.
  - assert ((load filename true new_ExperienceData w).1.1 = false) as Hres.
    { rewrite load_reports. by eapply _load_corrupt. }
    destruct (load filename true new_ExperienceData w) as [[ok exp] w1].
    simpl in *. by subst.
Qed.

(** The loop of [merge] links the records of its files one file after
    the other into the one index, and reads only. *)
Lemma load_each_spec (filenames : list string) (ls : list (list ExpEntry)) st w :
  Forall2 (gives (files w)) filenames ls →
  Forall (Forall entry_in_range) ls →
  fault_free (faults w) → _abortLoading st = false →
  let r := load_each filenames st w in
  _mainExp r.1 = link_all (concat ls) (_mainExp st)
  ∧ _newPvExp r.1 = _newPvExp st ∧ _newMultiPvExp r.1 = _newMultiPvExp st
  ∧ files r.2 = files w ∧ faults r.2 = faults w.
Proof.
  intros Hgives. revert filenames st w Hgives.
  induction ls as [|l ls IH]; intros filenames st w Hgives Hrange Hff Habort.
  { apply Forall2_nil_inv_r in Hgives as ->. done. }
  apply Forall2_cons_inv_r in Hgives as (fn & rest & Hfn & Hrest & ->).
  apply Forall_cons in Hrange as [Hl Hls]. simpl.
  rewrite link_all_app.
  destruct Hfn as [Hfile|[Hnone ->]].
  - rewrite (load_file fn st w l Hfile Hl Hff Habort).
    set (st' := {| _filename := fn; _mainExp := link_all l (_mainExp st) |}).
    apply (IH rest st' (log (CallOpenIn (map_path fn)) w)); done.
  - rewrite (load_missing fn true st w Hnone). simpl.
    set (st' := {| _filename := fn; _mainExp := _mainExp st |}).
    apply (IH rest st' (log (CallOpenIn (map_path fn)) w)); done.
Qed.

(** X11 (merging): on a file system that refuses nothing, [merge] of
    two or more files links the records of all of them into one index,
    the target's own first and then each file in the order of the
    arguments, a file that is not there giving nothing; files are only
    read until then.  If there is a record at all, the target then holds
    each node of that index once, without those below [MIN_EXP_DEPTH],
    the bytes it held before are under [.bak], and no other file has
    changed. *)
Theorem Experience_merge_builds (argv : list string) (w : World)
    (ls : list (list ExpEntry)) :
  let target := map_path (map_path (unquote (argv !!! 0%nat))) in
  (2 ≤ length argv)%nat →
  fault_free (faults w) →
  (∀ m, iteration_order m ≡ₚ map_to_list m) →
  Forall2 (gives (files w)) ((λ arg, map_path (unquote arg)) <$> argv) ls →
  Forall (Forall entry_in_range) ls →
  concat ls ≠ [] →
  let r := Experience_merge argv w in
  (∃ exp, r.1 = Some exp ∧ _mainExp exp = link_all (concat ls) ∅)
  ∧ (∃ l', files r.2 !! target = Some (ExperienceSignature ++ flat_map encode l')
       ∧ NoDup (node_id <$> l') ∧ Forall qualifies l'
       ∧ ∀ k, filter (λ e, key e = k) l'
              ≡ₚ filter qualifies (probe k (link_all (concat ls) ∅)))
  ∧ (∀ original, files w !! target = Some original →
       files r.2 !! (target +:+ ".bak") = Some original)
  ∧ (∀ q, q ≠ target → q ≠ target +:+ ".bak" → files r.2 !! q = files w !! q).
Proof.
  intros target Hargc Hff Hiter Hgives Hrange Hne r.
  unfold r, Experience_merge. case_decide as Hlt; [lia|].
  set (filenames := (λ arg, map_path (unquote arg)) <$> argv) in *.
  assert (target = map_path (filenames !!! 0%nat)) as Htarget.
  { unfold target, filenames. destruct argv as [|a0 argv']; [simpl in Hargc; lia|].
    done. }
  destruct (load_each_spec filenames ls new_ExperienceData w Hgives Hrange Hff eq_refl)
    as (Hm & Hpv & Hmpv & Hfiles & Hfaults).
  destruct (load_each filenames new_ExperienceData w) as [exp w1]. simpl in *.
  assert (fault_free (faults w1)) as Hff1 by (by rewrite Hfaults).
  assert (_mainExp exp ≠ ∅) as Hfull.
  { rewrite Hm. by apply link_all_nonempty. }
  assert (index_ok (_mainExp exp)) as Hok.
  { rewrite Hm. apply link_all_index_ok, index_ok_empty. }
  destruct (save_full_file (filenames !!! 0%nat) exp w1 Hfull Hpv Hmpv Hff1)
    as [Hnew Hbak].
  destruct (save_touches (filenames !!! 0%nat) true exp w1)
    as (Hkeep & _ & Hframe).
  destruct (index_entries_spec (_mainExp exp) (Hiter _) Hok) as (Hnd & Hq & Hkeys).
  destruct (save (filenames !!! 0%nat) true exp w1) as [exp' w2]. simpl in *.
  rewrite <- Htarget in *. rewrite Hfiles in *.
  split_and!.
  - exists exp'. split; [done|]. by rewrite Hkeep.
  - exists (index_entries (_mainExp exp)). split_and!; try done.
    intros k. rewrite <- Hm. apply Hkeys.
  - done.
  - done.
Qed.

(** A load leaves the pending records alone. *)
Lemma load_pending fn sync st w :
  _newPvExp (load fn sync st w).1.2 = _newPvExp st
  ∧ _newMultiPvExp (load fn sync st w).1.2 = _newMultiPvExp st
  ∧ _filename (load fn sync st w).1.2 = fn.
Proof.
  unfold load.
  set (st1 := {| _filename := fn; _loadingResult := false |}).
  assert (_newPvExp (_load fn st1 w).1.2 = _newPvExp st
          ∧ _newMultiPvExp (_load fn st1 w).1.2 = _newMultiPvExp st
          ∧ _filename (_load fn st1 w).1.2 = fn) as Hload.
  { unfold _load.
    destruct (if open_fails _ _ then _ else _) as [bytes|]; [|done].
    destruct (_ =? 0); [done|].
    destruct (negb _); [done|].
    destruct (malloc_fails _ 0); [done|].
    destruct (in_read _ _) as [[sig rest]|]; [|done].
    destruct (negb _); [done|].
    destruct (malloc_fails _ 1); [done|].
    destruct (load_entries _ _ _ _ _ _); [|done].
    by destruct (_abortLoading st1). }
  by destruct (_load fn st1 w) as [[r st2] w2].
Qed.

Lemma Experience_save_readonly o g w :
  Experience_Readonly o = true → Experience_save o g w = (g, w).
Proof.
  intros Hro. unfold Experience_save. destruct (currentExperience g); [|done].
  by rewrite Hro, orb_true_r.
Qed.

(** X12 (the read-only option): with "Experience Readonly" set, none of
    [save], [unload], [init] and [reload] changes a file, whatever is
    pending; [save] changes nothing at all, while [unload] drops the
    store together with its pending records. *)
Theorem Experience_readonly_keeps_files o g w :
  Experience_Readonly o = true →
  Experience_save o g w = (g, w)
  ∧ files (Experience_unload o g w).2 = files w
  ∧ currentExperience (Experience_unload o g w).1 = None
  ∧ files (Experience_init o g w).2 = files w
  ∧ files (Experience_reload o g w).2 = files w.
Proof.
  intros Hro.
  assert (∀ g0 w0, Experience_unload o g0 w0
                   = ({| currentExperience := None;
                         experienceEnabled := experienceEnabled g0;
                         learningPaused := learningPaused g0 |}, w0)) as Hunload.
  { intros g0 w0. unfold Experience_unload. by rewrite Experience_save_readonly. }
  assert (∀ g0 w0, files (Experience_init o g0 w0).2 = files w0) as Hinit.
  { intros g0 w0. unfold Experience_init. rewrite !Hunload.
    destruct (negb (Experience_Enabled o)); [done|]. simpl.
    pose proof (load_world (Experience_File o) false new_ExperienceData w0) as Hw.
    destruct (load (Experience_File o) false new_ExperienceData w0) as [[ok exp] w3].
    simpl in Hw. subst w3.
    destruct (currentExperience g0) as [exp0|]; [|done].
    by destruct (_ && _). }
  split_and!.
  - by apply Experience_save_readonly.
  - by rewrite Hunload.
  - by rewrite Hunload.
  - apply Hinit.
  - unfold Experience_reload. destruct (currentExperience g) as [exp|]; [|done].
    destruct (negb (has_new_exp exp)); [done|]. apply Hinit.
Qed.

Lemma Experience_unload_flags o g w :
  currentExperience (Experience_unload o g w).1 = None
  ∧ experienceEnabled (Experience_unload o g w).1 = experienceEnabled g
  ∧ learningPaused (Experience_unload o g w).1 = learningPaused g.
Proof.
  unfold Experience_unload, Experience_save.
  destruct (currentExperience g) as [exp|]; [|done].
  destruct (_ || _); [done|]. by destruct (save _ _ _ _).
Qed.

(** X13 (a loaded store is settled): with experience enabled, [init]
    leaves a store that carries the configured file name.  If its load
    succeeded, a second [init] changes nothing, and neither does
    [reload], even with experience pending: the pending records are
    neither written nor lost, and the file is not read again. *)
Theorem Experience_init_settles o g w :
  Experience_Enabled o = true →
  let r := Experience_init o g w in
  experienceEnabled r.1 = true
  ∧ ∃ exp, currentExperience r.1 = Some exp
      ∧ _filename exp = Experience_File o
      ∧ (_loadingResult exp = true →
         Experience_init o r.1 r.2 = r
         ∧ ∀ k m v d,
             Experience_reload o (Experience_add_pv_experience k m v d r.1) r.2
             = (Experience_add_pv_experience k m v d r.1, r.2)).
Proof.
  intros Hen r.
  assert (∀ g0 w0 exp,
            currentExperience g0 = Some exp → experienceEnabled g0 = true →
            _filename exp = Experience_File o → _loadingResult exp = true →
            Experience_init o g0 w0 = (g0, w0)) as Hsettled.
  { intros g0 w0 exp Hcur Hg Hfn Hres. unfold Experience_init. rewrite Hen. simpl.
    rewrite Hcur, Hfn, Hres, String.eqb_refl. simpl.
    destruct g0; simpl in *; by subst. }
  assert (experienceEnabled r.1 = true
          ∧ ∃ exp, currentExperience r.1 = Some exp
                   ∧ _filename exp = Experience_File o) as (Hflag & exp & Hcur & Hfn).
  { unfold r, Experience_init. rewrite Hen. simpl.
    destruct (load_pending (Experience_File o) false new_ExperienceData w)
      as (_ & _ & Hname).
    destruct (currentExperience g) as [exp0|] eqn:Hcur.
    - destruct (String.eqb_spec (_filename exp0) (Experience_File o)) as [Heq|Hne];
        simpl.
      + destruct (_loadingResult exp0); simpl; [by eauto|].
        match goal with
        | |- context [Experience_unload o ?g1 w] =>
            destruct (Experience_unload_flags o g1 w) as (_ & Hg2 & _);
            destruct (Experience_unload o g1 w) as [g2 w2]
        end. simpl in Hg2.
        destruct (load_pending (Experience_File o) false new_ExperienceData w2)
          as (_ & _ & Hname2).
        destruct (load (Experience_File o) false new_ExperienceData w2)
          as [[ok exp] w3]. simpl in *. eauto.
      + match goal with
        | |- context [Experience_unload o ?g1 w] =>
            destruct (Experience_unload_flags o g1 w) as (_ & Hg2 & _);
            destruct (Experience_unload o g1 w) as [g2 w2]
        end. simpl in Hg2.
        destruct (load_pending (Experience_File o) false new_ExperienceData w2)
          as (_ & _ & Hname2).
        destruct (load (Experience_File o) false new_ExperienceData w2)
          as [[ok exp] w3]. simpl in *. eauto.
    - destruct (load (Experience_File o) false new_ExperienceData w)
        as [[ok exp] w3]. simpl in *. eauto. }
  split; [done|]. exists exp. split_and!; [done | done |].
  intros Hres. split.
  - destruct r as [g1 w1]. by eapply Hsettled.
  - intros k m v d. unfold Experience_reload, Experience_add_pv_experience.
    rewrite Hcur. simpl.
    assert (has_new_exp (add_pv_experience k m v d exp) = true) as ->.
    { unfold has_new_exp, add_pv_experience. simpl. rewrite length_app. simpl.
      by replace (length (_newPvExp exp) + 1)%nat
        with (S (length (_newPvExp exp))) by lia. }
    simpl. by eapply Hsettled.
Qed.

(** X14 (giving up a store writes its pending experience): when the
    current store has pending records, the read-only option is off, the
    stream opens and the writes go through, [unload] appends the pending
    records that reach [MIN_EXP_DEPTH] to the file the store was loaded
    from, touches no other file and leaves no store.  [init] does the
    same when experience is disabled; and when it is enabled under
    another file name, or the store had failed to load, [init] writes
    to the old file in the same way before it loads the configured one
    into a new store, which has nothing pending. *)
Theorem Experience_unload_persists o g w exp :
  currentExperience g = Some exp →
  has_new_exp exp = true →
  Experience_Readonly o = false →
  open_fails (faults w) (map_path (_filename exp)) = false →
  writes_succeed w →
  let p := map_path (_filename exp) in
  let r := Experience_unload o g w in
  currentExperience r.1 = None
  ∧ files r.2 !! p
    = Some (content p w
              ++ (if Nat.eqb (length (content p w)) 0 then ExperienceSignature else [])
              ++ flat_map encode
                   (filter qualifies (_newPvExp exp)
                      ++ filter qualifies (_newMultiPvExp exp)))
  ∧ (∀ q, q ≠ p → files r.2 !! q = files w !! q)
  ∧ (Experience_Enabled o = false →
       currentExperience (Experience_init o g w).1 = None
       ∧ (Experience_init o g w).2 = r.2)
  ∧ (Experience_Enabled o = true →
     _filename exp ≠ Experience_File o ∨ _loadingResult exp = false →
       files (Experience_init o g w).2 = files r.2
       ∧ ∃ exp', currentExperience (Experience_init o g w).1 = Some exp'
           ∧ _filename exp' = Experience_File o
           ∧ _newPvExp exp' = [] ∧ _newMultiPvExp exp' = []).
Proof.
  intros Hcur Hnew Hro Hopen Hwrite p r.
  assert (∀ flag,
            Experience_unload o
              {| currentExperience := currentExperience g; experienceEnabled := flag;
                 learningPaused := learningPaused g |} w
            = ({| currentExperience := None; experienceEnabled := flag;
                  learningPaused := learningPaused g |},
               (_save (_filename exp) false exp w).2)) as Hunload.
  { intros flag. unfold Experience_unload, Experience_save. simpl.
    rewrite Hcur, Hnew, Hro. simpl. by rewrite save_pending. }
  assert (r = ({| currentExperience := None; experienceEnabled := experienceEnabled g;
                  learningPaused := learningPaused g |},
               (_save (_filename exp) false exp w).2)) as Hr.
  { unfold r. rewrite <- Hunload. by destruct g. }
  pose proof (_save_ok_file (_filename exp) false exp w Hopen Hwrite) as Hfile.
  destruct (_save_appends (_filename exp) false exp w) as [(_ & Hq & _) _].
  rewrite Hr. simpl. split_and!; try done.
  - intros Hen. unfold Experience_init. rewrite Hen. simpl. by rewrite Hunload.
  - intros Hen Hother. unfold Experience_init. rewrite Hen. simpl. rewrite Hcur.
    assert (String.eqb (_filename exp) (Experience_File o) && _loadingResult exp
            = false) as ->.
    { destruct Hother as [Hne| ->]; [|by rewrite andb_false_r].
      by apply String.eqb_neq in Hne as ->. }
    rewrite <- Hcur, Hunload.
    set (w1 := (_save (_filename exp) false exp w).2).
    pose proof (load_world (Experience_File o) false new_ExperienceData w1) as Hw.
    destruct (load_pending (Experience_File o) false new_ExperienceData w1)
      as (Hpv & Hmpv & Hname).
    destruct (load (Experience_File o) false new_ExperienceData w1) as [[ok exp'] w3].
    simpl in *. subst w3. split; [done|]. by exists exp'.
Qed.

End CommandsMore.

Section CommandsMoreExamples.
#[local] Existing Instance demo_params.
#[local] Existing Instance demo_iteration.
#[local] Existing Instance demo_utility.

(** The one-record file, defragmented: the old bytes are the backup. *)
Lemma Experience_defrag_rewrites_witness :
  files (Experience_defrag ["SugaR.exp"] (world_with_file no_faults)) !! "SugaR.exp.bak"
  = Some old_file.
Proof.
  assert (Forall entry_in_range [rec_shallow]) as Hl.
  { repeat constructor; vm_compute; intuition discriminate. }
  assert (∀ m, iteration_order m ≡ₚ map_to_list m) as Hiter by done.
  assert (files (world_with_file no_faults)
            !! map_path (map_path (map_path (unquote "SugaR.exp")))
          = Some (ExperienceSignature ++ flat_map encode [rec_shallow])) as Hfile
    by (vm_compute; reflexivity).
  destruct (Experience_defrag_rewrites "SugaR.exp" (world_with_file no_faults)
              [rec_shallow] no_faults_fault_free Hiter Hfile Hl ltac:(done))
    as (Hbak & _).
  etrans; [exact Hbak|]. vm_compute. reflexivity.
Defined.

(** No file: nothing happens. *)
Lemma Experience_defrag_refuses_witness :
  files (Experience_defrag ["SugaR.exp"] empty_world) = files empty_world.
Proof.
  apply (Experience_defrag_refuses ["SugaR.exp"] empty_world).
  right. exists "SugaR.exp". split; [reflexivity|]. cbv zeta. left.
  vm_compute. reflexivity.
Defined.

(** The one-record file merged with a file that is not there. *)
Lemma Experience_merge_builds_witness :
  ∃ exp, (Experience_merge ["SugaR.exp"; "other.exp"] (world_with_file no_faults)).1
         = Some exp
         ∧ _mainExp exp = link_all (concat [[rec_shallow]; []]) ∅.
Proof.
  assert (Forall (Forall entry_in_range) [[rec_shallow]; []]) as Hl.
  { repeat constructor; vm_compute; intuition discriminate. }
  assert (∀ m, iteration_order m ≡ₚ map_to_list m) as Hiter by done.
  assert (Forall2 (gives (files (world_with_file no_faults)))
            ((λ arg, map_path (unquote arg)) <$> ["SugaR.exp"; "other.exp"])
            [[rec_shallow]; []]) as Hgives.
  { change ((λ arg, map_path (unquote arg)) <$> ["SugaR.exp"; "other.exp"])
      with ["SugaR.exp"; "other.exp"].
    constructor; [left; vm_compute; reflexivity|].
    constructor; [right; split; [vm_compute|]; reflexivity|].
    constructor. }
  apply (Experience_merge_builds ["SugaR.exp"; "other.exp"] (world_with_file no_faults)
           [[rec_shallow]; []]); done.
Defined.

Lemma Experience_readonly_keeps_files_witness :
  Experience_save read_only demo_globals (world_with_file no_faults)
  = (demo_globals, world_with_file no_faults).
Proof.
  apply (Experience_readonly_keeps_files read_only demo_globals
           (world_with_file no_faults) eq_refl).
Defined.

Lemma Experience_init_settles_witness :
  experienceEnabled
    (Experience_init read_write initial_globals (world_with_file no_faults)).1 = true.
Proof.
  apply (Experience_init_settles read_write initial_globals
           (world_with_file no_faults) eq_refl).
Defined.

(** The learned move reaches the file when the store is unloaded. *)
Lemma Experience_unload_persists_witness :
  files (Experience_unload read_write demo_globals (world_with_file no_faults)).2
    !! "SugaR.exp"
  = Some (old_file ++ encode (mkExpEntry 1 11 0 10)).
Proof.
  assert (writes_succeed (world_with_file no_faults)) as Hwrite by done.
  destruct (Experience_unload_persists read_write demo_globals
              (world_with_file no_faults) current_store
              eq_refl eq_refl eq_refl eq_refl Hwrite) as (_ & Hfile & _).
  etrans; [exact Hfile|]. vm_compute. reflexivity.
Defined.

End CommandsMoreExamples.

(** ** Ingestion, further *)

Section ConvertMore.
Context `{Params} `{Engine}.

Lemma bump_same c (s : Counters) : bump c s c = S (s c).
Proof. unfold bump. by rewrite decide_True. Qed.

Lemma bump_other c c' (s : Counters) : c ≠ c' → bump c s c' = s c'.
Proof. intros Hne. unfold bump. by rewrite decide_False. Qed.

Lemma stage_move_step lim mv score d (g : GameData) :
  mv ≠ MOVE_NONE → d ≠ DEPTH_NONE → score ≠ VALUE_NONE →
  let g1 := stage_move lim mv score d g in
  (gamePly g1 = gamePly g ∧ pos g1 = pos g)
  ∧ (∃ rs, (length rs ≤ 1)%nat
       ∧ tempBuffer g1 = tempBuffer g ++ flat_map encode rs
       ∧ Forall (within lim) rs
       ∧ Forall (λ e, e = mkExpEntry (pos_key (pos g)) mv score d) rs
       ∧ stats g1 numMovesWithScores = (stats g numMovesWithScores + length rs)%nat)
  ∧ moves_seen (stats g1) = S (moves_seen (stats g))
  ∧ (∀ c, c ≠ numMovesWithScores → c ≠ numMovesWithScoresIgnored →
          stats g1 c = stats g c).
Proof.
  intros Hmv Hd Hscore. unfold stage_move, passes_filters.
  destruct (_ && _) eqn:Hf; cbn [tempBuffer stats gamePly pos].
  - apply andb_true_iff in Hf as [Hf Hv]. apply andb_true_iff in Hf as [Hlo Hhi].
    split; [done|]. split; [|split].
    + exists [mkExpEntry (pos_key (pos g)) mv score d]. cbn [flat_map length].
      rewrite app_nil_r, bump_same. split_and!; [lia | done | | | lia].
      * repeat constructor; simpl; try done; lia.
      * by repeat constructor.
    + unfold moves_seen. rewrite bump_same, !bump_other by done. lia.
    + intros c Hc _. by apply bump_other.
  - split; [done|]. split; [|split].
    + exists []. cbn [flat_map length]. rewrite app_nil_r, bump_other by done.
      split_and!; [lia | done | done | done | lia].
    + unfold moves_seen. rewrite bump_same, !bump_other by done. lia.
    + intros c _ Hc. by apply bump_other.
Qed.

(** One turn of the move loop that goes on to the next: the ply counter
    and one of the three move counters go up by one, at most one record
    is staged, within the limits, and no game counter moves. *)
Lemma process_move_step lim winnerColor tok (g0 g' : GameData) :
  process_move lim winnerColor tok g0 = inl g' →
  gamePly g' = gamePly g0 + 1
  ∧ (∃ rs, (length rs ≤ 1)%nat
       ∧ tempBuffer g' = tempBuffer g0 ++ flat_map encode rs
       ∧ Forall (within lim) rs
       ∧ Forall parsed rs
       ∧ stats g' numMovesWithScores = (stats g0 numMovesWithScores + length rs)%nat)
  ∧ moves_seen (stats g') = S (moves_seen (stats g0))
  ∧ (∀ c, c ≠ numMovesWithScores → c ≠ numMovesWithScoresIgnored →
          c ≠ numMovesWithoutScores → stats g' c = stats g0 c).
Proof.
  unfold process_move.
  destruct (decide (4 ≤ length tok)%nat); [done|].
  destruct (String.eqb _ ""); [done|].
  destruct (_ =? MOVE_NONE) eqn:Hmv; [done|]. apply Z.eqb_neq in Hmv.
  set (mv := to_move _ _) in *.
  set (_depth := if decide (3 ≤ length tok)%nat then _ else _).
  set (_score := if decide (2 ≤ length tok)%nat then _ else _).
  set (d := if String.eqb _depth "" then DEPTH_NONE else _).
  set (score := if String.eqb _score "" then VALUE_NONE else _).
  destruct (Z.eqb_spec d DEPTH_NONE) as [Hd|Hd]; simpl.
  { repeat case_match; intros; simplify_eq; simpl.
    all: split_and!; try done.
    all: try (exists []; simpl; rewrite app_nil_r, bump_other by done;
              split_and!; [lia | done | done | done | lia]).
    all: try (unfold moves_seen; rewrite bump_same, !bump_other by done; lia).
    all: intros c _ _ Hc; by apply bump_other. }
  destruct (Z.eqb_spec score VALUE_NONE) as [Hs|Hs]; simpl.
  { repeat case_match; intros; simplify_eq; simpl.
    all: split_and!; try done.
    all: try (exists []; simpl; rewrite app_nil_r, bump_other by done;
              split_and!; [lia | done | done | done | lia]).
    all: try (unfold moves_seen; rewrite bump_same, !bump_other by done; lia).
    all: intros c _ _ Hc; by apply bump_other. }
  set (g := {| gamePly := gamePly g0 + 1 |}).
  destruct (stage_move_step lim mv score d g Hmv Hd Hs)
    as ((Hply & Hpos) & (rs & Hlen & Hbuf & Hin & Hmade & Hn) & Hseen & Hother).
  assert (Forall parsed rs) as Hparsed.
  { eapply Forall_impl; [exact Hmade|]. intros e ->.
    assert (score ≠ VALUE_NONE → ∃ s2, score = stoi s2) as Hs2.
    { unfold score. destruct (String.eqb _score ""); [done|eauto]. }
    assert (d ≠ DEPTH_NONE → ∃ s3, d = stoi s3) as Hs3.
    { unfold d. destruct (String.eqb _depth ""); [done|eauto]. }
    destruct (Hs2 Hs) as [s2 ->]. destruct (Hs3 Hd) as [s3 ->].
    by eexists _, _, _, _. }
  assert (∃ rs, (length rs ≤ 1)%nat
            ∧ tempBuffer (stage_move lim mv score d g)
              = tempBuffer g ++ flat_map encode rs
            ∧ Forall (within lim) rs ∧ Forall parsed rs
            ∧ stats (stage_move lim mv score d g) numMovesWithScores
              = (stats g numMovesWithScores + length rs)%nat) as Hrs by eauto 10.
  clear rs Hlen Hbuf Hin Hmade Hn Hparsed.
  set (g1 := stage_move lim mv score d g) in *. clearbody g1.
  simpl in *.
  repeat case_match; intros; simplify_eq; simpl.
  all: split_and!; try done; intros c ? ? _; by apply Hother.
Qed.

(** A turn of the move loop that ends the game counts it once, as an
    error or as ignored. *)
Lemma process_move_stop lim winnerColor tok (g0 : GameData) s' :
  process_move lim winnerColor tok g0 = inr s' →
  games_judged s' = S (games_judged (stats g0))
  ∧ (∀ c, s' (wbd c) = stats g0 (wbd c)) ∧ s' numGames = stats g0 numGames.
Proof.
  assert (∀ s : Counters,
            games_judged (bump numGamesWithErrors s) = S (games_judged s)
            ∧ games_judged (bump numGamesIgnored s) = S (games_judged s)) as Hbump.
  { intros s. unfold games_judged.
    rewrite !bump_same, !bump_other by done. lia. }
  unfold process_move.
  destruct (decide (4 ≤ length tok)%nat).
  { intros [= <-]. split_and!; [apply Hbump | intros c | ]; by rewrite bump_other. }
  destruct (String.eqb _ "").
  { intros [= <-]. split_and!; [apply Hbump | intros c | ]; by rewrite bump_other. }
  destruct (_ =? MOVE_NONE) eqn:Hmv.
  { intros [= <-]. split_and!; [apply Hbump | intros c | ]; by rewrite bump_other. }
  apply Z.eqb_neq in Hmv. set (mv := to_move _ _) in *.
  set (d := if String.eqb _ "" then DEPTH_NONE else _).
  set (score := if String.eqb _ "" then VALUE_NONE else _).
  assert (∀ s : Counters,
            (∀ c, c ≠ numMovesWithScores → c ≠ numMovesWithScoresIgnored →
                  c ≠ numMovesWithoutScores → s c = stats g0 c) →
            games_judged (bump numGamesIgnored s) = S (games_judged (stats g0))
            ∧ (∀ c, bump numGamesIgnored s (wbd c) = stats g0 (wbd c))
            ∧ bump numGamesIgnored s numGames = stats g0 numGames) as Hignored.
  { intros s Hs. split_and!.
    - destruct (Hbump s) as [_ ->]. f_equal. unfold games_judged.
      by rewrite !Hs.
    - intros c. rewrite bump_other by done. by apply Hs.
    - rewrite bump_other by done. by apply Hs. }
  destruct (Z.eqb_spec d DEPTH_NONE) as [Hd|Hd]; simpl.
  { repeat case_match; intros; simplify_eq; simpl.
    all: apply Hignored; intros c _ _ Hc; by apply bump_other. }
  destruct (Z.eqb_spec score VALUE_NONE) as [Hs|Hs]; simpl.
  { repeat case_match; intros; simplify_eq; simpl.
    all: apply Hignored; intros c _ _ Hc; by apply bump_other. }
  set (g := {| gamePly := gamePly g0 + 1 |}).
  destruct (stage_move_step lim mv score d g Hmv Hd Hs)
    as (_ & _ & _ & Hother).
  set (g1 := stage_move lim mv score d g) in *. clearbody g1.
  simpl in *.
  repeat case_match; intros; simplify_eq; simpl.
  all: apply Hignored; intros c ? ? _; by apply Hother.
Qed.

(** The move loop run to its end. *)
Lemma process_moves_run lim winnerColor toks (g0 g : GameData) :
  process_moves lim winnerColor toks g0 = inl g →
  gamePly g = gamePly g0 + Z.of_nat (length toks)
  ∧ (∃ rs, (length rs ≤ length toks)%nat
       ∧ tempBuffer g = tempBuffer g0 ++ flat_map encode rs
       ∧ Forall (within lim) rs ∧ Forall parsed rs
       ∧ stats g numMovesWithScores = (stats g0 numMovesWithScores + length rs)%nat)
  ∧ moves_seen (stats g) = (moves_seen (stats g0) + length toks)%nat
  ∧ (∀ c, c ≠ numMovesWithScores → c ≠ numMovesWithScoresIgnored →
          c ≠ numMovesWithoutScores → stats g c = stats g0 c).
Proof.
  revert g0. induction toks as [|tok toks IH]; intros g0; simpl.
  - intros [= <-]. split_and!; [lia | | lia | done].
    exists []. simpl. by rewrite app_nil_r, Nat.add_0_r.
  - destruct (process_move lim winnerColor tok g0) as [g1|] eqn:Hstep; [|done].
    apply process_move_step in Hstep
      as (Hply & (rs1 & Hlen1 & Hbuf1 & Hin1 & Hp1 & Hn1) & Hseen1 & Hother1).
    intros Hrest. apply IH in Hrest
      as (Hply' & (rs & Hlen & Hbuf & Hin & Hp & Hn) & Hseen & Hother).
    split_and!; [lia | | lia |].
    + exists (rs1 ++ rs). rewrite length_app, flat_map_app, !Forall_app.
      split_and!; [lia | | done | done | done | done | lia].
      by rewrite Hbuf, Hbuf1, app_assoc.
    + intros c ? ? ?. rewrite Hother, Hother1; done.
Qed.

(** The move loop cut short: the game is counted once. *)
Lemma process_moves_stop lim winnerColor toks (g0 : GameData) s' :
  process_moves lim winnerColor toks g0 = inr s' →
  games_judged s' = S (games_judged (stats g0))
  ∧ (∀ c, s' (wbd c) = stats g0 (wbd c)) ∧ s' numGames = stats g0 numGames.
Proof.
  revert g0. induction toks as [|tok toks IH]; intros g0; simpl; [done|].
  destruct (process_move lim winnerColor tok g0) as [g1|s1] eqn:Hstep.
  - apply process_move_step in Hstep as (_ & _ & _ & Hother).
    intros Hrest. apply IH in Hrest as (Hj & Hwbd & Hgames).
    split_and!.
    + rewrite Hj. f_equal. unfold games_judged. by rewrite !Hother.
    + intros c. rewrite Hwbd. by apply Hother.
    + rewrite Hgames. by apply Hother.
  - intros [= <-]. by apply process_move_stop in Hstep.
Qed.

(** No counter ever goes down. *)
Lemma bump_grows c (s : Counters) c' : (s c' ≤ bump c s c')%nat.
Proof. unfold bump. case_decide; lia. Qed.

Lemma process_move_grows lim winnerColor tok (g0 : GameData) c :
  match process_move lim winnerColor tok g0 with
  | inl g' => (stats g0 c ≤ stats g' c)%nat
  | inr s' => (stats g0 c ≤ s' c)%nat
  end.
Proof.
  assert (∀ (s : Counters) x, (stats g0 c ≤ s c → stats g0 c ≤ bump x s c)%nat)
    as Hbump.
  { intros s x Hs. etrans; [exact Hs|apply bump_grows]. }
  unfold process_move.
  destruct (decide (4 ≤ length tok)%nat); [by apply Hbump|].
  destruct (String.eqb _ ""); [by apply Hbump|].
  destruct (_ =? MOVE_NONE); [by apply Hbump|].
  set (mv := to_move _ _).
  set (d := if String.eqb _ "" then DEPTH_NONE else _).
  set (score := if String.eqb _ "" then VALUE_NONE else _).
  destruct (negb (d =? DEPTH_NONE) && negb (score =? VALUE_NONE)).
  - set (g := {| gamePly := gamePly g0 + 1 |}).
    assert (stats g0 c ≤ stats (stage_move lim mv score d g) c)%nat as Hstage.
    { unfold stage_move. destruct (passes_filters _ _ _); simpl; by apply Hbump. }
    set (g1 := stage_move lim mv score d g) in *. clearbody g1.
    repeat case_match; simplify_eq; simpl in *; auto.
  - repeat case_match; simplify_eq; simpl in *; auto.
Qed.

Lemma process_moves_grows lim winnerColor toks (g0 : GameData) c :
  match process_moves lim winnerColor toks g0 with
  | inl g' => (stats g0 c ≤ stats g' c)%nat
  | inr s' => (stats g0 c ≤ s' c)%nat
  end.
Proof.
  revert g0. induction toks as [|tok toks IH]; intros g0; simpl; [done|].
  pose proof (process_move_grows lim winnerColor tok g0 c) as Hstep.
  destruct (process_move lim winnerColor tok g0) as [g1|s1]; [|done].
  specialize (IH g1). destruct (process_moves lim winnerColor toks g1); lia.
Qed.

Lemma convert_game_grows lim fen resultStr toks (s : Counters) c :
  (s c ≤ (convert_compact_pgn_to_exp lim fen resultStr toks s).2 c)%nat.
Proof.
  assert (∀ (t : Counters) x, (s c ≤ t c → s c ≤ bump x t c)%nat) as Hbump.
  { intros t x Ht. etrans; [exact Ht|apply bump_grows]. }
  unfold convert_compact_pgn_to_exp.
  destruct toks as [|tok toks]; [simpl; auto|].
  destruct (if String.eqb resultStr "w" then Some WHITE else _) as [winnerColor|];
    [|simpl; auto].
  set (g0 := {| gamePly := 0; stats := bump numGames s |}).
  pose proof (process_moves_grows lim winnerColor (tok :: toks) g0 c) as Hrun.
  change (stats g0 c) with (bump numGames s c) in Hrun.
  pose proof (bump_grows numGames s c) as Hfirst.
  destruct (process_moves lim winnerColor (tok :: toks) g0) as [g|s']; simpl; [|lia].
  destruct (gamePly g <? MIN_PLY_PER_GAME); simpl; [apply Hbump; lia|].
  destruct (_ || _); simpl; apply Hbump; lia.
Qed.

Lemma read_limits_minDepth (argv : list string) :
  MIN_EXP_DEPTH ≤ minDepth (read_limits argv).
Proof. unfold read_limits. simpl. case_decide; lia. Qed.

Lemma convert_game_accepted lim fen resultStr toks (s : Counters) buf :
  (convert_compact_pgn_to_exp lim fen resultStr toks s).1 = Some buf →
  let s' := (convert_compact_pgn_to_exp lim fen resultStr toks s).2 in
  resultStr ∈ ["w"; "b"; "d"]
  ∧ (16 ≤ length toks)%nat
  ∧ (∃ rs, buf = flat_map encode rs
       ∧ (length rs ≤ length toks)%nat
       ∧ Forall (within lim) rs ∧ Forall parsed rs
       ∧ (MIN_EXP_DEPTH ≤ minDepth lim → Forall qualifies rs)
       ∧ s' numMovesWithScores = (s numMovesWithScores + length rs)%nat)
  ∧ moves_seen s' = (moves_seen s + length toks)%nat.
Proof.
  unfold convert_compact_pgn_to_exp.
  set (winner := if String.eqb resultStr "w" then Some WHITE else _).
  assert (is_Some winner → resultStr ∈ ["w"; "b"; "d"]) as Htag.
  { unfold winner. rewrite !elem_of_cons.
    destruct (String.eqb_spec resultStr "w") as [->|_]; [by auto|].
    destruct (String.eqb_spec resultStr "b") as [->|_]; [by auto|].
    destruct (String.eqb_spec resultStr "d") as [->|_]; [by auto|].
    by intros [? ?]. }
  destruct toks as [|tok toks]; [done|].
  destruct winner as [winnerColor|]; [|done].
  set (g0 := {| gamePly := 0; stats := bump numGames s |}).
  destruct (process_moves lim winnerColor (tok :: toks) g0) as [g|] eqn:Hrun; [|done].
  apply process_moves_run in Hrun
    as (Hply & (rs & Hlen & Hbuf & Hin & Hparsed & Hn) & Hseen & Hother).
  destruct (Z.ltb_spec (gamePly g) MIN_PLY_PER_GAME) as [|Hlong]; [done|].
  destruct (_ || _); [done|].
  cbn [fst snd]. intros [= <-].
  change (gamePly g0) with 0 in Hply. unfold MIN_PLY_PER_GAME in Hlong.
  change (stats g0) with (bump numGames s) in *.
  change (tempBuffer g0) with (@nil byte) in Hbuf.
  split_and!.
  - apply Htag. eauto.
  - lia.
  - exists rs. split_and!; [done | done | done | done | | ].
    + intros Hmin. eapply Forall_impl; [exact Hin|].
      intros e ((Hlo & _) & _). unfold qualifies. lia.
    + rewrite bump_other by done. rewrite Hn. by rewrite bump_other.
  - revert Hseen. unfold moves_seen. simpl.
    rewrite !bump_other by done. lia.
Qed.


Lemma convert_game_counts lim fen resultStr toks (s : Counters) :
  let r := convert_compact_pgn_to_exp lim fen resultStr toks s in
  r.2 numGames = S (s numGames)
  ∧ (is_Some r.1 →
       games_judged r.2 = S (games_judged s)
       ∧ r.2 numGamesWithErrors = s numGamesWithErrors
       ∧ r.2 numGamesIgnored = s numGamesIgnored)
  ∧ (r.1 = None →
       (∀ c, r.2 (wbd c) = s (wbd c))
       ∧ (toks = [] ∨ resultStr ∈ ["w"; "b"; "d"] →
            games_judged r.2 = S (games_judged s))
       ∧ (toks ≠ [] → resultStr ∉ ["w"; "b"; "d"] →
            games_judged r.2 = games_judged s)).
Proof.
  assert (∀ c (t : Counters),
            c = numGamesWithErrors ∨ c = numGamesIgnored ∨ (∃ x, c = wbd x) →
            games_judged (bump c t) = S (games_judged t)) as Hjudge.
  { intros c t [->|[->|[[] ->]]]; unfold games_judged;
      rewrite ?bump_same, ?bump_other by done; lia. }
  assert (games_judged (bump numGames s) = games_judged s) as Hgames.
  { unfold games_judged. by rewrite !bump_other. }
  unfold convert_compact_pgn_to_exp.
  set (winner := if String.eqb resultStr "w" then Some WHITE else _).
  assert (is_Some winner ↔ resultStr ∈ ["w"; "b"; "d"]) as Htag.
  { unfold winner. rewrite !elem_of_cons, elem_of_nil.
    destruct (String.eqb_spec resultStr "w") as [->|?]; [split; eauto|].
    destruct (String.eqb_spec resultStr "b") as [->|?]; [split; eauto|].
    destruct (String.eqb_spec resultStr "d") as [->|?]; [split; eauto|].
    split; [by intros [? ?]|]. intros [?|[?|[?|[]]]]; done. }
  destruct toks as [|tok toks].
  { simpl. rewrite bump_other, bump_same by done. split_and!; [done | by intros [? ?] |].
    intros _. split_and!.
    - intros c. by rewrite !bump_other.
    - intros _. by rewrite Hjudge, Hgames by auto.
    - done. }
  destruct winner as [winnerColor|].
  2:{ simpl. rewrite bump_same. split_and!; [done | by intros [? ?] |].
      intros _. split_and!.
      - intros c. by rewrite bump_other.
      - intros [?|Hin]; [done|]. apply Htag in Hin. by destruct Hin.
      - done. }
  assert (resultStr ∈ ["w"; "b"; "d"]) as Hknown by (apply Htag; eauto).
  set (g0 := {| gamePly := 0; stats := bump numGames s |}).
  destruct (process_moves lim winnerColor (tok :: toks) g0) as [g|s'] eqn:Hrun.
  - apply process_moves_run in Hrun as (_ & _ & _ & Hother).
    change (stats g0) with (bump numGames s) in Hother.
    assert (games_judged (stats g) = games_judged s) as Hsame.
    { rewrite <- Hgames. unfold games_judged. by rewrite !Hother. }
    assert (stats g numGames = S (s numGames)) as Hn.
    { rewrite Hother by done. apply bump_same. }
    assert (∀ c, stats g (wbd c) = s (wbd c)) as Hwbd.
    { intros c. rewrite Hother by done. by apply bump_other. }
    assert (bump numGamesIgnored (stats g) numGames = S (s numGames)
            ∧ (∀ c, bump numGamesIgnored (stats g) (wbd c) = s (wbd c))
            ∧ games_judged (bump numGamesIgnored (stats g)) = S (games_judged s))
      as (Hi1 & Hi2 & Hi3).
    { simpl. rewrite Hjudge, Hsame by auto. split_and!; [|intros c|done];
        by rewrite bump_other. }
    destruct (gamePly g <? MIN_PLY_PER_GAME).
    { cbn [fst snd]. split_and!; [done | by intros [? ?] |]. intros _. split_and!; done. }
    destruct (_ || _).
    { cbn [fst snd]. split_and!; [done | by intros [? ?] |]. intros _. split_and!; done. }
    cbn [fst snd]. split_and!; [by rewrite bump_other | | done].
    intros _. rewrite Hjudge, Hsame by eauto. rewrite !bump_other by done.
    split_and!; [done | |]; rewrite Hother by done; by rewrite bump_other.
  - apply process_moves_stop in Hrun as (Hj & Hwbd & Hn).
    change (stats g0) with (bump numGames s) in *.
    cbn [fst snd]. split_and!; [by rewrite Hn, bump_same | by intros [? ?] |].
    intros _. split_and!.
    + intros c. rewrite Hwbd. by apply bump_other.
    + intros _. by rewrite Hj, Hgames.
    + intros _ Hnot. done.
Qed.

(** X16 (every game is counted, but for one kind): the conversion of a
    line counts it in [numGames].  An accepted game is counted under
    its result, in [wbd], and under nothing else.  A rejected game is
    counted once as an error or as ignored, unless the line has three
    fields or more and a result tag other than [w], [b] and [d]: such a
    game is dropped without any count. *)
Theorem convert_counts lim (compactPgn : string) (s : Counters) :
  let tokens := tokenize compactPgn "," in
  let r := convert_line lim compactPgn s in
  r.2 numGames = S (s numGames)
  ∧ (is_Some r.1 →
       games_judged r.2 = S (games_judged s)
       ∧ r.2 numGamesWithErrors = s numGamesWithErrors
       ∧ r.2 numGamesIgnored = s numGamesIgnored)
  ∧ (r.1 = None →
       (∀ c, r.2 (wbd c) = s (wbd c))
       ∧ ((length tokens < 3)%nat ∨ tokens !!! 1%nat ∈ ["w"; "b"; "d"] →
            games_judged r.2 = S (games_judged s))
       ∧ ((3 ≤ length tokens)%nat → tokens !!! 1%nat ∉ ["w"; "b"; "d"] →
            games_judged r.2 = games_judged s)).
Proof.
  intros tokens r. unfold r, convert_line. fold tokens.
  destruct (convert_game_counts lim (tokens !!! 0%nat) (tokens !!! 1%nat)
              ((λ token, tokenize token ":") <$> drop 2 tokens) s)
    as (Hgames & Hacc & Hrej).
  assert ((λ token, tokenize token ":") <$> drop 2 tokens = []
          ↔ (length tokens < 3)%nat) as Hshort.
  { split.
    - intros Hnil. apply (f_equal length) in Hnil.
      rewrite length_fmap, length_drop in Hnil. simpl in Hnil. lia.
    - intros Hlt. rewrite drop_ge by lia. done. }
  split_and!; [done | done |].
  intros Hnone. destruct (Hrej Hnone) as (Hwbd & Hone & Hzero).
  split_and!; [done | |].
  - intros [Hlt|Htag]; apply Hone; [left; by apply Hshort | by right].
  - intros Hlen Htag. apply Hzero; [|done]. rewrite Hshort. lia.
Qed.

Lemma same_verdict_counts_bump c (s t : Counters) :
  same_verdict_counts s t → same_verdict_counts (bump c s) (bump c t).
Proof.
  intros Hst c' H1 H2. unfold bump. case_decide; [f_equal|]; by apply Hst.
Qed.

Lemma same_verdict_counts_staged c c' (s t : Counters) :
  c = numMovesWithScores ∨ c = numMovesWithScoresIgnored →
  c' = numMovesWithScores ∨ c' = numMovesWithScoresIgnored →
  same_verdict_counts s t → same_verdict_counts (bump c s) (bump c' t).
Proof.
  intros Hc Hc' Hst x Hx1 Hx2. rewrite !bump_other; [by apply Hst | |];
    intros <-; by destruct Hc, Hc'.
Qed.

(** The limits decide what is staged and nothing else. *)
Lemma stage_move_same lim1 lim2 mv score d (a b : GameData) :
  same_game a b →
  same_game (stage_move lim1 mv score d a) (stage_move lim2 mv score d b).
Proof.
  intros (? & ? & ? & ? & ? & Hst). unfold stage_move.
  destruct (passes_filters lim1 score d), (passes_filters lim2 score d);
    split_and!; try done; simpl; apply same_verdict_counts_staged; auto.
Qed.

Lemma process_move_same lim1 lim2 winnerColor tok (a b : GameData) :
  same_game a b →
  match process_move lim1 winnerColor tok a, process_move lim2 winnerColor tok b with
  | inl a', inl b' => same_game a' b'
  | inr s, inr t => same_verdict_counts s t
  | _, _ => False
  end.
Proof.
  intros (Hply & Hw & Hd & Hr & Hpos & Hst). unfold process_move.
  rewrite <- Hpos.
  destruct (decide (4 ≤ length tok)%nat).
  { by apply same_verdict_counts_bump. }
  destruct (String.eqb _ "").
  { by apply same_verdict_counts_bump. }
  destruct (_ =? MOVE_NONE).
  { by apply same_verdict_counts_bump. }
  set (mv := to_move _ _).
  set (d := if String.eqb _ "" then DEPTH_NONE else _).
  set (score := if String.eqb _ "" then VALUE_NONE else _).
  destruct (negb (d =? DEPTH_NONE) && negb (score =? VALUE_NONE)).
  - set (a0 := {| gamePly := gamePly a + 1 |}).
    set (b0 := {| gamePly := gamePly b + 1 |}).
    assert (same_game a0 b0) as Hsame0.
    { split_and!; simpl; try done. by rewrite Hply. }
    pose proof (stage_move_same lim1 lim2 mv score d a0 b0 Hsame0)
      as (Hply1 & Hw1 & Hd1 & Hr1 & Hpos1 & Hst1).
    set (a1 := stage_move lim1 mv score d a0) in *.
    set (b1 := stage_move lim2 mv score d b0) in *.
    clearbody a1 b1. clear Hsame0 a0 b0.
    destruct a1, b1. simpl in *. subst.
    repeat case_match; simplify_eq; simpl in *;
      try congruence;
      try (by apply same_verdict_counts_bump);
      try (by split_and!).
  - destruct a, b. simpl in *. subst.
    repeat case_match; simplify_eq; simpl in *;
      try congruence;
      try (by do 2 apply same_verdict_counts_bump);
      try (split_and!; simpl; try done; by apply same_verdict_counts_bump).
Qed.

Lemma process_moves_same lim1 lim2 winnerColor toks (a b : GameData) :
  same_game a b →
  match process_moves lim1 winnerColor toks a, process_moves lim2 winnerColor toks b with
  | inl a', inl b' => same_game a' b'
  | inr s, inr t => same_verdict_counts s t
  | _, _ => False
  end.
Proof.
  revert a b. induction toks as [|tok toks IH]; intros a b Hsame; simpl; [done|].
  pose proof (process_move_same lim1 lim2 winnerColor tok a b Hsame) as Hstep.
  destruct (process_move lim1 winnerColor tok a) as [a'|],
           (process_move lim2 winnerColor tok b) as [b'|]; try done.
  by apply IH.
Qed.

(** X17 (the limits do not touch the verdict): two conversions of the
    same game under different limits of depth, score and ply agree on
    whether the game is accepted, and on every counter but the two that
    count the scored moves staged and ignored.  The limits decide which
    records an accepted game hands over, never whether it is accepted. *)
Theorem convert_verdict_independent lim1 lim2 fen resultStr toks (s : Counters) :
  let r1 := convert_compact_pgn_to_exp lim1 fen resultStr toks s in
  let r2 := convert_compact_pgn_to_exp lim2 fen resultStr toks s in
  (is_Some r1.1 ↔ is_Some r2.1)
  ∧ ∀ c, c ≠ numMovesWithScores → c ≠ numMovesWithScoresIgnored → r1.2 c = r2.2 c.
Proof.
  unfold convert_compact_pgn_to_exp.
  destruct toks as [|tok toks]; [done|].
  destruct (if String.eqb resultStr "w" then Some WHITE else _) as [winnerColor|];
    [|done].
  set (g0 := {| gamePly := 0; stats := bump numGames s |}).
  pose proof (process_moves_same lim1 lim2 winnerColor (tok :: toks) g0 g0) as Hrun.
  destruct (process_moves lim1 winnerColor (tok :: toks) g0) as [a|s1],
           (process_moves lim2 winnerColor (tok :: toks) g0) as [b|s2].
  - destruct Hrun as (Hply & Hw & Hd & Hr & _ & Hst); [by split_and!|].
    rewrite <- Hply, <- Hw, <- Hd, <- Hr.
    destruct (gamePly a <? MIN_PLY_PER_GAME).
    { split; [done|]. by apply same_verdict_counts_bump. }
    destruct (_ || _).
    { split; [done|]. by apply same_verdict_counts_bump. }
    split; [split; eauto|]. by apply same_verdict_counts_bump.
  - by destruct Hrun; split_and!.
  - by destruct Hrun; split_and!.
  - split; [done|]. simpl. apply Hrun. by split_and!.
Qed.

End ConvertMore.

(** ** Splitting lines and cleaning moves *)

Section Tokenize.

Lemma append_cons c (s t : string) : String c s +:+ t = String c (s +:+ t).
Proof. reflexivity. Qed.

Lemma append_nil_l (t : string) : "" +:+ t = t.
Proof. reflexivity. Qed.

Lemma append_nil_r (s : string) : s +:+ "" = s.
Proof. induction s as [|c s IH]; [done|]. by rewrite append_cons, IH. Qed.

Lemma append_assoc (a b c : string) : (a +:+ b) +:+ c = a +:+ b +:+ c.
Proof. induction a as [|x a IH]; [done|]. by rewrite !append_cons, IH. Qed.

Lemma list_ascii_of_append (a b : string) :
  list_ascii_of_string (a +:+ b) = list_ascii_of_string a ++ list_ascii_of_string b.
Proof. induction a as [|x a IH]; [done|]. rewrite append_cons. simpl. by f_equal. Qed.

Lemma string_of_list_ascii_app (l1 l2 : list ascii) :
  string_of_list_ascii (l1 ++ l2) = string_of_list_ascii l1 +:+ string_of_list_ascii l2.
Proof. induction l1 as [|x l1 IH]; [done|]. simpl. by rewrite append_cons, IH. Qed.

Lemma append_empty (a b : string) : a +:+ b = "" → a = "" ∧ b = "".
Proof. destruct a; [by rewrite append_nil_l|]. by rewrite append_cons. Qed.

Lemma tokenize_from_empty field str d :
  tokenize_from field str d = [] ↔ field = "" ∧ str = "".
Proof.
  revert field. induction str as [|c rest IH]; intros field; simpl.
  - destruct (String.eqb_spec field "") as [->|Hne]; [done|].
    split; [done|]. by intros [? _].
  - destruct (Ascii.eqb c d); [split; [done|by intros [_ ?]]|].
    rewrite IH. split; [|by intros [_ ?]]. intros [Hf _].
    by apply append_empty in Hf as [_ ?].
Qed.

Lemma tokenize_from_fields field str d :
  d ∉ list_ascii_of_string field →
  Forall (λ f, d ∉ list_ascii_of_string f) (tokenize_from field str d).
Proof.
  revert field. induction str as [|c rest IH]; intros field Hfield; simpl.
  - destruct (String.eqb field ""); by repeat constructor.
  - destruct (Ascii.eqb_spec c d) as [->|Hne].
    + constructor; [done|]. apply IH. simpl. apply not_elem_of_nil.
    + apply IH. rewrite list_ascii_of_append. simpl.
      rewrite elem_of_app, elem_of_cons, elem_of_nil.
      intros [?|[?|[]]]; [done|]. by apply Hne.
Qed.

Lemma tokenize_from_join field str d :
  ∃ tail, field +:+ str
          = String.concat (String d "") (tokenize_from field str d) +:+ tail
          ∧ (tail = "" ∨ tail = String d "").
Proof.
  revert field. induction str as [|c rest IH]; intros field; simpl.
  - exists "". split; [|by left].
    destruct (String.eqb_spec field "") as [->|]; simpl; [done|].
    by rewrite !append_nil_r.
  - destruct (Ascii.eqb_spec c d) as [->|Hne].
    + destruct (IH "") as (tail & Hjoin & Htail). rewrite append_nil_l in Hjoin.
      destruct (tokenize_from "" rest d) as [|f fs] eqn:Hrest.
      * apply tokenize_from_empty in Hrest as [_ ->].
        exists (String d ""). split; [done|by right].
      * exists tail. split; [|done].
        change (String.concat (String d "") (field :: f :: fs))
          with (field +:+ String d "" +:+ String.concat (String d "") (f :: fs)).
        rewrite !append_assoc, append_cons, append_nil_l. by rewrite Hjoin.
    + destruct (IH (field +:+ String c "")) as (tail & Hjoin & Htail).
      exists tail. split; [|done]. rewrite <- Hjoin.
      by rewrite append_assoc.
Qed.

(** X18 (the split): the fields that [tokenize] returns do not hold
    the delimiter; joined by the delimiter they give the string back,
    but for one delimiter at its very end, which yields no field; and
    there is no field at all exactly when the string is empty. *)
Theorem tokenize_spec (str : string) (d : ascii) :
  Forall (λ f, d ∉ list_ascii_of_string f) (tokenize str d)
  ∧ (∃ tail, str = String.concat (String d "") (tokenize str d) +:+ tail
       ∧ (tail = "" ∨ tail = String d ""))
  ∧ (tokenize str d = [] ↔ str = "").
Proof.
  unfold tokenize. split_and!.
  - apply tokenize_from_fields. simpl. apply not_elem_of_nil.
  - apply (tokenize_from_join "" str d).
  - rewrite tokenize_from_empty. split; [by intros [_ ?]|done].
Qed.

Lemma forallb_rev {A} (f : A → bool) (l : list A) :
  forallb f (rev l) = forallb f l.
Proof.
  induction l as [|x l IH]; [done|]. simpl.
  rewrite forallb_app, IH. simpl. by rewrite andb_true_r, andb_comm.
Qed.

Lemma drop_suffix_chars_spec (l : list ascii) :
  ∃ junk, l = junk ++ drop_suffix_chars l
    ∧ forallb is_move_suffix junk = true
    ∧ ∀ c, head (drop_suffix_chars l) = Some c → is_move_suffix c = false.
Proof.
  induction l as [|c l (junk & Hl & Hjunk & Hhead)]; simpl.
  - by exists [].
  - destruct (is_move_suffix c) eqn:Hc.
    + exists (c :: junk). simpl. rewrite Hc, Hjunk. split_and!; [by f_equal | done | done].
    + exists []. split_and!; [done | done |]. simpl. by intros ? [= <-].
Qed.

(** X19 (cleaning a move): for a move token that holds a character
    other than [+], [#], CR and LF, the loop that pops the last
    character stops inside the string: what is left is not empty, does
    not end in one of the four, and is the token without a tail made of
    them only; cleaning it again changes nothing. *)
Theorem cleanup_move_spec (_move : string) :
  forallb is_move_suffix (list_ascii_of_string _move) = false →
  cleanup_move _move ≠ ""
  ∧ (∃ tail, _move = cleanup_move _move +:+ tail
       ∧ forallb is_move_suffix (list_ascii_of_string tail) = true)
  ∧ (∀ c, last (list_ascii_of_string (cleanup_move _move)) = Some c →
          is_move_suffix c = false)
  ∧ cleanup_move (cleanup_move _move) = cleanup_move _move.
Proof.
  intros Hsome. unfold cleanup_move.
  set (l := list_ascii_of_string _move) in *.
  destruct (drop_suffix_chars_spec (rev l)) as (junk & Hl & Hjunk & Hhead).
  set (kept := drop_suffix_chars (rev l)) in *.
  assert (l = rev kept ++ rev junk) as Hsplit.
  { rewrite <- rev_app_distr, <- Hl. by rewrite rev_involutive. }
  assert (kept ≠ []) as Hkept.
  { intros Hnil. rewrite Hnil in Hsplit. simpl in Hsplit.
    rewrite Hsplit, forallb_rev in Hsome. congruence. }
  assert (drop_suffix_chars kept = kept) as Hfix.
  { destruct kept as [|c kept']; [done|]. simpl.
    by rewrite (Hhead c eq_refl). }
  split_and!.
  - intros Hempty. apply (f_equal list_ascii_of_string) in Hempty.
    rewrite list_ascii_of_string_of_list_ascii in Hempty. simpl in Hempty.
    apply Hkept. by rewrite <- (rev_involutive kept), Hempty.
  - exists (string_of_list_ascii (rev junk)).
    rewrite <- string_of_list_ascii_app, <- Hsplit.
    rewrite list_ascii_of_string_of_list_ascii, forallb_rev.
    split; [by unfold l; rewrite string_of_list_ascii_of_string | done].
  - intros c. rewrite list_ascii_of_string_of_list_ascii.
    destruct kept as [|x kept']; [done|]. simpl. rewrite last_snoc.
    intros [= <-]. by apply Hhead.
  - rewrite list_ascii_of_string_of_list_ascii, rev_involutive. by rewrite Hfix.
Qed.

End Tokenize.

Section ConvertMoreExamples.
#[local] Existing Instance demo_params.
#[local] Existing Instance demo_engine.


(** A promotion with check: the check mark goes, the move stays. *)
Lemma cleanup_move_spec_witness : cleanup_move "e7e8q+" ≠ "".
Proof. apply (cleanup_move_spec "e7e8q+"). reflexivity. Defined.

End ConvertMoreExamples.

(** ** The estimator, further *)

Section ShowExpMore.
Context `{Params} `{Engine}.

Lemma choice_fold_elem (rest all : Chain) (x : ExpEntry) :
  x ∈ all → Forall (λ y, y ∈ all) rest →
  fold_left (λ nextPosExpEx t,
               if ExpEntry_compare t nextPosExpEx =? 0 then nextPosExpEx else t)
    rest x ∈ all.
Proof.
  revert x. induction rest as [|t rest IH]; intros x Hx Hall; [done|].
  apply Forall_cons in Hall as [Ht Hall]. simpl. apply IH; [|done].
  by destruct (_ =? 0).
Qed.

(** The shallow search returns a node of the chain. *)
Lemma best_next_elem (chain : Chain) e : best_next chain = Some e → e ∈ chain.
Proof.
  destruct chain as [|head rest]; [done|]. simpl. intros [= <-].
  apply choice_fold_elem; [by left|].
  apply Forall_forall. intros y Hy. by right.
Qed.

(** X20 (what the shallow search picks): the loop for the "best next
    experience move" takes a later node whenever [compare] does not
    answer zero, better or worse, so on a chain whose last node compares
    unequal to every other node it returns the last node, whatever the
    order of the chain. *)
Theorem best_next_last (chain : Chain) (e : ExpEntry) :
  last chain = Some e →
  (∀ x, x ∈ chain → x ≠ e → ExpEntry_compare e x ≠ 0) →
  best_next chain = Some e.
Proof.
  intros Hlast Hdiff. apply last_Some in Hlast as [front ->].
  destruct front as [|head rest]; [done|]. simpl. f_equal.
  rewrite fold_left_app. simpl.
  set (x := fold_left _ rest head).
  assert (x ∈ head :: rest ++ [e]) as Hx.
  { assert (x ∈ head :: rest) as Hin.
    { apply choice_fold_elem; [by left|].
      apply Forall_forall. intros y Hy. by right. }
    apply elem_of_cons in Hin as [->|Hin]; [by left|].
    right. apply elem_of_app. by left. }
  destruct (decide (x = e)) as [->|Hne]; [by destruct (_ =? 0)|].
  by rewrite (proj2 (Z.eqb_neq _ _)) by (by apply Hdiff).
Qed.

(** A walk keeps the sum within the bound of the values times the
    weight. *)
Lemma walk_bounded (m : gmap Z Chain) c fuel nextPosExpEx p a (B : Z) :
  0 < MIN_EXP_DEPTH → 0 ≤ B →
  (∀ k chain, m !! k = Some chain → Forall (λ e, Z.abs (value e) ≤ B) chain) →
  (∀ e, nextPosExpEx = Some e → Z.abs (value e) ≤ B) →
  1 ≤ multiplier a → 0 ≤ valueWeight a →
  Z.abs (valueSum a) ≤ B * valueWeight a →
  let a' := walk m c fuel nextPosExpEx p a in
  Z.abs (valueSum a') ≤ B * valueWeight a' ∧ 0 ≤ valueWeight a'.
Proof.
  intros Hmin HB Hindex. revert nextPosExpEx p a.
  induction fuel as [|fuel IH]; intros nextPosExpEx p a Hnext Hmul Hw Hsum.
  - by destruct nextPosExpEx.
  - destruct nextPosExpEx as [e|]; cbn [walk]; [|done].
    case_bool_decide as Hd; [|done].
    specialize (Hnext e eq_refl).
    apply IH; cbn [multiplier valueSum valueWeight].
    + intros e' He'. apply best_next_elem in He'. unfold probe in He'.
      destruct (m !! _) as [chain|] eqn:Hk; simpl in He'; [|by apply elem_of_nil in He'].
      specialize (Hindex _ _ Hk). rewrite Forall_forall in Hindex. by apply Hindex.
    + lia.
    + nia.
    + assert (Z.abs (value e * depth e * multiplier a
                     * (if decide (side_to_move p = c) then 1 else -1))
              ≤ B * (depth e * multiplier a)) as Hstep.
      { assert (0 ≤ depth e * multiplier a) as Hdm by nia.
        assert (Z.abs (value e) * (depth e * multiplier a)
                ≤ B * (depth e * multiplier a)) as Hle
          by (by apply Z.mul_le_mono_nonneg_r).
        destruct (decide _); rewrite !Z.abs_mul;
          rewrite (Z.abs_eq (depth e)), (Z.abs_eq (multiplier a)) by lia;
          [change (Z.abs 1) with 1 | change (Z.abs (-1)) with 1]; lia. }
      lia.
Qed.


(** One step and no more, when the next position is unknown. *)
Lemma walk_lone (m : gmap Z Chain) c fuel (e : ExpEntry) p a :
  MIN_EXP_DEPTH ≤ depth e →
  m !! pos_key (do_move p (move e)) = None →
  walk m c (S fuel) (Some e) p a
  = {| multiplier := multiplier a + 1;
       valueSum := valueSum a + value e * depth e * multiplier a
                   * (if decide (side_to_move p = c) then 1 else -1);
       valueWeight := valueWeight a + depth e * multiplier a;
       exp_size := S (exp_size a) |}.
Proof.
  intros Hd Hnext. cbn [walk]. rewrite bool_decide_eq_true_2 by done.
  unfold probe. rewrite Hnext. cbn [default best_next]. by destruct fuel.
Qed.


End ShowExpMore.

Section ShowExpMoreExamples.
#[local] Existing Instance demo_params.
#[local] Existing Instance demo_engine.

(** Three candidates, best first: the shallow search returns the
    third. *)
Lemma best_next_last_witness :
  best_next [mkExpEntry 7 21 50 10; mkExpEntry 7 23 90 6; mkExpEntry 7 22 80 2]
  = Some (mkExpEntry 7 22 80 2).
Proof.
  apply best_next_last; [reflexivity|].
  intros x Hx Hne. rewrite !elem_of_cons, elem_of_nil in Hx.
  destruct Hx as [->|[->|[->|[]]]]; [by vm_compute | by vm_compute | done].
Defined.

Lemma ranking_index_values :
  ∀ k chain, ranking_index !! k = Some chain →
    Forall (λ e, Z.abs (value e) ≤ 90) chain.
Proof.
  assert (ranking_index
          = {[ 7 := [mkExpEntry 7 21 50 10; mkExpEntry 7 22 80 2; mkExpEntry 7 23 90 6] ]})
    as -> by (vm_compute; reflexivity).
  intros k chain Hk. apply lookup_singleton_Some in Hk as [_ <-].
  repeat constructor; simpl; lia.
Defined.



End ShowExpMoreExamples.

(** ** The conversion command *)

Section ConvertCommandMore.
Context `{Params} `{Iteration} `{Engine} `{Utility}.

(** [write_data] does to the stream what [write_entry] does without a
    record. *)
Lemma write_data_entry force s : write_data force s = (write_entry None force s).2.
Proof.
  unfold write_data, write_entry. destruct (force || bool_decide _).
  - by destruct (out_write _ _ _ _).
  - by destruct s.
Qed.

Lemma parsed_in_range (e : ExpEntry) : typed_engine → parsed e → entry_in_range e.
Proof.
  intros (Hkey & Hmove & Hint) (p & s1 & s2 & s3 & ->).
  unfold entry_in_range. simpl. split_and!; try apply Hkey; try apply Hmove;
    apply Hint.
Qed.

Lemma writes_succeed_appends p w w' :
  appends p w w' → writes_succeed w → writes_succeed w'.
Proof. intros (Hf & _) Hw k. rewrite Hf. apply Hw. Qed.

(** The loop over the lines only appends to the output. *)
Lemma convert_lines_appends lim lines s c :
  out_path (convert_lines lim lines s c).1 = out_path s
  ∧ appends (out_path s) (out_world s) (out_world (convert_lines lim lines s c).1).
Proof.
  revert s c. induction lines as [|line rest IH]; intros s c; simpl.
  - split; [done|]. apply appends_refl.
  - destruct (String.eqb line ""); [apply IH|].
    destruct (unbrace line) as [compactPgn|]; [|apply IH].
    destruct (convert_line lim compactPgn c) as [[tempBuffer|] c']; [|apply IH].
    set (s' := {| out_path := out_path s; writeBuffer := writeBuffer s ++ tempBuffer |}).
    destruct (IH (write_data false s') c') as [Hp Happ].
    rewrite write_data_entry in Hp, Happ |- *.
    destruct (write_entry_appends None false s') as [Hp' Happ'].
    rewrite Hp' in Hp, Happ. split; [done|].
    eapply appends_trans; [exact Happ'|exact Happ].
Qed.

(** When the writes go through, the stream has taken whole records,
    those of the accepted games, and no more of them than scored moves
    were staged. *)
Lemma convert_lines_ok lim lines s c :
  writes_succeed (out_world s) → out_good s = true →
  let r := convert_lines lim lines s c in
  out_good r.1 = true
  ∧ ∃ rs, logical r.1 = logical s ++ flat_map encode rs
      ∧ Forall (within lim) rs ∧ Forall parsed rs
      ∧ (c numMovesWithScores + length rs ≤ r.2 numMovesWithScores)%nat.
Proof.
  revert s c. induction lines as [|line rest IH]; intros s c Hw Hg; simpl.
  - split; [done|]. exists []. simpl. rewrite app_nil_r. split_and!; [done..|lia].
  - destruct (String.eqb line ""); [by apply IH|].
    destruct (unbrace line) as [compactPgn|]; [|by apply IH].
    destruct (convert_line lim compactPgn c) as [[tempBuffer|] c'] eqn:Hline.
    + assert ((convert_line lim compactPgn c).1 = Some tempBuffer) as Hacc
        by (by rewrite Hline).
      unfold convert_line in Hacc. apply convert_game_accepted in Hacc
        as (_ & _ & (rs & -> & _ & Hin & Hparsed & _ & Hn) & _).
      fold (convert_line lim compactPgn c) in Hn. rewrite Hline in Hn. simpl in Hn.
      set (s' := {| out_path := out_path s;
                    writeBuffer := writeBuffer s ++ flat_map encode rs |}).
      assert (logical s' = logical s ++ flat_map encode rs) as Hlog.
      { unfold logical. simpl. by rewrite app_assoc. }
      destruct (write_entry_ok None false s' Hw Hg) as (_ & Hg' & Hlog' & _).
      destruct (write_entry_appends None false s') as [_ Happ].
      rewrite <- write_data_entry in Hg', Hlog', Happ.
      simpl in Hlog'. rewrite app_nil_r in Hlog'.
      destruct (IH (write_data false s') c'
                  (writes_succeed_appends _ _ _ Happ Hw) Hg')
        as (Hgood & rs' & Hlogical & Hin' & Hparsed' & Hn').
      split; [done|]. exists (rs ++ rs').
      rewrite flat_map_app, length_app, !Forall_app.
      split_and!; [|done..|lia].
      by rewrite Hlogical, Hlog', Hlog, app_assoc.
    + assert (c numMovesWithScores ≤ c' numMovesWithScores)%nat as Hmono.
      { replace c' with (convert_line lim compactPgn c).2 by (by rewrite Hline).
        apply convert_game_grows. }
      destruct (IH s c' Hw Hg) as (Hgood & rs' & Hlogical & Hin' & Hparsed' & Hn').
      split; [done|]. exists rs'. split_and!; [done..|lia].
Qed.

(** The stream of the conversion when nothing is refused: the output
    file has its old bytes, the signature if it had none, and the
    records of the accepted games. *)
Lemma convert_stream_ok (argv : list string) (w : World) (input : list byte) :
  let inputPath := unquote (argv !!! 0%nat) in
  let outputPath := unquote (argv !!! 1%nat) in
  files w !! inputPath = Some input →
  open_fails (faults w) inputPath = false →
  open_fails (faults w) outputPath = false →
  writes_succeed w →
  ∃ s c rs, convert_stream argv w = inr (s, c)
    ∧ files (out_world s) !! outputPath
      = Some (content outputPath w
                ++ (if Nat.eqb (length (content outputPath w)) 0
                    then ExperienceSignature else [])
                ++ flat_map encode rs)
    ∧ Forall (within (read_limits argv)) rs ∧ Forall parsed rs
    ∧ (length rs ≤ c numMovesWithScores)%nat.
Proof.
  intros inputPath outputPath Hinput Hin Hout Hwrite.
  unfold convert_stream. fold inputPath outputPath. rewrite Hin, Hinput, Hout.
  set (w2 := log (CallOpenApp outputPath) (log (CallOpenIn inputPath) w)).
  set (w3 := set_files (<[outputPath := default [] (files w2 !! outputPath)]> (files w2))
               w2).
  assert (content outputPath w3 = content outputPath w) as Hcontent3.
  { unfold content, w3. simpl. by rewrite lookup_insert_eq. }
  assert (writes_succeed w3) as Hwrite3 by done.
  assert (is_Some (files w3 !! outputPath)) as Hsome3.
  { unfold w3. simpl. rewrite lookup_insert_eq. eauto. }
  change (default [] (files w3 !! outputPath)) with (content outputPath w3).
  rewrite Hcontent3.
  assert (∃ good w4,
            (if Nat.eqb (length (content outputPath w)) 0
             then out_write outputPath ExperienceSignature true w3
             else (true, w3)) = (good, w4)
            ∧ good = true ∧ appends outputPath w3 w4
            ∧ content outputPath w4
              = content outputPath w
                  ++ (if Nat.eqb (length (content outputPath w)) 0
                      then ExperienceSignature else []))
    as (good & w4 & -> & -> & Happ4 & Hcontent4).
  { destruct (Nat.eqb (length (content outputPath w)) 0).
    - destruct (out_write_ok outputPath ExperienceSignature w3 Hwrite3) as [Hg Hc].
      pose proof (out_write_appends outputPath ExperienceSignature true w3) as Happ.
      destruct (out_write outputPath ExperienceSignature true w3) as [good w4].
      simpl in *. exists good, w4. by rewrite Hc, Hcontent3.
    - exists true, w3. rewrite app_nil_r. split_and!; try done. apply appends_refl. }
  set (s0 := {| out_path := outputPath; out_good := true; writeBuffer := [];
                out_world := w4 |}).
  set (lines := tokenize _ _).
  assert (writes_succeed w4) as Hwrite4 by (by eapply writes_succeed_appends).
  destruct (convert_lines_ok (read_limits argv) lines s0 (λ _, 0%nat) Hwrite4 eq_refl)
    as (Hgood1 & rs & Hlogical1 & Hin1 & Hparsed1 & Hn1).
  destruct (convert_lines_appends (read_limits argv) lines s0 (λ _, 0%nat))
    as [Hpath1 Happ1].
  destruct (convert_lines (read_limits argv) lines s0 (λ _, 0%nat)) as [s1 c].
  simpl in Hgood1, Hlogical1, Hn1, Hpath1, Happ1.
  assert (writes_succeed (out_world s1)) as Hwrite1
    by (by eapply writes_succeed_appends).
  destruct (write_entry_ok None true s1 Hwrite1 Hgood1) as (_ & _ & Hlogical2 & Hbuf2).
  destruct (write_entry_appends None true s1) as [Hpath2 Happ2].
  rewrite <- write_data_entry in Hlogical2, Hbuf2, Hpath2, Happ2.
  exists (write_data true s1), c, rs. split_and!; [done | | done | done | lia].
  rewrite Hpath1 in Hpath2, Happ2.
  assert (is_Some (files (out_world (write_data true s1)) !! outputPath)) as [bs Hbs].
  { destruct Happ2 as (_ & _ & _ & Hkeep2 & _). apply Hkeep2.
    destruct Happ1 as (_ & _ & _ & Hkeep1 & _). apply Hkeep1.
    destruct Happ4 as (_ & _ & _ & Hkeep4 & _). by apply Hkeep4. }
  rewrite Hbs. f_equal.
  unfold logical in Hlogical2, Hlogical1. rewrite Hbuf2 in Hlogical2 by done.
  rewrite Hpath2, Hpath1 in Hlogical2. simpl in Hlogical2, Hlogical1.
  rewrite !app_nil_r in Hlogical2. rewrite app_nil_r in Hlogical1.
  unfold content in Hlogical2 at 1. rewrite Hbs in Hlogical2. simpl in Hlogical2.
  rewrite Hpath1 in Hlogical1.
  rewrite Hlogical2, Hlogical1, Hcontent4. by rewrite app_assoc.
Qed.

(** What the stream of the conversion can touch: the output file. *)
Lemma convert_stream_frame (argv : list string) (w : World) :
  match convert_stream argv w with
  | inl w' => files w' = files w ∧ faults w' = faults w
  | inr (s, c) =>
      faults (out_world s) = faults w
      ∧ ∀ q, q ≠ unquote (argv !!! 1%nat) → files (out_world s) !! q = files w !! q
  end.
Proof.
  unfold convert_stream.
  set (inputPath := unquote (argv !!! 0%nat)).
  set (outputPath := unquote (argv !!! 1%nat)).
  destruct (if open_fails (faults w) inputPath then None else files w !! inputPath)
    as [input|]; [|done].
  destruct (open_fails (faults w) outputPath); [done|].
  set (w2 := log (CallOpenApp outputPath) (log (CallOpenIn inputPath) w)).
  set (w3 := set_files (<[outputPath := default [] (files w2 !! outputPath)]> (files w2))
               w2).
  assert (∃ good w4,
            (if Nat.eqb (length (default [] (files w3 !! outputPath))) 0
             then out_write outputPath ExperienceSignature true w3
             else (true, w3)) = (good, w4)
            ∧ appends outputPath w3 w4) as (good & w4 & -> & Happ4).
  { destruct (Nat.eqb _ 0).
    - pose proof (out_write_appends outputPath ExperienceSignature true w3) as Happ.
      destruct (out_write outputPath ExperienceSignature true w3) as [good w4].
      by exists good, w4.
    - exists true, w3. split; [done|]. apply appends_refl. }
  set (s0 := {| out_path := outputPath; out_good := good; writeBuffer := [];
                out_world := w4 |}).
  set (lines := tokenize _ _).
  destruct (convert_lines_appends (read_limits argv) lines s0 (λ _, 0%nat))
    as [Hpath1 Happ1].
  destruct (convert_lines (read_limits argv) lines s0 (λ _, 0%nat)) as [s1 c].
  simpl in Hpath1, Happ1.
  destruct (write_entry_appends None true s1) as [_ Happ2].
  rewrite <- write_data_entry in Happ2. rewrite Hpath1 in Happ2.
  destruct Happ4 as (Hf4 & Hq4 & _), Happ1 as (Hf1 & Hq1 & _),
    Happ2 as (Hf2 & Hq2 & _).
  split; [by rewrite Hf2, Hf1, Hf4|]. intros q Hq.
  rewrite Hq2, Hq1, Hq4 by done. unfold w3. simpl. by rewrite lookup_insert_ne.
Qed.



(** X25 (what the conversion leaves alone): whatever is refused,
    [convert_compact_pgn] touches no file but the output, the output as
    [map_path] sees it, and the [.bak] of that; and it changes no file
    at all when it has fewer than two arguments or when the input or
    the output cannot be opened. *)
Theorem convert_compact_pgn_frame (argv : list string) (w : World) :
  let inputPath := unquote (argv !!! 0%nat) in
  let outputPath := unquote (argv !!! 1%nat) in
  let w' := convert_compact_pgn argv w in
  faults w' = faults w
  ∧ (∀ q, q ≠ outputPath → q ≠ map_path outputPath →
          q ≠ map_path outputPath +:+ ".bak" → files w' !! q = files w !! q)
  ∧ ((length argv < 2)%nat ∨ files w !! inputPath = None
     ∨ open_fails (faults w) inputPath = true
     ∨ open_fails (faults w) outputPath = true → files w' = files w).
Proof.
  intros inputPath outputPath w'. unfold w', convert_compact_pgn.
  fold outputPath.
  destruct (decide (length argv < 2)%nat) as [Hlt|Hge]; [done|].
  pose proof (convert_stream_frame argv w) as Hframe. fold outputPath in Hframe.
  split_and!.
  - destruct (convert_stream argv w) as [w1|[s c]]; [by destruct Hframe|].
    destruct Hframe as [Hf _].
    destruct (Nat.eqb (c numMovesWithScores) 0); [done|].
    pose proof (load_world outputPath true new_ExperienceData (out_world s)) as Hw.
    destruct (load outputPath true new_ExperienceData (out_world s))
      as [[ok exp] w5]. simpl in Hw. subst w5.
    destruct ok; [|exact Hf].
    destruct (save_touches outputPath true exp
                (log (CallOpenIn (map_path outputPath)) (out_world s)))
      as (_ & Hfs & _).
    rewrite Hfs. exact Hf.
  - intros q Hq1 Hq2 Hq3.
    destruct (convert_stream argv w) as [w1|[s c]];
      [destruct Hframe as [Hfiles _]; by rewrite Hfiles|].
    destruct Hframe as [_ Hfiles].
    destruct (Nat.eqb (c numMovesWithScores) 0); [by apply Hfiles|].
    pose proof (load_world outputPath true new_ExperienceData (out_world s)) as Hw.
    destruct (load outputPath true new_ExperienceData (out_world s))
      as [[ok exp] w5]. simpl in Hw. subst w5.
    destruct ok; [|by apply (Hfiles q)].
    destruct (save_touches outputPath true exp
                (log (CallOpenIn (map_path outputPath)) (out_world s)))
      as (_ & _ & Hqs).
    rewrite Hqs by done. by apply (Hfiles q).
  - intros Hbad. unfold convert_stream in *. fold inputPath outputPath in Hframe |- *.
    destruct Hbad as [?|[Hnone|[Hin|Hout]]]; [lia| | |].
    + rewrite Hnone. by destruct (open_fails _ _).
    + by rewrite Hin.
    + rewrite Hout. by destruct (if open_fails _ _ then _ else _).
Qed.

End ConvertCommandMore.

Section ConvertCommandExamples.
#[local] Existing Instance demo_params.
#[local] Existing Instance demo_iteration.
#[local] Existing Instance typed_demo_engine.
#[local] Existing Instance demo_utility.

Lemma typed_demo_engine_typed : typed_engine.
Proof.
  assert (∀ x, - 2 ^ 31 ≤ to_int32 (x `mod` 2 ^ 32) < 2 ^ 31) as Hint.
  { intros x. pose proof (Z.mod_pos_bound x (2 ^ 32) ltac:(lia)) as Hx.
    unfold to_int32. case_match; lia. }
  split_and!.
  - intros p. simpl. pose proof (Z.mod_pos_bound p (2 ^ 64) ltac:(lia)). lia.
  - intros p s. simpl.
    pose proof (Z.mod_pos_bound (Z.of_nat (String.length s)) (2 ^ 31) ltac:(lia)). lia.
  - intros s. apply Hint.
Defined.



End ConvertCommandExamples.

(** ** Learning, from one run of the engine to the next *)

Section Lifecycle.
Context `{Params} `{Iteration} `{Utility}.

(** A load in the background of a well-formed file, run to its end. *)
Lemma load_file_async fn st w (l : list ExpEntry) :
  files w !! map_path fn = Some (ExperienceSignature ++ flat_map encode l) →
  Forall entry_in_range l →
  fault_free (faults w) → _abortLoading st = false →
  load fn false st w
  = (true,
     {| _filename := fn; _expExData := _expExData st ++ [length l];
        _mainExp := link_all l (_mainExp st);
        _newPvExp := _newPvExp st; _newMultiPvExp := _newMultiPvExp st;
        _abortLoading := false; _loadingResult := true |},
     log (CallOpenIn (map_path fn)) w).
Proof.
  intros Hfile Hl Hff Habort. unfold load.
  set (st1 := {| _filename := fn; _loadingResult := false |}).
  destruct (_load_file fn st1 w l Hfile Hl Hff Habort) as [d Hload].
  pose proof (_load_world fn st1 w) as Hw.
  destruct (_load fn st1 w) as [[r st2] w2]. simpl in *.
  injection Hload as -> ->. subst w2. simpl. by rewrite Habort.
Qed.

(** The index of a store that [init] makes from nothing. *)
Lemma Experience_init_fresh o w (l : list ExpEntry) :
  Experience_Enabled o = true →
  fault_free (faults w) →
  gives (files w) (Experience_File o) l →
  Forall entry_in_range l →
  ∃ exp, Experience_init o initial_globals w
         = ({| currentExperience := Some exp; experienceEnabled := true;
               learningPaused := false |},
            log (CallOpenIn (map_path (Experience_File o))) w)
    ∧ _mainExp exp = link_all l ∅
    ∧ _newPvExp exp = [] ∧ _newMultiPvExp exp = []
    ∧ _filename exp = Experience_File o.
Proof.
  intros Hen Hff Hgives Hl. unfold Experience_init. rewrite Hen. simpl.
  destruct Hgives as [Hfile|[Hnone ->]].
  - rewrite (load_file_async _ new_ExperienceData w l Hfile Hl Hff eq_refl).
    eexists. split; [done|]. done.
  - rewrite (load_missing _ false new_ExperienceData w Hnone).
    eexists. split; [done|]. done.
Qed.

(** The move of a record is in the chain of its position once the
    record is linked. *)
Lemma link_entry_has_move (e : ExpEntry) (m : gmap Z Chain) :
  move e ∈ move <$> probe (key e) (link_entry e m).2.
Proof.
  unfold link_entry. destruct (m !! key e) as [chain|] eqn:Hk.
  - destruct (ExpEntryEx_find (move e) chain) as [i|] eqn:Hf; simpl.
    + rewrite probe_insert, decide_True by done. rewrite alter_merge_moves.
      destruct (find_Some _ _ _ Hf) as (x & Hx & <-).
      apply list_elem_of_fmap_2. by eapply list_elem_of_lookup_2.
    + rewrite probe_insert, decide_True by done.
      rewrite insert_sorted_perm. simpl. left.
  - simpl. rewrite probe_insert, decide_True by done. simpl. left.
Qed.

(** X26 (pending experience is written once): after an incremental
    save whose stream opened and whose writes went through, the store
    has nothing pending, so that a further incremental save, under this
    or another name, touches neither the store nor the files. *)
Theorem save_incremental_once fn st w :
  has_new_exp st = true →
  open_fails (faults w) (map_path fn) = false →
  writes_succeed w →
  let r := save fn false st w in
  has_new_exp r.1 = false
  ∧ ∀ fn', save fn' false r.1 r.2 = r.
Proof.
  intros Hnew Hopen Hwrite r.
  assert (r.1 = clear_new_exp st) as Hst.
  { unfold r. rewrite save_pending by done. simpl.
    by destruct (_save_ok fn false st w Hopen Hwrite) as [-> _]. }
  split; [by rewrite Hst|]. intros fn'. unfold save, nothing_to_save.
  rewrite Hst. simpl. rewrite <- Hst. by destruct r.
Qed.

(** X27 (what the engine knows after [init]): with experience enabled
    and no store yet, on a file system that refuses nothing, [init] on
    a well-formed experience file of the records [l] leaves a store
    whose chains are those of [l] linked in file order, so [probe]
    answers from them; a file that is not there gives a store that knows
    nothing.  No file changes. *)
Theorem Experience_init_loads o w (l : list ExpEntry) :
  Experience_Enabled o = true →
  fault_free (faults w) →
  gives (files w) (Experience_File o) l →
  Forall entry_in_range l →
  let r := Experience_init o initial_globals w in
  (∀ k, Experience_probe k r.1 = probe k (link_all l ∅))
  ∧ index_ok (link_all l ∅)
  ∧ files r.2 = files w.
Proof.
  intros Hen Hff Hgives Hl r.
  destruct (Experience_init_fresh o w l Hen Hff Hgives Hl)
    as (exp & Hinit & Hm & _).
  unfold r. rewrite Hinit. simpl. split_and!; [|apply link_all_index_ok, index_ok_empty|done].
  intros k. unfold Experience_probe. simpl. by rewrite Hm.
Qed.

(** X28 (a learned move survives a restart): let the engine run on a
    well-formed experience file, or on none, with nothing pending, on a
    file system that refuses nothing and with the read-only option off.
    A move learned at a depth that reaches [MIN_EXP_DEPTH] is not seen
    by [probe] in this run; but once the store is unloaded and a new run
    of the engine has done its [init], [probe] on the position returns a
    chain that holds the move, and the chains are those of the old
    records with the new one linked last. *)
Theorem learned_move_survives_restart o g w exp (l : list ExpEntry) k m v d :
  Experience_Enabled o = true → Experience_Readonly o = false →
  currentExperience g = Some exp →
  _filename exp = Experience_File o →
  _newPvExp exp = [] → _newMultiPvExp exp = [] →
  fault_free (faults w) →
  gives (files w) (Experience_File o) l →
  Forall entry_in_range l →
  entry_in_range (mkExpEntry k m v d) → MIN_EXP_DEPTH ≤ d →
  let g1 := Experience_add_pv_experience k m v d g in
  let unloaded := Experience_unload o g1 w in
  let restarted := Experience_init o initial_globals unloaded.2 in
  (∀ k', Experience_probe k' g1 = Experience_probe k' g)
  ∧ (∀ k', Experience_probe k' restarted.1
           = probe k' (link_all (l ++ [mkExpEntry k m v d]) ∅))
  ∧ m ∈ move <$> Experience_probe k restarted.1.
Proof.
  intros Hen Hro Hcur Hname Hpv Hmpv Hff Hgives Hl He Hd g1 unloaded restarted.
  pose proof Hff as (_ & _ & Hopen & Hwrite & _).
  set (e := mkExpEntry k m v d) in *.
  set (exp1 := add_pv_experience k m v d exp).
  assert (g1 = {| currentExperience := Some exp1;
                  experienceEnabled := experienceEnabled g;
                  learningPaused := learningPaused g |}) as Hg1.
  { unfold g1, Experience_add_pv_experience. by rewrite Hcur. }
  assert (has_new_exp exp1 = true) as Hnew.
  { unfold has_new_exp, exp1, add_pv_experience. simpl. by rewrite Hpv. }
  assert (unloaded.2 = (_save (Experience_File o) false exp1 w).2) as Hw2.
  { unfold unloaded, Experience_unload, Experience_save. rewrite Hg1. simpl.
    rewrite Hnew, Hro. simpl. rewrite save_pending by done.
    by rewrite <- Hname. }
  pose proof (_save_ok_file (Experience_File o) false exp1 w (Hopen _) Hwrite)
    as Hfile.
  destruct (_save_appends (Experience_File o) false exp1 w) as [(Hfaults & _) _].
  rewrite <- Hw2 in Hfile, Hfaults.
  assert (saved_records false exp1 = [e]) as Hsaved.
  { unfold saved_records, exp1, add_pv_experience. simpl. rewrite Hpv, Hmpv. simpl.
    rewrite filter_cons, decide_True by (unfold qualifies; simpl; lia). done. }
  rewrite Hsaved in Hfile.
  assert (gives (files unloaded.2) (Experience_File o) (l ++ [e])) as Hgives'.
  { left. rewrite Hfile. f_equal. destruct Hgives as [Hsome|[Hnone ->]].
    - unfold content. rewrite Hsome. simpl. by rewrite flat_map_app.
    - unfold content. rewrite Hnone. simpl. done. }
  assert (Forall entry_in_range (l ++ [e])) as Hrange.
  { apply Forall_app. split; [done|]. by apply Forall_singleton. }
  assert (fault_free (faults unloaded.2)) as Hff' by (by rewrite Hfaults).
  destruct (Experience_init_fresh o unloaded.2 (l ++ [e]) Hen Hff' Hgives' Hrange)
    as (exp' & Hinit & Hm & _).
  assert (∀ k', Experience_probe k' restarted.1 = probe k' (link_all (l ++ [e]) ∅))
    as Hprobe.
  { intros k'. unfold restarted. rewrite Hinit. unfold Experience_probe. simpl.
    by rewrite Hm. }
  split_and!.
  - intros k'. rewrite Hg1. unfold Experience_probe. simpl. by rewrite Hcur.
  - exact Hprobe.
  - rewrite Hprobe, link_all_app. simpl.
    apply (link_entry_has_move e (link_all l ∅)).
Qed.

End Lifecycle.

Section LifecycleExamples.
#[local] Existing Instance demo_params.
#[local] Existing Instance demo_iteration.
#[local] Existing Instance demo_utility.

Lemma save_incremental_once_witness :
  has_new_exp (save "SugaR.exp" false pending_store empty_world).1 = false.
Proof.
  assert (writes_succeed empty_world) as Hwrite by done.
  apply (save_incremental_once "SugaR.exp" pending_store empty_world
           eq_refl eq_refl Hwrite).
Defined.

Lemma one_record_file_gives :
  gives (files (world_with_file no_faults)) (Experience_File read_write) [rec_shallow].
Proof. left. vm_compute. reflexivity. Defined.

Lemma rec_shallow_in_range : Forall entry_in_range [rec_shallow].
Proof. apply Forall_singleton. vm_compute. intuition discriminate. Defined.

(** The engine starts on the one-record file and knows its record. *)
Lemma Experience_init_loads_witness :
  Experience_probe 1
    (Experience_init read_write initial_globals (world_with_file no_faults)).1
  = probe 1 (link_all [rec_shallow] ∅).
Proof.
  apply (Experience_init_loads read_write (world_with_file no_faults) [rec_shallow]
           eq_refl no_faults_fault_free one_record_file_gives rec_shallow_in_range).
Defined.

(** Move 11 of position 1, learned at depth 10, is known to the next
    run of the engine. *)
Lemma learned_move_survives_restart_witness :
  11 ∈ move <$> Experience_probe 1
         (Experience_init read_write initial_globals
            (Experience_unload read_write
               (Experience_add_pv_experience 1 11 0 10 loaded_globals)
               (world_with_file no_faults)).2).1.
Proof.
  assert (entry_in_range (mkExpEntry 1 11 0 10)) as He
    by (vm_compute; intuition discriminate).
  assert (MIN_EXP_DEPTH ≤ 10) as Hd by (vm_compute; discriminate).
  assert (_filename loaded_store = Experience_File read_write) as Hname
    by (vm_compute; reflexivity).
  apply (learned_move_survives_restart read_write loaded_globals
           (world_with_file no_faults) loaded_store [rec_shallow] 1 11 0 10
           eq_refl eq_refl eq_refl Hname eq_refl eq_refl no_faults_fault_free
           one_record_file_gives rec_shallow_in_range He Hd).
Defined.

End LifecycleExamples.

(** ** What an index holds *)

Section IndexContent.
Context `{Params}.

(** The moves of a chain after one link: those it had, and the move of
    the record in the chain of the record's position. *)
Lemma link_entry_moves (e : ExpEntry) (m : gmap Z Chain) k mv :
  mv ∈ move <$> probe k (link_entry e m).2
  ↔ mv ∈ move <$> probe k m ∨ (key e = k ∧ move e = mv).
Proof.
  unfold link_entry. destruct (m !! key e) as [chain|] eqn:Hk.
  - destruct (ExpEntryEx_find (move e) chain) as [i|] eqn:Hf; simpl;
      rewrite probe_insert; case_decide as Hkey.
    + subst k. rewrite alter_merge_moves. unfold probe. rewrite Hk. simpl.
      split; [by left|]. intros [?|[_ <-]]; [done|].
      destruct (find_Some _ _ _ Hf) as (x & Hx & <-).
      apply list_elem_of_fmap_2. by eapply list_elem_of_lookup_2.
    + split; [by left|]. by intros [?|[? _]].
    + subst k. rewrite insert_sorted_perm. unfold probe. rewrite Hk. simpl.
      rewrite elem_of_cons. split.
      * intros [->|Hin]; [by right|by left].
      * intros [Hin|[_ <-]]; [by right|by left].
    + split; [by left|]. by intros [?|[? _]].
  - simpl. rewrite probe_insert. case_decide as Hkey.
    + subst k. unfold probe. rewrite Hk. simpl. rewrite elem_of_cons.
      split; [intros [->|Hin]; [by right|by apply elem_of_nil in Hin]|].
      intros [Hin|[_ <-]]; [by apply elem_of_nil in Hin|by left].
    + split; [by left|]. by intros [?|[? _]].
Qed.

(** X29 (no move is lost and none is made up): after the records [l]
    are linked into an index, in a load or in several, the moves that
    [probe] finds for a position are those the index had for it and
    those of the records of [l] for that position, whatever their order
    and however often a move is repeated. *)
Theorem link_all_moves (l : list ExpEntry) (m : gmap Z Chain) k mv :
  mv ∈ move <$> probe k (link_all l m)
  ↔ mv ∈ move <$> probe k m ∨ ∃ e, e ∈ l ∧ key e = k ∧ move e = mv.
Proof.
  revert m. induction l as [|e l IH]; intros m; simpl.
  - split; [by left|]. intros [?|(e & He & _)]; [done|].
    by apply elem_of_nil in He.
  - rewrite IH, link_entry_moves. split.
    + intros [[?|[? ?]]|(x & Hx & ? & ?)]; [by left | right | right].
      * exists e. split_and!; [by left | done | done].
      * exists x. split_and!; [by right | done | done].
    + intros [?|(x & Hx & Hkx & Hmx)]; [by left; left|].
      apply elem_of_cons in Hx as [->|Hx]; [left; right; done|].
      right. by exists x.
Qed.

End IndexContent.

(** ** A save that is refused *)

Section SaveRefused.
Context `{Params} `{Iteration}.

(** X30 (a save that cannot open its file): when the stream on the
    target cannot be opened, an incremental save with records pending
    changes no file and keeps every record pending, so that a later
    save can still write them. *)
Theorem save_open_refused fn st w :
  has_new_exp st = true →
  open_fails (faults w) (map_path fn) = true →
  (save fn false st w).1 = st
  ∧ files (save fn false st w).2 = files w
  ∧ faults (save fn false st w).2 = faults w
  ∧ has_new_exp (save fn false st w).1 = true.
Proof.
  intros Hnew Hopen. rewrite save_pending by done. simpl.
  unfold _save, _save_entries. rewrite Hopen. simpl. done.
Qed.

End SaveRefused.

Section SaveRefusedExamples.
#[local] Existing Instance demo_params.
#[local] Existing Instance demo_iteration.

(** No stream can be opened. *)
Lemma save_open_refused_witness :
  (save "SugaR.exp" false pending_store (world_with_file opens_refused)).1
  = pending_store.
Proof.
  apply (save_open_refused "SugaR.exp" pending_store (world_with_file opens_refused)
           eq_refl eq_refl).
Defined.

End SaveRefusedExamples.
